(** * ALDERAAN: detrending and transit-time estimation

    A shallow embedding of the parts of [alderaan/detrend.py] and of
    [bin/detrend_and_estimate_ttvs.py] that segment light curves, mask
    transits, run the detrending fallback ladder, refine slide transit
    times, choose the transits to refit and select the O-C model.

    Numbers.  numpy's float64 values are modelled by exact rationals
    ([Qc], canonical fractions with Leibniz equality), so rounding is
    not modelled.  Where the source can meet a not-a-number or an
    infinity (an empty median, a division by zero, an assignment of
    [np.nan]) the model says so explicitly: a float that may be NaN is
    an [option Qc] with [None] for NaN, and a quotient compared with a
    threshold goes through [np.div_gt].  Integer arrays are lists of
    [Z]; Python's unbounded ints and numpy's int64 agree as long as
    the values stay in the 64-bit range: array indices do, and so do
    the differences of cadence numbers that are not negative (numpy
    takes these differences modulo [2^64]).  Functions of numpy, scipy
    and astropy are modelled by their documented behaviour. *)

From Stdlib Require Import ZArith QArith Qcanon Qcabs List Lia Bool String.
From stdpp Require Import base list.
From Equations Require Import Equations.
Import ListNotations.
Open Scope Z_scope.

(** ** Rational arithmetic with boolean tests *)

Definition Qcltb (x y : Qc) : bool := Qnum x * QDen y <? Qnum y * QDen x.
Definition Qcleb (x y : Qc) : bool := Qnum x * QDen y <=? Qnum y * QDen x.
Definition Qceqb (x y : Qc) : bool := Qnum x * QDen y =? Qnum y * QDen x.

(** An integer seen as a float, as numpy promotes it. *)
Definition Z2Qc (z : Z) : Qc := Q2Qc (inject_Z z).

Definition Qc_two : Qc := Z2Qc 2.

(** ** numpy on one-dimensional arrays *)
Module np.

(** [a[1:] - a[:-1]] *)
Definition diff_Z (a : list Z) : list Z :=
  zip_with Z.sub (drop 1 a) (removelast a).

Definition diff (a : list Qc) : list Qc :=
  zip_with Qcminus (drop 1 a) (removelast a).

(** [np.where(cond)[0]]: the positions at which [cond] holds. *)
Fixpoint where_from (i : Z) (cond : list bool) : list Z :=
  match cond with
  | [] => []
  | b :: rest => (if b then [i] else []) ++ where_from (i + 1) rest
  end.

Definition where_ (cond : list bool) : list Z := where_from 0 cond.

(** [a[cond]] for a boolean array [cond] of the length of [a]. *)
Fixpoint select {A} (a : list A) (cond : list bool) : list A :=
  match a, cond with
  | x :: a', b :: cond' => (if b then [x] else []) ++ select a' cond'
  | _, _ => []
  end.

(** Sorting, as [np.sort] and as the first step of [np.median]. *)
Fixpoint insert_sorted (x : Qc) (l : list Qc) : list Qc :=
  match l with
  | [] => [x]
  | y :: l' => if Qcleb x y then x :: l else y :: insert_sorted x l'
  end.

Definition sort (l : list Qc) : list Qc := foldr insert_sorted [] l.

(** [np.unique] on integers: sorted, each value once. *)
Fixpoint insert_unique (x : Z) (l : list Z) : list Z :=
  match l with
  | [] => [x]
  | y :: l' =>
      if x <? y then x :: l
      else if x =? y then l
      else y :: insert_unique x l'
  end.

Definition unique (l : list Z) : list Z := foldr insert_unique [] l.

(** [np.sort] on integers. *)
Fixpoint insert_sorted_Z (x : Z) (l : list Z) : list Z :=
  match l with
  | [] => [x]
  | y :: l' => if x <=? y then x :: l else y :: insert_sorted_Z x l'
  end.

Definition sort_Z (l : list Z) : list Z := foldr insert_sorted_Z [] l.

(** [np.median] of a non-empty array: the middle element of the
    sorted array, or the mean of the two middle elements.  On an
    empty array numpy answers NaN; see [nanable_median]. *)
Definition median (l : list Qc) : Qc :=
  let s := sort l in
  let n := length s in
  if Nat.even n
  then ((nth (n / 2 - 1)%nat s 0 + nth (n / 2)%nat s 0) / Qc_two)%Qc
  else nth (n / 2)%nat s 0%Qc.

Definition nanable_median (l : list Qc) : option Qc :=
  match l with
  | [] => None
  | _ => Some (median l)
  end.

(** [a.min()] and [a.max()]; a [ValueError] on an empty array. *)
Definition min (a : list Qc) : option Qc :=
  match a with
  | [] => None
  | x :: a' => Some (fold_left (fun m y => if Qcltb y m then y else m) a' x)
  end.

Definition max (a : list Qc) : option Qc :=
  match a with
  | [] => None
  | x :: a' => Some (fold_left (fun m y => if Qcltb m y then y else m) a' x)
  end.

(** [num / den > thr] in IEEE arithmetic: a division by zero gives
    an infinity of the sign of [num], or NaN for [0/0], and NaN
    compares false. *)
Definition div_gt (num den thr : Qc) : bool :=
  if Qceqb den 0 then Qcltb 0 num else Qcltb thr (num / den)%Qc.

End np.

(** [astropy.stats.mad_std]: the median absolute deviation from the
    median, times the factor that makes it estimate a normal sigma. *)
Definition mad_factor : Qc := Q2Qc 1.482602218505602.

Definition mad_std (data : list Qc) : Qc :=
  let m := np.median data in
  (np.median (map (fun x => Qcabs (x - m)) data) * mad_factor)%Qc.

(** ** The light curve *)

Record LiteCurve := mkLiteCurve {
  time : list Qc;
  flux : list Qc;
  error : list Qc;
  cadno : list Z;
  quarter : list Z;
  channel : list Z;
  mask : list bool
}.

(** ** [alderaan.detrend.make_transitmask] *)

(** One pass of the loop body: [transitmask += np.abs(time-t0) < masksize]. *)
Definition add_neartransit (time : list Qc) (masksize : Qc)
    (transitmask : list bool) (t0 : Qc) : list bool :=
  zip_with orb transitmask (map (fun t => Qcltb (Qcabs (t - t0)) masksize) time).

Definition make_transitmask (time tts : list Qc) (masksize : Qc)
    : option (list bool) :=
  tmin ← np.min time;
  tmax ← np.max time;
  let tts_here := List.filter (fun t => Qcleb tmin t && Qcleb t tmax) tts in
  Some (fold_left (add_neartransit time masksize) tts_here
          (replicate (length time) false)).


(** ** [alderaan.detrend.identify_gaps] *)

(** Line 78 is [mask = np.sum(np.atleast_2d(lc.mask, 0) == 0)].
    [np.atleast_2d] takes any number of arrays: called with one it
    answers its two-dimensional view, and called with several it
    answers a Python list of their views. *)
Inductive atleast_2d_result :=
| View (rows : list (list Z))
| Views (views : list (list (list Z))).

Definition atleast_2d (arys : list (list Z)) : atleast_2d_result :=
  match arys with
  | [a] => View [a]
  | _ => Views (map (fun a => [a]) arys)
  end.

(** [x == 0]: elementwise on an array; a Python list is never equal
    to an int, and the comparison is the single value [False]. *)
Inductive eq_result :=
| Elementwise (rows : list (list bool))
| Whole (b : bool).

Definition eq_zero (x : atleast_2d_result) : eq_result :=
  match x with
  | View rows => Elementwise (map (map (Z.eqb 0)) rows)
  | Views _ => Whole false
  end.

(** [np.sum] without an axis: how many entries are true. *)
Definition sum_bool (x : eq_result) : Z :=
  match x with
  | Elementwise rows => Z.of_nat (length (List.filter id (concat rows)))
  | Whole b => Z.b2z b
  end.

(** The one-dimensional mask of line 78.  The second argument of
    [atleast_2d] is the scalar [0], whose view is [[0]]. *)
Definition mask_1d (lc : LiteCurve) : Z :=
  sum_bool (eq_zero (atleast_2d [map Z.b2z (mask lc); [0]])).

(** Lines 81-82: cadence differences, padded with a leading 1.  The
    differences are the exact ones: those of 64-bit cadence numbers
    that are not negative never leave the 64-bit range. *)
Definition breaks (lc : LiteCurve) : list Z := 1 :: np.diff_Z (cadno lc).

(** Lines 83-84: where the difference exceeds the tolerance, padded
    with 0 in front and [len(breaks)+1] behind. *)
Definition break_locs (lc : LiteCurve) (break_tolerance : Z) : list Z :=
  [0] ++ np.where_ (map (fun b => break_tolerance <? b) (breaks lc))
      ++ [Z.of_nat (length (breaks lc)) + 1].

(** Lines 87-88: flux differences, padded with a leading 0. *)
Definition jumps (lc : LiteCurve) : list Qc := 0%Qc :: np.diff (flux lc).

(** Line 89; the threshold is the literal [5.0]. *)
Definition big_jump (lc : LiteCurve) : list bool :=
  let j := jumps lc in
  map (fun x => np.div_gt (Qcabs (x - np.median j)) (mad_std j) (Z2Qc 5)) j.

(** Line 90: [np.where(mask*big_jump)[0]], the nonzero products. *)
Definition jump_locs (lc : LiteCurve) : list Z :=
  np.where_ (map (fun b => negb (mask_1d lc * Z.b2z b =? 0)) (big_jump lc)).

(** [a[-k] = v], on an array of [k] elements or more (Python raises
    an [IndexError] on a shorter one; the arrays below hold the two
    paddings of [break_locs]). *)
Definition set_from_end {A} (k : nat) (v : A) (a : list A) : list A :=
  <[(length a - k)%nat := v]> a.

(** Lines 95-101: drop a boundary that follows its predecessor by less
    than [break_tolerance]; when that would drop the last boundary,
    drop the one before it instead. *)
Definition merge_close (gaps : list Z) (break_tolerance : Z) : list Z :=
  let bad := false :: map (fun d => d <? break_tolerance) (np.diff_Z gaps) in
  let bad :=
    if last bad is Some true
    then set_from_end 2 true (set_from_end 1 false bad)
    else bad in
  np.select gaps (map negb bad).

Definition identify_gaps (lc : LiteCurve) (break_tolerance : Z)
    (jump_tolerance : Qc) : list Z :=
  let gaps :=
    np.sort_Z (np.unique (break_locs lc break_tolerance ++ jump_locs lc)) in
  merge_close gaps break_tolerance.

(** What the docstring of [identify_gaps] and the specification say a
    flux jump is: a deviation of the flux difference from the median
    difference of more than [jump_tolerance] sigma. *)
Definition spec_flux_jump (lc : LiteCurve) (jump_tolerance : Qc) (i : nat) : bool :=
  let j := jumps lc in
  match j !! i with
  | Some x => np.div_gt (Qcabs (x - np.median j)) (mad_std j) jump_tolerance
  | None => false
  end.

(** The hypotheses of the no-gap property, decided. *)
Definition strictly_increasing (a : list Z) : bool :=
  forallb (fun d => 0 <? d) (np.diff_Z a).

Definition no_gap_exceeds (lc : LiteCurve) (break_tolerance : Z) : bool :=
  forallb (fun d => d <=? break_tolerance) (np.diff_Z (cadno lc)).

Definition no_flux_jump (lc : LiteCurve) (jump_tolerance : Qc) : bool :=
  forallb (fun i => negb (spec_flux_jump lc jump_tolerance i))
          (seq 0 (length (jumps lc))).

(** ** Exceptions and the mutable list of light curves

    The script keeps its light curves in the Python list [lc_data]
    and hands each one to [flatten_with_gp], which changes it in
    place.  A light curve is therefore named by its position in
    [lc_data]; the state also holds the warnings issued so far. *)

Inductive exn :=
| ValueError (msg : string)
| IndexError
| SolverError (code : Z).

Record world := mkWorld {
  lc_data : list LiteCurve;
  warnings : list string
}.

Definition M (A : Type) : Type := world -> (exn + A) * world.

#[export] Instance M_ret : MRet M := fun A x w => (inr x, w).

#[export] Instance M_bind : MBind M := fun A B f c w =>
  match c w with
  | (inr x, w') => f x w'
  | (inl e, w') => (inl e, w')
  end.

Definition raise {A} (e : exn) : M A := fun w => (inl e, w).

Definition lift {A} (r : exn + A) : M A := fun w => (r, w).

(** [try: body / except: handler] with a bare [except]. *)
Definition try_except {A} (body handler : M A) : M A := fun w =>
  match body w with
  | (inl _, w') => handler w'
  | (inr x, w') => (inr x, w')
  end.

Definition read_lc (i : nat) : M LiteCurve := fun w =>
  match lc_data w !! i with
  | Some lc => (inr lc, w)
  | None => (inl IndexError, w)
  end.

Definition write_lc (i : nat) (lc : LiteCurve) : M unit := fun w =>
  (inr tt, mkWorld (<[i := lc]> (lc_data w)) (warnings w)).

Definition warn (msg : string) : M unit := fun w =>
  (inr tt, mkWorld (lc_data w) (warnings w ++ [msg])).

Fixpoint for_each {A} (items : list A) (body : A -> M unit) : M unit :=
  match items with
  | [] => mret tt
  | x :: rest => _ ← body x; for_each rest body
  end.

Definition with_flux (lc : LiteCurve) (f : list Qc) : LiteCurve :=
  mkLiteCurve (time lc) f (error lc) (cadno lc) (quarter lc) (channel lc) (mask lc).

Definition with_error (lc : LiteCurve) (e : list Qc) : LiteCurve :=
  mkLiteCurve (time lc) (flux lc) e (cadno lc) (quarter lc) (channel lc) (mask lc).

Definition with_mask (lc : LiteCurve) (m : list bool) : LiteCurve :=
  mkLiteCurve (time lc) (flux lc) (error lc) (cadno lc) (quarter lc) (channel lc) m.

(** [a /= trend] on float arrays of one shape; numpy refuses shapes
    that do not match.  (A zero in [trend] makes numpy write an
    infinity or a NaN; the rationals write 0 there.) *)
Definition idiv (a trend : list Qc) : exn + list Qc :=
  if (length a =? length trend)%nat
  then inr (zip_with Qcdiv a trend)
  else inl (ValueError "operands could not be broadcast together").

(** ** [alderaan.detrend.flatten_with_gp] *)

(** [gaps[-1] -= 1] *)
Definition decr_last (gaps : list Z) : list Z :=
  match last gaps with
  | Some g => set_from_end 1 (g - 1) gaps
  | None => gaps
  end.

(** [seg[lo:hi] = v] *)
Definition assign_slice (lo hi v : Z) (seg : list Z) : list Z :=
  imap (fun j x => if (lo <=? Z.of_nat j) && (Z.of_nat j <? hi) then v else x) seg.

(** Lines 150-155: the segment number of every cadence. *)
Definition segment_labels (n : nat) (gaps : list Z) : list Z :=
  fold_left
    (fun seg i => assign_slice (nth i gaps 0) (nth (S i) gaps 0) (Z.of_nat i) seg)
    (seq 0 (length gaps - 1)) (replicate n 0).

(** Lines 144-145: the boundaries counted in unmasked cadences. *)
Definition unmasked_gaps (lc : LiteCurve) (gaps : list Z) : list Z :=
  let inds_ := np.select (map Z.of_nat (seq 0 (length (time lc)))) (map negb (mask lc)) in
  map (fun g => Z.of_nat (length (List.filter (fun i => i <? g) inds_))) gaps.

Section Detrend.

(** The Lomb-Scargle estimate of the main period (lines 131-136) and
    the Gaussian-process fit with its prediction (lines 178-258) are
    the work of astropy, pymc3 and celerite2: here they are functions
    that answer a value or raise. *)
Variable lomb_scargle_peak : LiteCurve -> Qc -> exn + Qc.
Variable gp_trend :
  LiteCurve -> Qc -> Qc -> list Z -> list Z -> string -> bool -> exn + list Qc.

Definition flatten_with_gp (lc : nat) (break_tolerance : Z) (min_period : Qc)
    (kterm : string) (correct_ramp return_trend : bool)
    : M (nat * option (list Qc)) :=
  l ← read_lc lc;
  peak_per ← lift (lomb_scargle_peak l min_period);
  let gaps := decr_last (identify_gaps l break_tolerance (Z2Qc 5)) in
  let seg := segment_labels (length (time l)) gaps in
  let seg_ :=
    segment_labels (length (np.select (time l) (map negb (mask l))))
                   (unmasked_gaps l gaps) in
  _ ← (if String.eqb kterm "RotationTerm" || String.eqb kterm "SHOTerm"
       then mret tt
       else raise (ValueError "kterm must be 'RotationTerm' or 'SHOTerm'"));
  full_trend ← lift (gp_trend l peak_per min_period seg seg_ kterm correct_ramp);
  f ← lift (idiv (flux l) full_trend);
  _ ← write_lc lc (with_flux l f);
  l' ← read_lc lc;
  e ← lift (idiv (error l') full_trend);
  _ ← write_lc lc (with_error l' e);
  mret (lc, if return_trend then Some full_trend else None).

(** The ladder of lines 591-599 and 1828-1836, and its two warnings. *)
Definition warning_no_ramp : string :=
  "Initial detrending model failed...attempting to refit without exponential ramp component".

Definition warning_SHOTerm : string :=
  "Detrending with RotationTerm failed...attempting to detrend with SHOTerm".

Definition detrend_ladder (lcd : nat) (break_tolerance : Z) (min_period : Qc)
    : M (nat * option (list Qc)) :=
  try_except
    (flatten_with_gp lcd break_tolerance min_period "RotationTerm" true false)
    (_ ← warn warning_no_ramp;
     try_except
       (flatten_with_gp lcd break_tolerance min_period "RotationTerm" false false)
       (_ ← warn warning_SHOTerm;
        flatten_with_gp lcd break_tolerance min_period "SHOTerm" false false)).

(** Lines 1823-1826: the transit mask of one light curve, the union
    of the masks of the planets. *)
Record Planet := mkPlanet {
  tts : list Qc;
  duration : Qc
}.

Definition masksize_2nd_pass (p : Planet) (ttv_buffer : Qc) : Qc :=
  let a := Q2Qc (1 # 24) in
  let b := (Q2Qc 0.5 * duration p + ttv_buffer)%Qc in
  if Qcltb a b then b else a.

Definition add_planet_mask (lcd : nat) (pb : Planet * Qc) : M unit :=
  l ← read_lc lcd;
  match make_transitmask (time l) (tts pb.1) (masksize_2nd_pass pb.1 pb.2) with
  | Some m => write_lc lcd (with_mask l (zip_with orb (mask l) m))
  | None => raise (ValueError "zero-size array to reduction operation minimum which has no identity")
  end.

Definition set_transit_mask (planets : list (Planet * Qc)) (lcd : nat) : M unit :=
  l ← read_lc lcd;
  _ ← write_lc lcd (with_mask l (replicate (length (time l)) false));
  for_each planets (add_planet_mask lcd).

(** Lines 1819-1836: the second detrending pass over [lc_data]. *)
Definition detrend_2nd_pass (planets : list (Planet * Qc))
    (break_tolerance : Z) (min_period : Qc) : M unit :=
  fun w =>
    for_each (seq 0 (length (lc_data w)))
      (fun lcd =>
         _ ← set_transit_mask planets lcd;
         _ ← detrend_ladder lcd break_tolerance min_period;
         mret tt) w.

End Detrend.

(** ** The slide fit of one transit (lines 1004-1058, 1078-1081) *)

(** Lines 1014-1022 for one value of [delta_chisq]: the grid points
    whose smoothed chi-squared is within [delta_chisq] of the minimum,
    without those far from their median. *)
Definition retain_near_minimum (tc_vector chisq_vector : list Qc)
    (min_chisq : Qc) (delta_chisq : Z) : list Qc * list Qc :=
  let near := map (fun x => Qcltb x (min_chisq + Z2Qc delta_chisq)%Qc) chisq_vector in
  let tcfit := np.select tc_vector near in
  let x2fit := np.select chisq_vector near in
  let spacing := np.nanable_median (np.diff tcfit) in
  let limit := (1 + Z2Qc (Z.of_nat (length tcfit)) / Qc_two)%Qc in
  let faraway :=
    map (fun t =>
           match spacing with
           | Some s => np.div_gt (Qcabs (t - np.median tcfit)) s limit
           | None => false
           end) tcfit in
  (np.select tcfit (map negb faraway), np.select x2fit (map negb faraway)).

(** Lines 1005-1029: the loop, entered with [delta_chisq = 1].  The
    minimum of an empty chi-squared vector is a [ValueError]. *)
Equations? grab_points (tc_vector chisq_vector : list Qc) (delta_chisq : Z)
    : option (list Qc * list Qc) by wf (Z.to_nat (9 - delta_chisq)) lt :=
  grab_points tc_vector chisq_vector delta_chisq
    with np.min chisq_vector := {
    | None => None
    | Some min_chisq
        with Z_lt_le_dec (delta_chisq + 1) 9 := {
        | right _ =>
            Some (retain_near_minimum tc_vector chisq_vector min_chisq (delta_chisq + 1))
        | left _ =>
            let fit := retain_near_minimum tc_vector chisq_vector min_chisq (delta_chisq + 1) in
            if (3 <=? length fit.2)%nat
            then Some fit
            else grab_points tc_vector chisq_vector (delta_chisq + 1) } }.
Proof. lia. Qed.

(** [np.polyfit(x, y, 2)]: the least-squares parabola, highest power
    first.  It is the solution of the normal equations, written with
    Cramer's rule; the solution is unique whenever [x] holds three
    distinct abscissae, which is when [normal_det] is not zero. *)
Definition qsum (l : list Qc) : Qc := foldr Qcplus 0%Qc l.

Definition det3 (a11 a12 a13 a21 a22 a23 a31 a32 a33 : Qc) : Qc :=
  (a11 * (a22 * a33 - a23 * a32)
   - a12 * (a21 * a33 - a23 * a31)
   + a13 * (a21 * a32 - a22 * a31))%Qc.

Section Moments.
Variables x y : list Qc.
Definition S0 : Qc := qsum (map (fun _ => 1%Qc) x).
Definition S1 : Qc := qsum x.
Definition S2 : Qc := qsum (map (fun t => t * t)%Qc x).
Definition S3 : Qc := qsum (map (fun t => t * t * t)%Qc x).
Definition S4 : Qc := qsum (map (fun t => t * t * t * t)%Qc x).
Definition T0 : Qc := qsum (zip_with (fun _ v => v) x y).
Definition T1 : Qc := qsum (zip_with (fun t v => t * v)%Qc x y).
Definition T2 : Qc := qsum (zip_with (fun t v => t * t * v)%Qc x y).
Definition normal_det : Qc := det3 S4 S3 S2 S3 S2 S1 S2 S1 S0.
Definition polyfit2 : Qc * Qc * Qc :=
  ((det3 T2 S3 S2 T1 S2 S1 T0 S1 S0 / normal_det)%Qc,
   (det3 S4 T2 S2 S3 T1 S1 S2 T0 S0 / normal_det)%Qc,
   (det3 S4 S3 T2 S3 S2 T1 S2 S1 T0 / normal_det)%Qc).
End Moments.

(** Comparisons with a float that may be NaN; NaN compares false. *)
Definition isnan (v : option Qc) : bool := if v is None then true else false.

Definition nan_lt (v : option Qc) (w : Qc) : bool :=
  if v is Some q then Qcltb q w else false.

Definition nan_gt (v : option Qc) (w : Qc) : bool :=
  if v is Some q then Qcltb w q else false.

Section Slide.

(** [np.sqrt] on a positive argument. *)
Variable fsqrt : Qc -> Qc.

(** Lines 1031-1058: from the retained points to the transit time and
    its uncertainty. *)
Definition fit_parabola (tcfit x2fit : list Qc) : option (option Qc * option Qc) :=
  if (length tcfit <? 3)%nat then Some (None, None)
  else
    let '(a, b, _) := polyfit2 tcfit x2fit in
    let qtc_min := (- b / (Qc_two * a))%Qc in
    let qtc_err := fsqrt (1 / a)%Qc in
    let tts_i := Some ((qtc_min + np.median tcfit) / Qc_two)%Qc in
    let err_i := Some qtc_err in
    let '(tts_i, err_i) := if Qcleb a 0 then (None, None) else (tts_i, err_i) in
    tmin ← np.min tcfit;
    tmax ← np.max tcfit;
    let '(tts_i, err_i) :=
      if nan_lt tts_i tmin || nan_gt tts_i tmax then (None, None) else (tts_i, err_i) in
    Some (tts_i, err_i).

(** Lines 974-1081 for one transit, from the smoothed chi-squared
    curve on the search grid [tc_vector]. *)
Definition slide_transit (overlap : bool) (tc_vector chisq_vector : list Qc)
    : option (option Qc * option Qc) :=
  if negb overlap
  then fit ← grab_points tc_vector chisq_vector 1; fit_parabola fit.1 fit.2
  else Some (None, None).

End Slide.

(** Lines 1087-1092: transits whose slide fit failed, or whose
    uncertainty is above eight times the median one, take the time of
    the shape model and a NaN uncertainty. *)
Definition nanmedian (a : list (option Qc)) : option Qc :=
  np.nanable_median (omap id a).

Definition flag_failed (shape_tts : list Qc) (slide_tts slide_err : list (option Qc))
    : list (option Qc) * list (option Qc) :=
  let bad := zip_with orb (map isnan slide_tts) (map isnan slide_err) in
  let bad :=
    zip_with orb bad
      (map (fun e => if nanmedian slide_err is Some m
                     then nan_gt e (Z2Qc 8 * m)%Qc else false) slide_err) in
  (zip_with (fun (b : bool) v => if b then Some v.2 else v.1) bad (zip slide_tts shape_tts),
   zip_with (fun (b : bool) e => if b then None else e) bad slide_err).

(** Lines 1095-1103: the transits to refit.  [np.random.randint(n,
    size=2)] draws two positions below [n] (and raises for [n = 0]);
    the draws are taken from [entropy]. *)
Definition randint2 (n : nat) (entropy : nat * nat) : nat * nat :=
  ((entropy.1 mod n)%nat, (entropy.2 mod n)%nat).

Definition refit_mask (slide_error : list (option Qc)) (entropy : nat * nat)
    : option (list bool) :=
  let refit := map isnan slide_error in
  if forallb negb refit
  then
    if (length refit =? 0)%nat then None
    else
      let r := randint2 (length refit) entropy in
      Some (<[r.2 := true]> (<[r.1 := true]> refit))
  else Some refit.

(** Lines 1203-1210: the transits that get a free time offset in
    [indep_model], by their index. *)
Definition free_offset_transits (transit_inds : list Z) (refit : list bool) : list Z :=
  np.select transit_inds refit.

(** Lines 1256-1262: the refit times replace the slide times where the
    slide uncertainty is NaN. [a[cond] = values] takes the values in
    order. *)
Fixpoint assign_where {A} (a : list A) (cond : list bool) (values : list A) : list A :=
  match a, cond with
  | x :: a', true :: cond' =>
      match values with
      | v :: values' => v :: assign_where a' cond' values'
      | [] => x :: assign_where a' cond' []
      end
  | x :: a', false :: cond' => x :: assign_where a' cond' values
  | _, _ => a
  end.

Definition merge_indep (slide_tts : list (option Qc)) (slide_error : list (option Qc))
    (map_tts : list (option Qc)) : list (option Qc) :=
  let replace := map isnan slide_error in
  if existsb id replace then assign_where slide_tts replace map_tts else slide_tts.

(** ** O-C outliers (lines 1311-1312 and 1422-1423) *)

(** The position that stands for [j] when an array of [n] samples is
    continued by mirroring about its first and last samples
    ([d c b | a b c d | c b a]): scipy's mode [mirror]. *)
Definition mirror_index (n : nat) (j : Z) : nat :=
  if (n <=? 1)%nat then 0%nat
  else
    let p := 2 * (Z.of_nat n - 1) in
    let m := j mod p in
    Z.to_nat (if m <? Z.of_nat n then m else p - m).

(** The [size] samples centred on position [i]. *)
Definition window (x : list Qc) (size i : nat) : list Qc :=
  map (fun k =>
         nth (mirror_index (length x)
                (Z.of_nat i + Z.of_nat k - Z.of_nat (size / 2))) x 0%Qc)
      (seq 0 size).

(** [scipy.ndimage.median_filter(x, size, mode='mirror')] *)
Definition median_filter (x : list Qc) (size : nat) : list Qc :=
  map (fun i => nth (size / 2) (np.sort (window x size i)) 0%Qc)
      (seq 0 (length x)).

(** Modelled from the spec: [alderaan.utils.boxcar_smooth] is not
    among the sources.  The specification calls it boxcar smoothing
    with a window size: every sample becomes the mean of the window of
    [winsize] samples around it, all with the same weight
    [1/winsize]; at the two ends the series is continued by
    mirroring. *)
Definition boxcar_smooth (x : list Qc) (winsize : nat) : list Qc :=
  map (fun i => (qsum (window x winsize i) / Z2Qc (Z.of_nat winsize))%Qc)
      (seq 0 (length x)).

Definition omc_outliers (yomc : list Qc) : list bool :=
  let ymed := boxcar_smooth (median_filter yomc 5) 5 in
  let dev := zip_with Qcminus yomc ymed in
  map (fun d => np.div_gt (Qcabs d) (mad_std dev) (Z2Qc 5)) dev.

(** ** O-C model selection (lines 1432-1498) *)

(** The value of an information criterion: a number, minus infinity
    (the logarithm of a zero mean square, times a positive [n]) or NaN
    (no inlier: [0/0]; or zero times an infinity). *)
Inductive score :=
| NaN
| NegInf
| Fin (q : Qc).

(** The order [np.argmin] follows: a NaN is below everything. *)
Definition score_ltb (a b : score) : bool :=
  match a, b with
  | NaN, NaN => false
  | NaN, _ => true
  | _, NaN => false
  | NegInf, NegInf => false
  | NegInf, Fin _ => true
  | Fin _, NegInf => false
  | Fin p, Fin q => Qcltb p q
  end.

(** [np.argmin]: the first position of the least value. *)
Fixpoint argmin_from (best : nat) (least : score) (i : nat) (l : list score) : nat :=
  match l with
  | [] => best
  | s :: rest =>
      if score_ltb s least then argmin_from i s (S i) rest
      else argmin_from best least (S i) rest
  end.

Definition argmin (l : list score) : nat :=
  match l with
  | [] => 0%nat
  | s :: rest => argmin_from 0 s 1 rest
  end.

(** Lines 1432-1434 *)
Definition max_polyorder (out : list bool) : Z :=
  let good := Z.of_nat (length (List.filter negb out)) in
  if 16 <=? good then 3 else if 8 <=? good then 2 else 1.

(** [range(-1, max_polyorder+1)] *)
Definition polyorders (maxp : Z) : list Z :=
  map (fun i => Z.of_nat i - 1) (seq 0 (Z.to_nat (maxp + 2))).

(** Lines 1437-1442: which model a value of [polyorder] stands for. *)
Inductive omc_model :=
| Matern32
| Sinusoid
| Polynomial (order : Z).

Definition model_of_polyorder (polyorder : Z) : omc_model :=
  if polyorder =? -1 then Matern32
  else if polyorder =? 0 then Sinusoid
  else Polynomial polyorder.

(** Lines 1480-1483 *)
Definition free_parameters (polyorder : Z) : Z :=
  if polyorder <=? 0 then 3 else polyorder + 1.

(** The number of free parameters as the specification gives it, by
    model. *)
Definition spec_free_parameters (m : omc_model) : Z :=
  match m with
  | Matern32 | Sinusoid => 3
  | Polynomial order => order + 1
  end.

Section ModelSelection.

(** [np.log] on a positive argument. *)
Variable ln : Qc -> Qc.

(** The fit of a candidate and the mixture model of its residuals
    (lines 1444-1469) are the work of pymc3: for every [polyorder]
    they give the residuals and the outlier flags [bad]. *)
Variable fit : Z -> list Qc * list bool.

(** Line 1485, with [n = len(yomc)]. *)
Definition aic (n : nat) (residuals : list Qc) (bad : list bool) (polyorder : Z) : score :=
  let inlier := map negb bad in
  let ssr := qsum (map (fun r => r * r)%Qc (np.select residuals inlier)) in
  let count := length (List.filter id inlier) in
  if (count =? 0)%nat then NaN
  else if Qceqb ssr 0 then (if (n =? 0)%nat then NaN else NegInf)
  else Fin (Z2Qc (Z.of_nat n) * ln (ssr / Z2Qc (Z.of_nat count))
            + Z2Qc (2 * free_parameters polyorder))%Qc.

Definition aiclist (n : nat) (maxp : Z) : list score :=
  map (fun p => aic n (fit p).1 (fit p).2 p) (polyorders maxp).

(** Line 1498: [polyorder = np.argmin(aiclist) - 1] *)
Definition select_polyorder (n : nat) (maxp : Z) : Z :=
  Z.of_nat (argmin (aiclist n maxp)) - 1.

End ModelSelection.

(** The criterion as the specification writes it: [n] times the
    logarithm of the mean squared residual over the inliers, plus
    twice the number of free parameters of the model. *)
Definition spec_aic (ln : Qc -> Qc) (n : nat) (inlier_residuals : list Qc)
    (m : omc_model) : Qc :=
  (Z2Qc (Z.of_nat n)
   * ln (qsum (map (fun r => r * r) inlier_residuals)
         / Z2Qc (Z.of_nat (length inlier_residuals)))
   + Z2Qc 2 * Z2Qc (spec_free_parameters m))%Qc.

(** ** Concrete inputs *)

(** The example of the transit masker. *)
Definition ex_time : list Qc := map Q2Qc [4.4; 4.6; 5.4; 5.6]%Q.

(** Twelve consecutive cadences whose flux steps from 1 to 2 at
    position 6, over an alternation of 0.01. *)
Definition lc_step : LiteCurve :=
  mkLiteCurve
    (map Z2Qc [0;1;2;3;4;5;6;7;8;9;10;11])
    (map Q2Qc [1;1.01;1;1.01;1;1.01;2;2.01;2;2.01;2;2.01]%Q)
    (map Q2Qc [0.01;0.01;0.01;0.01;0.01;0.01;0.01;0.01;0.01;0.01;0.01;0.01]%Q)
    [0;1;2;3;4;5;6;7;8;9;10;11]
    (replicate 12 3) (replicate 12 7) (replicate 12 false).

(** Three consecutive cadences of constant flux. *)
Definition lc_flat : LiteCurve :=
  mkLiteCurve (map Z2Qc [10;11;12]) (map Z2Qc [1;1;1]) (map Z2Qc [1;1;1])
    [10;11;12] [3;3;3] [7;7;7] [false;false;false].

(** The shift of a series by a constant. *)
Definition shift_by (c : Qc) (l : list Qc) : list Qc := map (fun t => t + c)%Qc l.

(** A square root to fifteen decimals, to run the slide fit on
    concrete inputs. *)
Definition sqrt_approx (q : Qc) : Qc :=
  Q2Qc (Z.sqrt (Qnum q * 10 ^ 30 / QDen q) # 1000000000000000).

(** A search grid of seven points and the chi-squared curve
    [(t - 3.3)^2] on it: an exact parabola of leading coefficient 1
    whose vertex 3.3 lies between two grid points. *)
Definition tc_parabola : list Qc := map Z2Qc [0;1;2;3;4;5;6].

Definition chisq_parabola : list Qc :=
  map (fun t => (t - Q2Qc 3.3) * (t - Q2Qc 3.3))%Qc tc_parabola.

(** A search grid of eleven points and a chi-squared curve that
    falls along [0.1 (t - 6)^2] on the grid points 2, 3 and 4 and is
    high everywhere else. *)
Definition tc_edge : list Qc := map Z2Qc [0;1;2;3;4;5;6;7;8;9;10].

Definition chisq_edge : list Qc :=
  map Q2Qc [50;50;1.6;0.9;0.4;50;50;50;50;50;50]%Q.

(** The grid points of [tc_parabola] that the loop retains. *)
Definition tcfit_parabola : list Qc := map Z2Qc [2;3;4].

(** A detrender whose periodogram works and whose Gaussian-process
    fit raises for every configuration, numbering its errors by
    configuration; and a world of one light curve. *)
Definition lomb_one (l : LiteCurve) (min_period : Qc) : exn + Qc := inr 1%Qc.

Definition gp_failing (l : LiteCurve) (peak_per min_period : Qc)
    (seg seg_ : list Z) (kterm : string) (correct_ramp : bool) : exn + list Qc :=
  inl (SolverError (if String.eqb kterm "SHOTerm" then 3
                    else if correct_ramp then 1 else 2)).

(** A detrender that answers the trend 2 at every cadence. *)
Definition gp_two (l : LiteCurve) (peak_per min_period : Qc)
    (seg seg_ : list Z) (kterm : string) (correct_ramp : bool) : exn + list Qc :=
  inr (map (fun _ => Z2Qc 2) (time l)).

Definition world_flat : world := mkWorld [lc_flat] [].

(** A logarithm by the series of the inverse hyperbolic tangent, and
    the residuals and outlier flags of three candidate models, to run
    the model selection on concrete inputs. *)
Definition ln_approx (x : Qc) : Qc :=
  let y := ((x - 1) / (x + 1))%Qc in
  (Qc_two
   * qsum (map (fun k => y ^ (2 * k + 1) / Z2Qc (Z.of_nat (2 * k + 1)))%Qc
               (seq 0 12)))%Qc.

Definition fit_example (polyorder : Z) : list Qc * list bool :=
  (if polyorder =? -1 then map Q2Qc [0.3; -0.2; 0.1; 5]%Q
   else if polyorder =? 0 then map Q2Qc [0.2; -0.2; 0.2; 5]%Q
   else map Q2Qc [0.1; -0.1; 0.1; 5]%Q,
   [false; false; false; true]).

(** The same residuals, with every point of the sinusoid candidate
    flagged as an outlier. *)
Definition fit_no_inlier (polyorder : Z) : list Qc * list bool :=
  ((fit_example polyorder).1,
   if polyorder =? 0 then [true; true; true; true]
   else [false; false; false; true]).

(** ** The determinant of the normal equations

    Adding an abscissa [t] to a list adds [adjugate_form] at [t] to
    its normal determinant, and adding an abscissa [u] adds
    [pair_form] at [t] and [u] to its [adjugate_form] at [t];
    [pair_form] is the sum over the abscissae [s] of the list of the
    squares of [(u - t) (s - t) (s - u)]. *)
Definition adjugate_form (x : list Qc) (t : Qc) : Qc :=
  ((S2 x * S0 x - S1 x * S1 x) * (t * t * t * t)
   - Qc_two * (S3 x * S0 x - S1 x * S2 x) * (t * t * t)
   + (Qc_two * (S3 x * S1 x - S2 x * S2 x) + (S4 x * S0 x - S2 x * S2 x)) * (t * t)
   - Qc_two * (S4 x * S1 x - S3 x * S2 x) * t
   + (S4 x * S2 x - S3 x * S3 x))%Qc.

Definition pair_form (x : list Qc) (t u : Qc) : Qc :=
  qsum (map (fun s => ((u - t) * (s - t) * (s - u)) * ((u - t) * (s - t) * (s - u)))%Qc x).

(** [pair_form] written with the power sums. *)
Definition pair_moments (x : list Qc) (t u : Qc) : Qc :=
  ((u - t) * (u - t)
   * (S4 x - Qc_two * (t + u) * S3 x
      + (t * t + Qc_two * Qc_two * t * u + u * u) * S2 x
      - Qc_two * t * u * (t + u) * S1 x
      + t * t * u * u * S0 x))%Qc.

(** A strictly increasing array, as the search grid
    [t0 + np.arange(...)] is. *)
Fixpoint increasing (x : list Qc) : bool :=
  match x with
  | [] => true
  | t :: rest => forallb (Qcltb t) rest && increasing rest
  end.

From Stdlib Require Import Sorted Qround.

(** * More of the pipeline *)

(** ** [alderaan.detrend.stitch]

    Every attribute of a light curve that is an array is joined to
    the same attribute of the next light curves; the first light
    curve is copied first, so the light curves given are not changed.
    An empty list has no first element: [litecurves[0]] raises an
    [IndexError], here [None]. *)
Definition hstack_litecurve (combo lc : LiteCurve) : LiteCurve :=
  mkLiteCurve (time combo ++ time lc) (flux combo ++ flux lc)
    (error combo ++ error lc) (cadno combo ++ cadno lc)
    (quarter combo ++ quarter lc) (channel combo ++ channel lc)
    (mask combo ++ mask lc).

Definition stitch (litecurves : list LiteCurve) : option LiteCurve :=
  match litecurves with
  | [] => None
  | first :: rest => Some (fold_left hstack_litecurve rest first)
  end.

(** The invariant of a light curve: its arrays have one length. *)
Definition aligned (lc : LiteCurve) : Prop :=
  length (flux lc) = length (time lc) /\
  length (error lc) = length (time lc) /\
  length (cadno lc) = length (time lc) /\
  length (quarter lc) = length (time lc) /\
  length (channel lc) = length (time lc) /\
  length (mask lc) = length (time lc).

(** A transit centre just before the first cadence of [ex_time]. *)
Definition tts_before : list Qc := [Q2Qc 4.3].

(** The cadence numbers are 64-bit integers and numpy subtracts them
    modulo [2^64]: [wrap64 z] is the 64-bit value of the integer [z]. *)
Definition wrap64 (z : Z) : Z := (z + 2 ^ 63) mod 2 ^ 64 - 2 ^ 63.

(** Twelve cadences with a gap of ten cadences before position 6,
    and a constant flux. *)
Definition lc_gap : LiteCurve :=
  mkLiteCurve
    (map Z2Qc [0;1;2;3;4;5;16;17;18;19;20;21])
    (replicate 12 1%Qc) (replicate 12 1%Qc)
    [0;1;2;3;4;5;16;17;18;19;20;21]
    (replicate 12 3) (replicate 12 7) (replicate 12 false).

(** ** What a pass over [lc_data] keeps

    The detrending and the masking write the flux, the error and the
    mask of a light curve; two light curves have the same cadences
    when the other arrays agree. *)
Definition same_cadences (l l' : LiteCurve) : Prop :=
  time l' = time l /\ cadno l' = cadno l /\
  quarter l' = quarter l /\ channel l' = channel l.

Definition frame (w w' : world) : Prop :=
  Forall2 same_cadences (lc_data w) (lc_data w') /\
  exists ws, warnings w' = warnings w ++ ws.

(** A detrender that fails with the exponential ramp and answers a
    trend of 2 without it. *)
Definition gp_no_ramp (l : LiteCurve) (peak_per min_period : Qc)
    (seg seg_ : list Z) (kterm : string) (correct_ramp : bool) : exn + list Qc :=
  if correct_ramp then inl (SolverError 1)
  else inr (map (fun _ => Qc_two) (time l)).

(** A planet with one transit at time 11, lasting half a time unit,
    and a buffer of a quarter. *)
Definition planet_at_11 : Planet * Qc := (mkPlanet [Z2Qc 11] (Q2Qc 0.5), Q2Qc 0.25).

(** Four transits: the slide fit of the third failed, and the
    uncertainty of the fourth is a hundred times the median. *)
Definition shape_four : list Qc := map Z2Qc [10; 20; 30; 40].
Definition slide_four : list (option Qc) :=
  [Some (Z2Qc 11); Some (Z2Qc 21); None; Some (Z2Qc 41)].
Definition error_four : list (option Qc) :=
  [Some 1%Qc; Some 1%Qc; None; Some (Z2Qc 100)].

(** A slide fit resolved for the first and the last of three
    transits, and the refit time of the second. *)
Definition slide_tts_gap : list (option Qc) := [Some (Z2Qc 11); Some (Z2Qc 20); Some (Z2Qc 31)].
Definition slide_err_gap : list (option Qc) := [Some 1%Qc; None; Some 1%Qc].
Definition map_tts_gap : list (option Qc) := [Some (Z2Qc 21)].

(** ** Epochs and linear ephemerides (script lines 336-343, 365-368)

    [a // b] on floats is the floor of the quotient; [np.arange(start,
    stop, step)] holds [ceil((stop - start)/step)] values [start +
    i*step]; [np.round] rounds to the nearest integer, and a half to
    the even one.  The step and the divisor are not zero. *)
Definition floordiv (a b : Qc) : Qc := Z2Qc (Qfloor (a / b)%Qc).

Definition arange (start stop step : Qc) : list Qc :=
  map (fun i => (start + Z2Qc (Z.of_nat i) * step)%Qc)
      (seq 0 (Z.to_nat (Qceiling ((stop - start) / step)%Qc))).

Definition round_half_even (x : Qc) : Z :=
  let f := Qfloor x in
  let r := (x - Z2Qc f)%Qc in
  if Qcltb r (Q2Qc 0.5) then f
  else if Qcltb (Q2Qc 0.5) r then f + 1
  else if Z.even f then f else f + 1.

(** Lines 336-343: the epoch of a planet is moved by whole periods
    towards the start of the data. *)
Definition adjust_epoch (TIME_START epoch period : Qc) : Qc :=
  let epoch :=
    if Qcltb epoch TIME_START
    then (epoch + (1 + floordiv (TIME_START - epoch) period) * period)%Qc
    else epoch in
  if Qcltb (TIME_START + period) epoch
  then (epoch - floordiv (epoch - TIME_START) period * period)%Qc
  else epoch.

(** Lines 365-368: the transit times of the linear ephemeris and
    their indexes. *)
Definition planet_tts (epoch TIME_END period : Qc) : list Qc :=
  arange epoch TIME_END period.

Definition planet_index (epoch period : Qc) (tts : list Qc) : list Z :=
  map (fun t => round_half_even ((t - epoch) / period)%Qc) tts.

(** ** Overlapping transits (script lines 702-713)

    [num / den < thr] in IEEE arithmetic: a division by zero gives an
    infinity of the sign of [num], or NaN for [0/0]. *)
Definition div_lt (num den thr : Qc) : bool :=
  if Qceqb den 0 then Qcltb num 0 else Qcltb (num / den)%Qc thr.

(** One pass of the innermost loop:
    [overlap[i] += np.abs(planets[i].tts - ttj)/dur_max < 1.5]. *)
Definition add_overlap (dur_max : Qc) (own : list Qc) (overlap : list bool)
    (ttj : Qc) : list bool :=
  zip_with orb overlap
    (map (fun t => div_lt (Qcabs (t - ttj)) dur_max (Q2Qc 1.5)) own).

(** The flags of planet [i], from the transit times of all planets. *)
Definition overlap_flags (tts_all : list (list Qc)) (dur_max : Qc) (i : nat)
    : list bool :=
  let own := nth i tts_all [] in
  fold_left
    (fun overlap j =>
       if (i =? j)%nat then overlap
       else fold_left (add_overlap dur_max own) (nth j tts_all []) overlap)
    (seq 0 (length tts_all)) (replicate (length own) false).

(** ** Transit indexes (script lines 721-726)

    [a.min()] on integers; a [ValueError] on an empty array. *)
Definition min_Z (a : list Z) : option Z :=
  match a with
  | [] => None
  | x :: a' => Some (fold_left Z.min a' x)
  end.

Definition transit_inds (index : list Z) (quality : list bool) : option (list Z) :=
  m ← min_Z index;
  let inds := np.select (map (fun x => x - m) index) quality in
  m' ← min_Z inds;
  Some (map (fun x => x - m') inds).

(** Two planets: the second transit of the first lies one time unit
    from the first transit of the second. *)
Definition tts_two_planets : list (list Qc) :=
  [map Z2Qc [10; 20; 30]; map Z2Qc [21; 36]].

(** ** The notch filters of [filter_ringing] (detrend.py lines 319-331)

    [np.linspace(start, stop, num)]: [num] values from [start] to
    [stop], evenly spaced. *)
Definition linspace (start stop : Qc) (num : nat) : list Qc :=
  match num with
  | 0%nat => []
  | 1%nat => [start]
  | _ =>
      map (fun i =>
             (start + Z2Qc (Z.of_nat i)
                      * ((stop - start) / Z2Qc (Z.of_nat (num - 1))))%Qc)
          (seq 0 num)
  end.

(** How the loop over the ringing frequencies of one segment ends:
    with the filtered flux, with the error of a filter, or with the
    [NameError] of a name that was never bound. *)
Inductive ringing_error :=
| FilterError
| UnboundName.

Section Ringing.

(** [sig.filtfilt] with the notch of [sig.iirnotch] at the frequency
    [f0], for the bandwidth and the sampling of the segment; the two
    calls differ by their padding.  The filters answer a series or
    raise. *)
Variable filtfilt_fwd : Qc -> list Qc -> option (list Qc).
Variable filtfilt_back : Qc -> list Qc -> option (list Qc).

(** Line 329: the blend of the filtered series with the ramp. *)
Definition blend (f_fwd_back f_ramp : list Qc) : list Qc :=
  zip_with Qcplus (zip_with Qcmult f_fwd_back f_ramp)
                  (zip_with Qcmult f_fwd_back (reverse f_ramp)).

(** One pass of the loop of lines 325-329 on the three names
    [f_fwd_back], [f_back_fwd] and [f_filt]. *)
Definition notch_step (f_ramp : list Qc)
    (st : list Qc * list Qc * option (list Qc)) (f0 : Qc)
    : option (list Qc * list Qc * option (list Qc)) :=
  f_fwd_back ← filtfilt_fwd f0 st.1.1;
  f_back_fwd ← reverse <$> filtfilt_back f0 (reverse st.1.2);
  Some (f_fwd_back, f_back_fwd, Some (blend f_fwd_back f_ramp)).

Fixpoint notch_passes (f_ramp : list Qc) (fring : list Qc)
    (st : list Qc * list Qc * option (list Qc))
    : option (list Qc * list Qc * option (list Qc)) :=
  match fring with
  | [] => Some st
  | f0 :: rest => st' ← notch_step f_ramp st f0; notch_passes f_ramp rest st'
  end.

(** Lines 320-331 for one segment, from the interpolated flux. *)
Definition notch_loop (fring f_interp : list Qc) : ringing_error + list Qc :=
  let f_ramp := linspace 0 1 (length f_interp) in
  match notch_passes f_ramp fring (f_interp, f_interp, None) with
  | None => inl FilterError
  | Some (_, _, None) => inl UnboundName
  | Some (_, _, Some f_filt) => inr f_filt
  end.

(** The forward filters alone, one after the other. *)
Fixpoint forward_passes (fring : list Qc) (f : list Qc) : option (list Qc) :=
  match fring with
  | [] => Some f
  | f0 :: rest => f' ← filtfilt_fwd f0 f; forward_passes rest f'
  end.

End Ringing.

(** Two filters to run the loop on: one halves the series, the other
    doubles it. *)
Definition halve (f0 : Qc) (x : list Qc) : option (list Qc) :=
  Some (map (fun v => v / Qc_two)%Qc x).

Definition double (f0 : Qc) (x : list Qc) : option (list Qc) :=
  Some (map (fun v => v * Qc_two)%Qc x).

(** ** Periodic signals shared by planets (script lines 1338-1377)

    A frequency is a float that may be NaN; an entry of [omc_freqs]
    and [omc_faps] is [None] or the frequency of a planet with its
    false-alarm probability. *)
Inductive omc_entry :=
| NoSignal
| Signal (freq : option Qc) (fap : Qc).

(** [np.abs(fi - fj) < 1/span]: a NaN compares false, and [1/0] is
    an infinity, above every number. *)
Definition closer_than_inverse (fi fj : option Qc) (span : Qc) : bool :=
  match fi, fj with
  | Some a, Some b =>
      if Qceqb span 0 then true else Qcltb (Qcabs (a - b)) (1 / span)%Qc
  | _, _ => false
  end.

(** Lines 1352-1377, for planet [i] of a system of several planets. *)
Definition omc_entry_multi (indep_freqs : list (option Qc)) (indep_faps : list Qc)
    (indep_ephemeris : list (list Qc)) (i : nat) : option omc_entry :=
  let NPL := length indep_freqs in
  let fi := nth i indep_freqs None in
  let fap := nth i indep_faps 1%Qc in
  if Qcltb fap (Q2Qc 0.1) then Some (Signal fi fap)
  else
    tmax ← np.max (nth i indep_ephemeris []);
    tmin ← np.min (nth i indep_ephemeris []);
    let close :=
      existsb (fun j => closer_than_inverse fi (nth j indep_freqs None) (tmax - tmin))
              (seq (S i) (NPL - S i)) in
    Some (if close then Signal fi fap else NoSignal).

(** Lines 1338-1377; a [ValueError] when an ephemeris whose extent is
    needed is empty. *)
Definition omc_freqs (indep_freqs : list (option Qc)) (indep_faps : list Qc)
    (indep_ephemeris : list (list Qc)) : option (list omc_entry) :=
  let NPL := length indep_freqs in
  if (NPL =? 1)%nat then
    if isnan (nth 0 indep_freqs None) then Some [NoSignal]
    else Some [Signal (nth 0 indep_freqs None) (nth 0 indep_faps 1%Qc)]
  else
    mapM (omc_entry_multi indep_freqs indep_faps indep_ephemeris) (seq 0 NPL).

(** Two planets with the same marginal frequency. *)
Definition freqs_pair : list (option Qc) := [Some (Q2Qc 0.01); Some (Q2Qc 0.01)].
Definition faps_pair : list Qc := [Q2Qc 0.5; Q2Qc 0.5].
Definition ephemeris_pair : list (list Qc) :=
  [map Z2Qc [0; 10; 20]; map Z2Qc [0; 15; 30]].

(** ** Exposure settings of the shape model (script lines 733-803, 890-894)

    What the script knows of the data of one quarter. *)
Inductive dtype :=
| dtype_none
| dtype_short
| dtype_long
| dtype_short_no_transits
| dtype_long_no_transits.

(** Lines 774-776: the quarters with coverage. *)
Definition good_dtype (d : dtype) : bool :=
  match d with
  | dtype_short | dtype_long => true
  | _ => false
  end.

Definition quarters (all_dtype : list dtype) : list nat :=
  np.select (seq 0 18) (map good_dtype all_dtype).

(** Lines 796-803: oversampling factor and exposure time, by quarter. *)
Definition oversample (all_dtype : list dtype) : list Z :=
  map (fun d => match d with
                | dtype_short => 1
                | dtype_long => 15
                | _ => 0
                end) all_dtype.

Definition texp (scit lcit : Qc) (all_dtype : list dtype) : list Qc :=
  map (fun d => match d with
                | dtype_short => scit
                | dtype_long => lcit
                | _ => 0%Qc
                end) all_dtype.

(** Lines 890-894: the quarter, the oversampling factor and the
    exposure time passed to the light curve model, in the order of
    the loop [for j, q in enumerate(quarters)]. *)
Definition shape_settings (scit lcit : Qc) (all_dtype : list dtype)
    : list (nat * Z * Qc) :=
  imap (fun j q => (q, nth j (oversample all_dtype) 0, nth j (texp scit lcit all_dtype) 0%Qc))
       (quarters all_dtype).

(** Eighteen quarters of which only quarter 1 has data, in long
    cadence. *)
Definition dtype_quarter_1 : list dtype :=
  dtype_none :: dtype_long :: replicate 16 dtype_none.

(** ** The catalog checks (script lines 183-199)

    [if all(k == a[0] for k in a): a = a[0]] and its [ValueError]:
    on an empty array the generator has nothing to test and [a[0]]
    is an [IndexError]. *)
Definition check_consistent {A} (eqb : A -> A -> bool) (name : string)
    (a : list A) : exn + A :=
  match a with
  | [] => inl IndexError
  | first :: _ =>
      if forallb (fun k => eqb k first) a then inr first
      else inl (ValueError
                  (String.append "There are inconsistencies with "
                     (String.append name " in the csv input file")))
  end.

(** [==] on floats: a NaN equals nothing. *)
Definition float_eqb (x y : option Qc) : bool :=
  match x, y with
  | Some a, Some b => Qceqb a b
  | _, _ => false
  end.

(** ** The impact parameter of a new planet (script lines 359-362) *)
Definition initial_impact (fsqrt : Qc -> Qc) (impact depth : Qc) : Qc :=
  if Qcltb (1 - fsqrt depth) impact
  then ((1 - fsqrt depth) * (1 - fsqrt depth))%Qc
  else impact.

(** ** [alderaan.io.cleanup_lkfc]

    What the function reads of a lightkurve light curve: its quarter,
    its target and its cadence numbers. *)
Record LightCurve := mkLightCurve {
  lk_quarter : Z;
  lk_targetid : Z;
  lk_cadenceno : list Z
}.

(** [[lkc_list[j] for j in np.argsort(cadno)]]: the light curves in
    the order of their keys (equal keys keep their order here; numpy
    does not promise it). *)
Fixpoint insert_by_key {A} (x : Z * A) (l : list (Z * A)) : list (Z * A) :=
  match l with
  | [] => [x]
  | y :: l' => if x.1 <=? y.1 then x :: y :: l' else y :: insert_by_key x l'
  end.

Definition sort_by_key {A} (l : list (Z * A)) : list (Z * A) :=
  foldr insert_by_key [] l.

Section Cleanup.

(** [lk.LightCurveCollection(lkc_list).stitch().remove_nans()] is
    the work of lightkurve: it answers a light curve or raises. *)
Variable stitch_remove_nans : list LightCurve -> option LightCurve.

(** The light curves of quarter [q] and target [kic], in the order of
    their first cadence number; the minimum of no cadence number is a
    [ValueError]. *)
Definition quarter_group (lk_col : list LightCurve) (kic q : Z)
    : option (list LightCurve) :=
  let lkc_list :=
    List.filter (fun lkc => (lk_quarter lkc =? q) && (lk_targetid lkc =? kic)) lk_col in
  cadno ← mapM (fun lkc => min_Z (lk_cadenceno lkc)) lkc_list;
  Some (map snd (sort_by_key (zip cadno lkc_list))).

Definition cleanup_lkfc (lk_collection : list LightCurve) (kic : Z)
    : option (list LightCurve) :=
  let quarters := map lk_quarter lk_collection in
  mapM (fun q => lkc_list ← quarter_group lk_collection kic q;
                 stitch_remove_nans lkc_list)
       (np.unique quarters).

End Cleanup.

(** A stand-in for lightkurve: the cadence numbers of the pieces are
    joined; no piece is an error. *)
Definition stitch_cadences (l : list LightCurve) : option LightCurve :=
  match l with
  | [] => None
  | first :: _ =>
      Some (mkLightCurve (lk_quarter first) (lk_targetid first)
              (concat (map lk_cadenceno l)))
  end.

(** Two files of quarter 2 given after one of quarter 1, the later
    half of quarter 2 first. *)
Definition files_of_two_quarters : list LightCurve :=
  [mkLightCurve 2 7 [250; 251]; mkLightCurve 1 7 [100; 101]; mkLightCurve 2 7 [200; 201]].

(** * Properties *)

(** ** Boolean tests and the order of the rationals *)

Lemma Qcltb_lt x y : Qcltb x y = true <-> (x < y)%Qc.
Proof. unfold Qcltb, Qclt, Qlt. apply Z.ltb_lt. Qed.

Lemma Qcleb_le x y : Qcleb x y = true <-> (x <= y)%Qc.
Proof. unfold Qcleb, Qcle, Qle. apply Z.leb_le. Qed.

Lemma Qceqb_eq x y : Qceqb x y = true <-> x = y.
Proof.
  unfold Qceqb. rewrite Z.eqb_eq. split.
  - intros H. apply Qc_is_canon. exact H.
  - intros ->. reflexivity.
Qed.

Lemma Qcltb_nlt x y : Qcltb x y = false <-> (y <= x)%Qc.
Proof. unfold Qcltb, Qcle, Qle. rewrite Z.ltb_ge. reflexivity. Qed.

Lemma fold_min_spec (a : list Qc) (x : Qc) :
  let m := fold_left (fun m y => if Qcltb y m then y else m) a x in
  In m (x :: a) /\ (m <= x)%Qc /\ Forall (fun y => (m <= y)%Qc) a.
Proof.
  revert x. induction a as [|y a IH]; intros x; simpl.
  - split; [auto|]. split; [apply Qcle_refl | constructor].
  - destruct (Qcltb y x) eqn:E.
    + destruct (IH y) as (Hin & Hle & Hall). apply Qcltb_lt in E.
      split; [simpl in Hin; tauto|]. split.
      * eapply Qcle_trans; [exact Hle|]. apply Qclt_le_weak, E.
      * constructor; assumption.
    + destruct (IH x) as (Hin & Hle & Hall). apply Qcltb_nlt in E.
      split; [simpl in Hin; simpl; tauto|]. split; [assumption|].
      constructor; [|assumption]. eapply Qcle_trans; eassumption.
Qed.

Lemma np_min_spec (a : list Qc) (m : Qc) :
  np.min a = Some m -> In m a /\ Forall (fun y => (m <= y)%Qc) a.
Proof.
  destruct a as [|x a]; [discriminate|]. simpl. intros [= <-].
  destruct (fold_min_spec a x) as (Hin & Hle & Hall).
  split; [exact Hin|]. constructor; assumption.
Qed.

Lemma fold_max_spec (a : list Qc) (x : Qc) :
  let m := fold_left (fun m y => if Qcltb m y then y else m) a x in
  In m (x :: a) /\ (x <= m)%Qc /\ Forall (fun y => (y <= m)%Qc) a.
Proof.
  revert x. induction a as [|y a IH]; intros x; simpl.
  - split; [auto|]. split; [apply Qcle_refl | constructor].
  - destruct (Qcltb x y) eqn:E.
    + destruct (IH y) as (Hin & Hle & Hall). apply Qcltb_lt in E.
      split; [simpl in Hin; tauto|]. split.
      * eapply Qcle_trans; [|exact Hle]. apply Qclt_le_weak, E.
      * constructor; assumption.
    + destruct (IH x) as (Hin & Hle & Hall). apply Qcltb_nlt in E.
      split; [simpl in Hin; simpl; tauto|]. split; [assumption|].
      constructor; [|assumption]. eapply Qcle_trans; eassumption.
Qed.

Lemma np_max_spec (a : list Qc) (m : Qc) :
  np.max a = Some m -> In m a /\ Forall (fun y => (y <= m)%Qc) a.
Proof.
  destruct a as [|x a]; [discriminate|]. simpl. intros [= <-].
  destruct (fold_max_spec a x) as (Hin & Hle & Hall).
  split; [exact Hin|]. constructor; assumption.
Qed.

Lemma add_neartransit_length time ms acc t0 :
  length acc = length time -> length (add_neartransit time ms acc t0) = length time.
Proof.
  intros H. unfold add_neartransit. rewrite length_zip_with, length_map. lia.
Qed.

Lemma add_neartransit_lookup time ms acc t0 i t :
  length acc = length time -> time !! i = Some t ->
  add_neartransit time ms acc t0 !! i = Some true <->
  acc !! i = Some true \/ (Qcabs (t - t0) < ms)%Qc.
Proof.
  intros Hlen Ht. unfold add_neartransit.
  change (map ?f time) with (f <$> time).
  rewrite lookup_zip_with, list_lookup_fmap, Ht. simpl.
  destruct (acc !! i) as [b|] eqn:E.
  - simpl. rewrite <- Qcltb_lt. destruct b, (Qcltb _ ms); simpl; split; intros; try tauto; try discriminate.
    + destruct H; discriminate.
  - apply lookup_ge_None in E. apply lookup_lt_Some in Ht. lia.
Qed.

Lemma fold_neartransit time ms l acc :
  length acc = length time ->
  length (fold_left (add_neartransit time ms) l acc) = length time /\
  forall i t, time !! i = Some t ->
    fold_left (add_neartransit time ms) l acc !! i = Some true <->
    acc !! i = Some true \/ exists t0, In t0 l /\ (Qcabs (t - t0) < ms)%Qc.
Proof.
  revert acc. induction l as [|t0 l IH]; intros acc Hlen; simpl.
  - split; [exact Hlen|]. intros i t _. split; [auto|]. intros [H|(t0 & [] & _)]. exact H.
  - destruct (IH (add_neartransit time ms acc t0)) as [Hl Hc].
    { apply add_neartransit_length, Hlen. }
    split; [exact Hl|]. intros i t Ht. rewrite (Hc i t Ht).
    rewrite (add_neartransit_lookup _ _ _ _ _ _ Hlen Ht). split.
    + intros [[H|H]|(t1 & Hin & H)]; eauto.
    + intros [H|(t1 & [->|Hin] & H)]; eauto.
Qed.

(** C8 (amended): for every non-empty time array, every set of
    transit times and every mask size, [make_transitmask] answers a
    boolean array of the length of [time]; it is true at position [i]
    exactly when a transit time between the least and the greatest
    observed time is closer than [masksize] to [time[i]].  For
    [tts = [5.0]], [masksize = 0.5] and [time = [4.4, 4.6, 5.4, 5.6]]
    the mask is [[False, True, True, False]]. *)
Theorem make_transitmask_spec (time tts : list Qc) (masksize : Qc) :
  time <> [] ->
  exists tmin tmax transitmask,
    (In tmin time /\ Forall (fun t => (tmin <= t)%Qc) time) /\
    (In tmax time /\ Forall (fun t => (t <= tmax)%Qc) time) /\
    make_transitmask time tts masksize = Some transitmask /\
    length transitmask = length time /\
    (forall i t, time !! i = Some t ->
       transitmask !! i = Some true <->
       exists t0, In t0 tts /\ (tmin <= t0)%Qc /\ (t0 <= tmax)%Qc /\
                  (Qcabs (t - t0) < masksize)%Qc) /\
    make_transitmask ex_time [Q2Qc 5] (Q2Qc 0.5) = Some [false; true; true; false].
Proof.
  intros Hne. unfold make_transitmask.
  destruct (np.min time) as [tmin|] eqn:Emin; [|destruct time; [congruence|discriminate]].
  destruct (np.max time) as [tmax|] eqn:Emax; [|destruct time; [congruence|discriminate]].
  exists tmin, tmax. eexists. simpl.
  split; [apply np_min_spec, Emin|]. split; [apply np_max_spec, Emax|].
  split; [reflexivity|].
  destruct (fold_neartransit time masksize
              (List.filter (fun t => Qcleb tmin t && Qcleb t tmax) tts)
              (replicate (length time) false)) as [Hl Hc].
  { apply length_replicate. }
  split; [exact Hl|]. split; [|reflexivity].
  intros i t Ht. rewrite (Hc i t Ht). split.
  - intros [H|(t0 & Hin & H)].
    + apply lookup_replicate in H. destruct H; discriminate.
    + apply filter_In in Hin. destruct Hin as [Hin Hb].
      apply andb_true_iff in Hb. destruct Hb as [H1 H2].
      apply Qcleb_le in H1, H2. eauto 6.
  - intros (t0 & Hin & H1 & H2 & H). right. exists t0. split; [|exact H].
    apply filter_In. split; [exact Hin|]. apply andb_true_iff.
    split; apply Qcleb_le; assumption.
Qed.

(** The theorem at the example of the specification. *)
Lemma transitmask_of_example :
  exists transitmask,
    make_transitmask ex_time [Q2Qc 5] (Q2Qc 0.5) = Some transitmask /\
    length transitmask = length ex_time.
Proof.
  destruct (make_transitmask_spec ex_time [Q2Qc 5] (Q2Qc 0.5))
    as (tmin & tmax & m & _ & _ & H1 & H2 & _).
  - discriminate.
  - exists m. auto.
Defined.

(** On an empty time array [time.min()] raises: no mask is answered. *)
Lemma make_transitmask_empty_time :
  ~ exists transitmask,
      make_transitmask [] [Q2Qc 5] (Q2Qc 0.5) = Some transitmask /\
      length transitmask = length ([] : list Qc).
Proof. intros (m & H & _). discriminate H. Qed.

Lemma mask_1d_zero lc : mask_1d lc = 0.
Proof. reflexivity. Qed.

Lemma where_from_none i (cond : list bool) :
  Forall (fun b => b = false) cond -> np.where_from i cond = [].
Proof.
  intros H. revert i. induction H as [|b cond -> _ IH]; intros i; simpl; auto.
Qed.

Lemma jump_locs_nil lc : jump_locs lc = [].
Proof.
  unfold jump_locs, np.where_. apply where_from_none.
  rewrite mask_1d_zero. apply List.Forall_forall. intros b Hb.
  apply in_map_iff in Hb. destruct Hb as (c & <- & _). reflexivity.
Qed.

Lemma identify_gaps_breaks_only lc bt jt :
  identify_gaps lc bt jt =
  merge_close (np.sort_Z (np.unique (break_locs lc bt))) bt.
Proof. unfold identify_gaps. rewrite jump_locs_nil, app_nil_r. reflexivity. Qed.

Lemma length_diff_Z (a : list Z) : length (np.diff_Z a) = (length a - 1)%nat.
Proof.
  unfold np.diff_Z. rewrite length_zip_with, length_drop.
  destruct a as [|x a]; [reflexivity|]. rewrite removelast_firstn_len, length_take. simpl. lia.
Qed.

Lemma where_from_diffs bt i (d : list Z) :
  forallb (fun d => d <=? bt) d = true ->
  np.where_from i (map (fun b => bt <? b) d) = [].
Proof.
  intros H. apply where_from_none. apply List.Forall_forall. intros b Hb.
  apply in_map_iff in Hb. destruct Hb as (c & <- & Hc).
  rewrite forallb_forall in H. specialize (H c Hc). lia.
Qed.

Lemma unique_two (n : Z) : 0 < n -> np.unique [0; n] = [0; n].
Proof.
  intros H. unfold np.unique. simpl.
  destruct (Z.ltb_spec 0 n); [reflexivity|lia].
Qed.

Lemma unique_three (n : Z) : 0 < n -> np.unique [0; 0; n] = [0; n].
Proof.
  intros H. unfold np.unique. simpl.
  destruct (Z.ltb_spec 0 n); [|lia]. reflexivity.
Qed.

Lemma sort_Z_two (n : Z) : 0 < n -> np.sort_Z [0; n] = [0; n].
Proof.
  intros H. unfold np.sort_Z. simpl.
  destruct (Z.leb_spec 0 n); [reflexivity|lia].
Qed.

Lemma merge_close_two (n bt : Z) : bt <= n -> merge_close [0; n] bt = [0; n].
Proof.
  intros H. unfold merge_close, np.diff_Z. cbn [drop removelast zip_with map last].
  rewrite Z.sub_0_r. destruct (Z.ltb_spec n bt); [lia|]. reflexivity.
Qed.

(** C2 (amended): for every non-empty light curve of [N] cadences
    whose cadence numbers increase strictly, with no cadence
    difference above [break_tolerance], no flux jump above the jump
    threshold, and [break_tolerance <= N + 1], [identify_gaps] answers
    exactly [[0, N + 1]]; the decrement of the last boundary in
    [flatten_with_gp] turns it into [[0, N]]. *)
Theorem identify_gaps_without_gaps (lc : LiteCurve) (break_tolerance : Z)
    (jump_tolerance : Qc) :
  let N := Z.of_nat (length (cadno lc)) in
  cadno lc <> [] ->
  strictly_increasing (cadno lc) = true ->
  no_gap_exceeds lc break_tolerance = true ->
  no_flux_jump lc jump_tolerance = true ->
  break_tolerance <= N + 1 ->
  identify_gaps lc break_tolerance jump_tolerance = [0; N + 1] /\
  decr_last (identify_gaps lc break_tolerance jump_tolerance) = [0; N].
Proof.
  intros N Hne _ Hgap _ Hbt.
  assert (HN : 1 <= N).
  { unfold N. destruct (cadno lc); [congruence|]. cbn [length]. lia. }
  assert (E : identify_gaps lc break_tolerance jump_tolerance = [0; N + 1]).
  { rewrite identify_gaps_breaks_only. unfold break_locs, breaks, np.where_.
    cbn [map np.where_from length].
    rewrite (where_from_diffs _ _ _ Hgap), app_nil_r, length_diff_Z.
    replace (Z.of_nat (S (length (cadno lc) - 1)) + 1) with (N + 1)
      by (unfold N; lia).
    assert (Hpos : 0 < N + 1) by lia.
    destruct (break_tolerance <? 1); cbn [app].
    - rewrite (unique_three _ Hpos), (sort_Z_two _ Hpos).
      apply merge_close_two, Hbt.
    - rewrite (unique_two _ Hpos), (sort_Z_two _ Hpos).
      apply merge_close_two, Hbt. }
  split; [exact E|]. rewrite E. unfold decr_last, set_from_end.
  cbn [last length Nat.sub]. cbn [insert list_insert]. f_equal. f_equal. lia.
Qed.

(** The theorem on three consecutive cadences of constant flux. *)
Lemma flat_curve_boundaries :
  identify_gaps lc_flat 1 (Z2Qc 5) = [0; 4] /\
  decr_last (identify_gaps lc_flat 1 (Z2Qc 5)) = [0; 3].
Proof.
  apply (identify_gaps_without_gaps lc_flat 1 (Z2Qc 5)).
  - discriminate.
  - reflexivity.
  - reflexivity.
  - vm_compute. reflexivity.
  - vm_compute. discriminate.
Defined.

(** The last boundary is not [N]: on the three cadences of [lc_flat]
    the answer is [[0, 4]]. *)
Lemma identify_gaps_end_is_not_N :
  ~ (forall (lc : LiteCurve) (break_tolerance : Z) (jump_tolerance : Qc),
       strictly_increasing (cadno lc) = true ->
       no_gap_exceeds lc break_tolerance = true ->
       no_flux_jump lc jump_tolerance = true ->
       identify_gaps lc break_tolerance jump_tolerance
       = [0; Z.of_nat (length (cadno lc))]).
Proof.
  intros H.
  assert (H1 : strictly_increasing (cadno lc_flat) = true) by reflexivity.
  assert (H2 : no_gap_exceeds lc_flat 1 = true) by reflexivity.
  assert (H3 : no_flux_jump lc_flat (Z2Qc 5) = true) by (vm_compute; reflexivity).
  assert (E : identify_gaps lc_flat 1 (Z2Qc 5) = [0; 4]) by (vm_compute; reflexivity).
  specialize (H lc_flat 1 (Z2Qc 5) H1 H2 H3).
  rewrite E in H. inversion H.
Qed.

(** Why the amended property asks for [break_tolerance <= N + 1] and
    for a light curve that is not empty. *)
Example identify_gaps_short_curve : identify_gaps lc_flat 13 (Z2Qc 5) = [4].
Proof. vm_compute. reflexivity. Qed.

Example identify_gaps_empty_curve :
  identify_gaps (mkLiteCurve [] [] [] [] [] [] []) 1 (Z2Qc 5) = [0; 2].
Proof. vm_compute. reflexivity. Qed.

(** C1 (the code at the failing input): the flux of [lc_step] jumps
    at position 6 by more than 5 sigma (and by less than 200 sigma),
    yet [identify_gaps] answers [[0, 13]] for both thresholds: the
    mask of line 78 is always 0, so no flux jump is ever a boundary,
    and [jump_tolerance] is never read. *)
Theorem identify_gaps_ignores_flux_jumps :
  spec_flux_jump lc_step (Z2Qc 5) 6 = true /\
  spec_flux_jump lc_step (Z2Qc 200) 6 = false /\
  identify_gaps lc_step 3 (Z2Qc 5) = [0; 13] /\
  identify_gaps lc_step 3 (Z2Qc 200) = [0; 13] /\
  (forall lc, jump_locs lc = []) /\
  (forall lc break_tolerance jt jt',
      identify_gaps lc break_tolerance jt = identify_gaps lc break_tolerance jt').
Proof.
  split; [vm_compute; reflexivity|].
  split; [vm_compute; reflexivity|].
  split; [vm_compute; reflexivity|].
  split; [vm_compute; reflexivity|].
  split; [apply jump_locs_nil|].
  intros. reflexivity.
Qed.

(** ** Shifting a series by a constant *)


Lemma shift_length c l : length (shift_by c l) = length l.
Proof. apply length_map. Qed.

Lemma Qcleb_shift x y c : Qcleb (x + c) (y + c) = Qcleb x y.
Proof.
  apply eq_true_iff_eq. rewrite !Qcleb_le. split; intros H.
  - replace x with ((x + c) + - c)%Qc by ring.
    replace y with ((y + c) + - c)%Qc by ring.
    apply Qcplus_le_compat; [exact H | apply Qcle_refl].
  - apply Qcplus_le_compat; [exact H | apply Qcle_refl].
Qed.

Lemma insert_sorted_shift x c l :
  np.insert_sorted (x + c) (shift_by c l) = shift_by c (np.insert_sorted x l).
Proof.
  induction l as [|y l IH]; simpl; [reflexivity|].
  rewrite Qcleb_shift. destruct (Qcleb x y); simpl; [reflexivity|].
  f_equal. exact IH.
Qed.

Lemma sort_shift c l : np.sort (shift_by c l) = shift_by c (np.sort l).
Proof.
  induction l as [|y l IH]; simpl; [reflexivity|].
  unfold np.sort in *. simpl. rewrite IH. apply insert_sorted_shift.
Qed.

Lemma insert_sorted_length x l : length (np.insert_sorted x l) = S (length l).
Proof.
  induction l as [|y l IH]; simpl; [reflexivity|].
  destruct (Qcleb x y); simpl; [reflexivity|]. rewrite IH. reflexivity.
Qed.

Lemma sort_length l : length (np.sort l) = length l.
Proof.
  induction l as [|y l IH]; [reflexivity|].
  unfold np.sort in *. simpl. rewrite insert_sorted_length, IH. reflexivity.
Qed.

Lemma nth_shift c l k : (k < length l)%nat -> nth k (shift_by c l) 0%Qc = (nth k l 0 + c)%Qc.
Proof.
  intros H. unfold shift_by.
  rewrite (nth_indep _ 0%Qc ((fun t => t + c) 0)%Qc) by (rewrite length_map; exact H).
  apply (map_nth (fun t => (t + c)%Qc)).
Qed.

Lemma Qc_two_neq_0 : Qc_two <> 0%Qc.
Proof. intros H. discriminate H. Qed.

Lemma Qc_two_eq : Qc_two = (1 + 1)%Qc.
Proof. apply Qc_is_canon. reflexivity. Qed.

Lemma median_shift c l : l <> [] -> np.median (shift_by c l) = (np.median l + c)%Qc.
Proof.
  intros Hne. unfold np.median. rewrite sort_shift.
  rewrite shift_length.
  assert (Hlen : (0 < length (np.sort l))%nat).
  { rewrite sort_length. destruct l; [congruence|simpl; lia]. }
  set (n := length (np.sort l)) in *.
  assert (Hhalf : (n / 2 < n)%nat) by (apply Nat.div_lt; lia).
  destruct (Nat.even n).
  - rewrite !nth_shift by (fold n; lia). rewrite Qc_two_eq. field.
    intros H. discriminate H.
  - rewrite nth_shift by (fold n; lia). reflexivity.
Qed.

Lemma mirror_index_lt n j : (0 < n)%nat -> (mirror_index n j < n)%nat.
Proof.
  intros H. unfold mirror_index.
  destruct (Nat.leb_spec n 1); [lia|].
  assert (Hp : 0 < 2 * (Z.of_nat n - 1)) by lia.
  pose proof (Z.mod_pos_bound j _ Hp) as Hm.
  destruct (Z.ltb_spec (j mod (2 * (Z.of_nat n - 1))) (Z.of_nat n)); lia.
Qed.

Lemma window_shift c x size i :
  x <> [] -> window (shift_by c x) size i = shift_by c (window x size i).
Proof.
  intros Hne. unfold window. rewrite shift_length.
  unfold shift_by at 2. rewrite map_map.
  apply map_ext. intros k.
  apply nth_shift. apply mirror_index_lt. destruct x; [congruence|simpl; lia].
Qed.

Lemma window_length x size i : length (window x size i) = size.
Proof. unfold window. rewrite length_map, length_seq. reflexivity. Qed.

Lemma median_filter_shift c x :
  median_filter (shift_by c x) 5 = shift_by c (median_filter x 5).
Proof.
  destruct (decide (x = [])) as [->|Hne]; [reflexivity|].
  unfold median_filter. rewrite shift_length.
  unfold shift_by at 2. rewrite map_map.
  apply map_ext. intros i.
  rewrite (window_shift _ _ _ _ Hne), sort_shift.
  apply nth_shift. rewrite sort_length, window_length. simpl. lia.
Qed.

Lemma Z2Qc_succ (n : nat) : Z2Qc (Z.of_nat (S n)) = (Z2Qc (Z.of_nat n) + 1)%Qc.
Proof.
  apply Qc_is_canon. unfold Z2Qc, Qcplus, Q2Qc, this.
  rewrite !Qred_correct, Nat2Z.inj_succ. unfold Z.succ.
  rewrite inject_Z_plus. reflexivity.
Qed.

Lemma qsum_shift c l : qsum (shift_by c l) = (qsum l + Z2Qc (Z.of_nat (length l)) * c)%Qc.
Proof.
  induction l as [|y l IH].
  - unfold shift_by, qsum. cbn [map foldr length].
    replace (Z2Qc (Z.of_nat 0)) with 0%Qc by (apply Qc_is_canon; reflexivity).
    ring.
  - unfold shift_by, qsum in *. cbn [map foldr length]. rewrite IH, Z2Qc_succ. ring.
Qed.

Lemma boxcar_smooth_shift c x :
  boxcar_smooth (shift_by c x) 5 = shift_by c (boxcar_smooth x 5).
Proof.
  destruct (decide (x = [])) as [->|Hne]; [reflexivity|].
  unfold boxcar_smooth. rewrite shift_length.
  unfold shift_by at 2. rewrite map_map.
  apply map_ext. intros i.
  rewrite (window_shift _ _ _ _ Hne), qsum_shift, window_length.
  replace (Z2Qc (Z.of_nat 5)) with (1 + 1 + 1 + 1 + 1)%Qc
    by (apply Qc_is_canon; reflexivity).
  field. intros H. discriminate H.
Qed.

Lemma zip_minus_shift c y m :
  zip_with Qcminus (shift_by c y) (shift_by c m) = zip_with Qcminus y m.
Proof.
  revert m. induction y as [|a y IH]; intros [|b m]; simpl; try reflexivity.
  f_equal; [ring | apply IH].
Qed.

(** C9: the O-C outlier flags (deviation from the median-filtered,
    boxcar-smoothed series over the MAD sigma, above 5) are the same
    for [yomc] and for [yomc + c], whatever the constant [c]. *)
Theorem omc_outliers_shift_invariant (c : Qc) (yomc : list Qc) :
  omc_outliers (map (fun t => t + c)%Qc yomc) = omc_outliers yomc.
Proof.
  change (map (fun t => t + c)%Qc yomc) with (shift_by c yomc).
  unfold omc_outliers.
  rewrite median_filter_shift, boxcar_smooth_shift, zip_minus_shift.
  reflexivity.
Qed.

(** ** The least-squares parabola through points of a parabola *)

Section ExactParabola.
Variables a b c : Qc.

Lemma T0_parabola x :
  T0 x (map (fun t => a * (t * t) + b * t + c)%Qc x)
  = (a * S2 x + b * S1 x + c * S0 x)%Qc.
Proof.
  unfold T0, S0, S1, S2, qsum.
  induction x as [|t x IH]; cbn [map zip_with foldr]; [ring|].
  rewrite IH. ring.
Qed.

Lemma T1_parabola x :
  T1 x (map (fun t => a * (t * t) + b * t + c)%Qc x)
  = (a * S3 x + b * S2 x + c * S1 x)%Qc.
Proof.
  unfold T1, S1, S2, S3, qsum.
  induction x as [|t x IH]; cbn [map zip_with foldr]; [ring|].
  rewrite IH. ring.
Qed.

Lemma T2_parabola x :
  T2 x (map (fun t => a * (t * t) + b * t + c)%Qc x)
  = (a * S4 x + b * S3 x + c * S2 x)%Qc.
Proof.
  unfold T2, S2, S3, S4, qsum.
  induction x as [|t x IH]; cbn [map zip_with foldr]; [ring|].
  rewrite IH. ring.
Qed.

Lemma polyfit2_parabola x :
  normal_det x <> 0%Qc ->
  polyfit2 x (map (fun t => a * (t * t) + b * t + c)%Qc x) = (a, b, c).
Proof.
  intros HD. unfold polyfit2.
  rewrite T0_parabola, T1_parabola, T2_parabola.
  unfold normal_det in *.
  set (s0 := S0 x) in *. set (s1 := S1 x) in *. set (s2 := S2 x) in *.
  set (s3 := S3 x) in *. set (s4 := S4 x) in *.
  unfold det3 in *.
  f_equal; [f_equal|]; field; exact HD.
Qed.

End ExactParabola.

(** ** Three distinct abscissae determine the parabola *)

Ltac name_power_sums x :=
  unfold S0, S1, S2, S3, S4, qsum; cbn [map foldr];
  set (s0 := foldr Qcplus 0%Qc (map (fun _ => 1%Qc) x)) in *;
  set (s1 := foldr Qcplus 0%Qc x) in *;
  set (s2 := foldr Qcplus 0%Qc (map (fun t => (t * t)%Qc) x)) in *;
  set (s3 := foldr Qcplus 0%Qc (map (fun t => (t * t * t)%Qc) x)) in *;
  set (s4 := foldr Qcplus 0%Qc (map (fun t => (t * t * t * t)%Qc) x)) in *.

Lemma normal_det_cons (t : Qc) (x : list Qc) :
  normal_det (t :: x) = (normal_det x + adjugate_form x t)%Qc.
Proof.
  unfold normal_det, adjugate_form. name_power_sums x.
  unfold det3. rewrite Qc_two_eq. ring.
Qed.

Lemma adjugate_form_cons (t u : Qc) (x : list Qc) :
  adjugate_form (u :: x) t = (adjugate_form x t + pair_moments x t u)%Qc.
Proof.
  unfold adjugate_form, pair_moments. name_power_sums x.
  rewrite Qc_two_eq. ring.
Qed.

Lemma pair_moments_form (t u : Qc) (x : list Qc) :
  pair_moments x t u = pair_form x t u.
Proof.
  unfold pair_moments, pair_form.
  induction x as [|s x IH].
  - unfold S0, S1, S2, S3, S4, qsum. cbn [map foldr]. ring.
  - unfold qsum in *. cbn [map foldr]. rewrite <- IH. clear IH.
    name_power_sums x. rewrite Qc_two_eq. ring.
Qed.

Lemma Qc_square_nonneg (a : Qc) : (0 <= a * a)%Qc.
Proof.
  unfold Qcle. change (this (a * a)%Qc) with (Qred (a * a)).
  rewrite Qred_correct. change (this 0%Qc) with 0%Q.
  destruct a as [[n d] Hc]. unfold Qle, Qmult. simpl. nia.
Qed.

Lemma Qc_square_pos (a : Qc) : a <> 0%Qc -> (0 < a * a)%Qc.
Proof.
  intros Ha. unfold Qclt. change (this (a * a)%Qc) with (Qred (a * a)).
  rewrite Qred_correct. change (this 0%Qc) with 0%Q.
  assert (Hn : Qnum a <> 0).
  { intros Hn. apply Ha. apply Qc_is_canon. unfold Qeq. simpl. rewrite Hn. reflexivity. }
  destruct a as [[n d] Hc]. unfold Qlt, Qmult. simpl in *. nia.
Qed.

Lemma Qc_add_nonneg (a b : Qc) : (0 <= a)%Qc -> (0 <= b)%Qc -> (0 <= a + b)%Qc.
Proof.
  intros Ha Hb. replace 0%Qc with (0 + 0)%Qc by ring.
  apply Qcplus_le_compat; assumption.
Qed.

Lemma Qc_le_add_nonneg (a b : Qc) : (0 <= b)%Qc -> (a <= b + a)%Qc.
Proof.
  intros Hb. replace a with (0 + a)%Qc at 1 by ring.
  apply Qcplus_le_compat; [exact Hb|apply Qcle_refl].
Qed.

Lemma pair_form_nonneg (x : list Qc) (t u : Qc) : (0 <= pair_form x t u)%Qc.
Proof.
  unfold pair_form, qsum. induction x as [|s x IH]; cbn [map foldr].
  - apply Qcle_refl.
  - apply Qc_add_nonneg; [apply Qc_square_nonneg|exact IH].
Qed.

Lemma adjugate_form_nonneg (x : list Qc) (t : Qc) : (0 <= adjugate_form x t)%Qc.
Proof.
  induction x as [|u x IH].
  - replace (adjugate_form [] t) with 0%Qc; [apply Qcle_refl|].
    unfold adjugate_form, S0, S1, S2, S3, S4, qsum. cbn [map foldr]. ring.
  - rewrite adjugate_form_cons, pair_moments_form.
    apply Qc_add_nonneg; [exact IH|apply pair_form_nonneg].
Qed.

Lemma normal_det_three (t u s : Qc) (x : list Qc) :
  t <> u -> s <> t -> s <> u -> (0 < normal_det (t :: u :: s :: x))%Qc.
Proof.
  intros Htu Hst Hsu.
  assert (Hsq : (0 < ((u - t) * (s - t) * (s - u)) * ((u - t) * (s - t) * (s - u)))%Qc).
  { apply Qc_square_pos. intros H.
    apply Qcmult_integral in H. destruct H as [H|H].
    - apply Qcmult_integral in H. destruct H as [H|H].
      + apply Htu. symmetry. replace u with ((u - t) + t)%Qc by ring. rewrite H. ring.
      + apply Hst. replace s with ((s - t) + t)%Qc by ring. rewrite H. ring.
    - apply Hsu. replace s with ((s - u) + u)%Qc by ring. rewrite H. ring. }
  eapply Qclt_le_trans; [exact Hsq|].
  rewrite normal_det_cons.
  eapply Qcle_trans; [|apply Qc_le_add_nonneg].
  2:{ clear. induction (u :: s :: x) as [|v y IH].
      - replace (normal_det []) with 0%Qc; [apply Qcle_refl|].
        unfold normal_det, S0, S1, S2, S3, S4, qsum, det3. cbn [map foldr]. ring.
      - rewrite normal_det_cons.
        apply Qc_add_nonneg; [exact IH|apply adjugate_form_nonneg]. }
  rewrite adjugate_form_cons, pair_moments_form.
  eapply Qcle_trans; [|apply Qc_le_add_nonneg, adjugate_form_nonneg].
  unfold pair_form, qsum. cbn [map foldr].
  rewrite Qcplus_comm. apply Qc_le_add_nonneg.
  apply (pair_form_nonneg x t u).
Qed.

Lemma increasing_determines (x : list Qc) :
  increasing x = true -> (3 <= length x)%nat -> normal_det x <> 0%Qc.
Proof.
  intros Hinc Hlen.
  destruct x as [|t [|u [|s x]]]; try (simpl in Hlen; lia).
  cbn [increasing forallb] in Hinc.
  repeat match goal with
         | H : _ && _ = true |- _ =>
             let H1 := fresh "H" in
             apply andb_true_iff in H; destruct H as [H1 H]
         | H : Qcltb _ _ = true |- _ => apply Qcltb_lt in H
         end.
  intros E.
  assert (Hpos : (0 < normal_det (t :: u :: s :: x))%Qc).
  { apply normal_det_three.
    - apply Qclt_not_eq. assumption.
    - intros ->. eapply Qclt_not_eq; [|reflexivity]. eassumption.
    - intros ->. eapply Qclt_not_eq; [|reflexivity]. eassumption. }
  rewrite E in Hpos. eapply Qclt_not_eq; [exact Hpos|reflexivity].
Qed.

(** The retained grid points are increasing when the grid is. *)

Lemma select_forallb {A} (p : A -> bool) (a : list A) (cond : list bool) :
  forallb p a = true -> forallb p (np.select a cond) = true.
Proof.
  revert cond. induction a as [|x a IH]; intros [|b cond] H; cbn [np.select];
    try reflexivity.
  cbn [forallb] in H. apply andb_true_iff in H. destruct H as [Hx Ha].
  destruct b; cbn [app forallb].
  - rewrite Hx. apply IH, Ha.
  - apply IH, Ha.
Qed.

Lemma select_increasing (a : list Qc) (cond : list bool) :
  increasing a = true -> increasing (np.select a cond) = true.
Proof.
  revert cond. induction a as [|x a IH]; intros [|b cond] H; cbn [np.select];
    try reflexivity.
  cbn [increasing] in H. apply andb_true_iff in H. destruct H as [Hx Ha].
  destruct b; cbn [app increasing].
  - rewrite (select_forallb _ _ _ Hx). apply IH, Ha.
  - apply IH, Ha.
Qed.

Lemma retain_increasing tc_vector chisq_vector min_chisq delta_chisq :
  increasing tc_vector = true ->
  increasing (retain_near_minimum tc_vector chisq_vector min_chisq delta_chisq).1 = true.
Proof.
  intros H. unfold retain_near_minimum. cbn [fst].
  apply select_increasing, select_increasing, H.
Qed.

Lemma grab_points_increasing tc_vector chisq_vector delta_chisq tcfit x2fit :
  increasing tc_vector = true ->
  grab_points tc_vector chisq_vector delta_chisq = Some (tcfit, x2fit) ->
  increasing tcfit = true.
Proof.
  intros Hinc. revert tcfit x2fit.
  funelim (grab_points tc_vector chisq_vector delta_chisq); intros tcfit x2fit Hg.
  - discriminate.
  - destruct (3 <=? length _)%nat.
    + injection Hg as Hg. rewrite <- Hg. apply retain_increasing, Hinc.
    + eapply H; [exact Hinc|reflexivity|reflexivity|exact Hg].
  - injection Hg as Hg. rewrite <- Hg. apply retain_increasing, Hinc.
Qed.

(** ** The retaining loop always ends with a result *)

Lemma grab_points_total tc_vector chisq_vector delta_chisq :
  chisq_vector <> [] ->
  exists fit, grab_points tc_vector chisq_vector delta_chisq = Some fit.
Proof.
  intros Hne.
  funelim (grab_points tc_vector chisq_vector delta_chisq).
  - destruct chisq_vector; [congruence|discriminate].
  - destruct (3 <=? length _)%nat; [eauto|]. apply H. exact Hne.
  - eauto.
Qed.

Lemma isnan_None (v : option Qc) : isnan v = true <-> v = None.
Proof. destruct v; simpl; split; congruence. Qed.

Lemma Qcleb_nle x y : Qcleb x y = false <-> (y < x)%Qc.
Proof. unfold Qcleb, Qclt, Qlt. rewrite Z.leb_gt. reflexivity. Qed.

Section SlideProperties.
Variable fsqrt : Qc -> Qc.

Lemma fit_parabola_cases (tcfit x2fit : list Qc) :
  (3 <= length tcfit)%nat ->
  exists tmin tmax,
    np.min tcfit = Some tmin /\ np.max tcfit = Some tmax /\
    let a := (polyfit2 tcfit x2fit).1.1 in
    let b := (polyfit2 tcfit x2fit).1.2 in
    let t := ((- b / (Qc_two * a) + np.median tcfit) / Qc_two)%Qc in
    fit_parabola fsqrt tcfit x2fit =
    Some (if Qcleb a 0 || Qcltb t tmin || Qcltb tmax t
          then (None, None)
          else (Some t, Some (fsqrt (1 / a)%Qc))).
Proof.
  intros Hlen. unfold fit_parabola.
  destruct (Nat.ltb_spec (length tcfit) 3); [lia|].
  destruct tcfit as [|t0 tcfit]; [simpl in Hlen; lia|].
  destruct (np.min (t0 :: tcfit)) as [tmin|] eqn:Emin; [|discriminate].
  destruct (np.max (t0 :: tcfit)) as [tmax|] eqn:Emax; [|discriminate].
  exists tmin, tmax. split; [reflexivity|]. split; [reflexivity|].
  destruct (polyfit2 (t0 :: tcfit) x2fit) as [[a b] c]. cbn [fst snd].
  cbn zeta. destruct (Qcleb a 0); cbn [orb nan_lt nan_gt mbind option_bind];
    [reflexivity|].
  destruct (Qcltb _ tmin || Qcltb tmax _); reflexivity.
Qed.

End SlideProperties.

(** C7 (amended): the slide fit of a transit on a non-empty search
    grid sets the time and the uncertainty to NaN together, and
    exactly when the transit overlaps another planet's, or fewer than
    3 grid points are retained, or the leading coefficient of the
    fitted parabola is not positive, or the recovered time is below
    the least or above the greatest retained grid point; otherwise
    they are the recovered time and [sqrt(1/a)]. *)
Theorem slide_transit_nan_iff (fsqrt : Qc -> Qc) (overlap : bool)
    (tc_vector chisq_vector : list Qc) :
  chisq_vector <> [] ->
  exists tcfit x2fit tts_i err_i,
    grab_points tc_vector chisq_vector 1 = Some (tcfit, x2fit) /\
    slide_transit fsqrt overlap tc_vector chisq_vector = Some (tts_i, err_i) /\
    isnan err_i = isnan tts_i /\
    let a := (polyfit2 tcfit x2fit).1.1 in
    let b := (polyfit2 tcfit x2fit).1.2 in
    let t := ((- b / (Qc_two * a) + np.median tcfit) / Qc_two)%Qc in
    (isnan tts_i = true <->
       overlap = true \/ (length tcfit < 3)%nat \/ (a <= 0)%Qc \/
       (exists tmin, np.min tcfit = Some tmin /\ (t < tmin)%Qc) \/
       (exists tmax, np.max tcfit = Some tmax /\ (tmax < t)%Qc)) /\
    (isnan tts_i = false ->
       tts_i = Some t /\ err_i = Some (fsqrt (1 / a)%Qc)).
Proof.
  intros Hne.
  destruct (grab_points_total tc_vector chisq_vector 1 Hne) as [[tcfit x2fit] Hgrab].
  exists tcfit, x2fit. unfold slide_transit. rewrite Hgrab.
  cbn [mbind option_bind fst snd].
  destruct overlap; cbn [negb].
  { exists None, None. repeat split; auto; discriminate. }
  destruct (Nat.ltb_spec (length tcfit) 3) as [Hlt|Hge].
  { exists None, None. unfold fit_parabola.
    destruct (Nat.ltb_spec (length tcfit) 3); [|lia].
    repeat split; auto; discriminate. }
  destruct (fit_parabola_cases fsqrt tcfit x2fit Hge) as (tmin & tmax & Emin & Emax & Hfit).
  cbn zeta in Hfit. rewrite Hfit.
  set (a := (polyfit2 tcfit x2fit).1.1) in *.
  set (b := (polyfit2 tcfit x2fit).1.2) in *.
  set (t := ((- b / (Qc_two * a) + np.median tcfit) / Qc_two)%Qc) in *.
  destruct (Qcleb a 0) eqn:Ea; cbn [orb].
  { exists None, None. apply Qcleb_le in Ea.
    repeat split; auto; discriminate. }
  destruct (Qcltb t tmin) eqn:Elo; cbn [orb].
  { exists None, None. apply Qcltb_lt in Elo.
    repeat split; eauto 8; discriminate. }
  destruct (Qcltb tmax t) eqn:Ehi.
  { exists None, None. apply Qcltb_lt in Ehi.
    repeat split; eauto 8; discriminate. }
  exists (Some t), (Some (fsqrt (1 / a)%Qc)).
  apply Qcleb_nle in Ea. apply Qcltb_nlt in Elo, Ehi.
  split; [reflexivity|]. split; [reflexivity|]. split; [reflexivity|].
  split; [|auto]. cbn [isnan]. split; [discriminate|].
  intros [H|[H|[H|[(m & Hm & H)|(m & Hm & H)]]]].
  - discriminate.
  - lia.
  - exfalso. eapply Qclt_not_le; eassumption.
  - rewrite Emin in Hm. injection Hm as <-.
    exfalso. eapply Qclt_not_le; eassumption.
  - rewrite Emax in Hm. injection Hm as <-.
    exfalso. eapply Qclt_not_le; eassumption.
Qed.

(** The theorem on the grid of [tc_parabola]. *)
Lemma parabola_grid_fit :
  exists tcfit x2fit tts_i err_i,
    grab_points tc_parabola chisq_parabola 1 = Some (tcfit, x2fit) /\
    slide_transit sqrt_approx false tc_parabola chisq_parabola = Some (tts_i, err_i) /\
    isnan err_i = isnan tts_i.
Proof.
  destruct (slide_transit_nan_iff sqrt_approx false tc_parabola chisq_parabola)
    as (tcfit & x2fit & tts_i & err_i & H1 & H2 & H3 & _).
  - discriminate.
  - exists tcfit, x2fit, tts_i, err_i. auto.
Defined.

(** On [tc_edge] the three retained points are 2, 3 and 4, the
    parabola opens upward and the recovered time 4.5 lies inside the
    search window from 0 to 10, the transit does not overlap: none of
    the four conditions holds with the search window as the range, and
    the result is NaN. *)
Lemma slide_nan_inside_search_window :
  exists tcfit x2fit tmin tmax,
    grab_points tc_edge chisq_edge 1 = Some (tcfit, x2fit) /\
    np.min tc_edge = Some tmin /\ np.max tc_edge = Some tmax /\
    let a := (polyfit2 tcfit x2fit).1.1 in
    let b := (polyfit2 tcfit x2fit).1.2 in
    let t := ((- b / (Qc_two * a) + np.median tcfit) / Qc_two)%Qc in
    slide_transit sqrt_approx false tc_edge chisq_edge = Some (None, None) /\
    ~ (false = true \/ (length tcfit < 3)%nat \/ (a <= 0)%Qc \/
       (t < tmin)%Qc \/ (tmax < t)%Qc).
Proof.
  do 4 eexists.
  split; [vm_compute; reflexivity|].
  split; [reflexivity|]. split; [reflexivity|].
  cbn zeta. split; [vm_compute; reflexivity|].
  intros [H|[H|[H|[H|H]]]].
  - discriminate.
  - vm_compute in H. lia.
  - apply Qcleb_le in H. vm_compute in H. discriminate.
  - apply Qcltb_lt in H. vm_compute in H. discriminate.
  - apply Qcltb_lt in H. vm_compute in H. discriminate.
Qed.

(** C4 (amended): when the smoothed chi-squared values at the
    retained grid points (three or more, on an increasing search
    grid) lie on the parabola [a (t - v)^2 + c0] with [a > 0], the
    recovered time is the mean of the vertex [v] and of the median of
    the retained grid points, provided that this mean lies between the
    least and the greatest retained point; it is the vertex when the
    median is the vertex.  The uncertainty is [sqrt(1/a)]. *)
Theorem slide_time_on_exact_parabola (fsqrt : Qc -> Qc) (a v c0 : Qc)
    (tc_vector chisq_vector tcfit x2fit : list Qc) (tmin tmax : Qc) :
  increasing tc_vector = true ->
  grab_points tc_vector chisq_vector 1 = Some (tcfit, x2fit) ->
  x2fit = map (fun t => a * ((t - v) * (t - v)) + c0)%Qc tcfit ->
  (0 < a)%Qc ->
  (3 <= length tcfit)%nat ->
  np.min tcfit = Some tmin ->
  np.max tcfit = Some tmax ->
  (tmin <= (v + np.median tcfit) / Qc_two)%Qc ->
  ((v + np.median tcfit) / Qc_two <= tmax)%Qc ->
  slide_transit fsqrt false tc_vector chisq_vector
  = Some (Some ((v + np.median tcfit) / Qc_two)%Qc, Some (fsqrt (1 / a)%Qc)) /\
  (np.median tcfit = v -> ((v + np.median tcfit) / Qc_two)%Qc = v).
Proof.
  intros Hinc Hgrab Hx2 Ha Hlen Emin Emax Hlo Hhi.
  assert (Hdet : normal_det tcfit <> 0%Qc).
  { apply increasing_determines; [|exact Hlen].
    eapply grab_points_increasing; eassumption. }
  split.
  - unfold slide_transit. rewrite Hgrab. cbn [negb mbind option_bind fst snd].
    destruct (fit_parabola_cases fsqrt tcfit x2fit Hlen)
      as (tmin' & tmax' & Emin' & Emax' & Hfit).
    rewrite Emin in Emin'. rewrite Emax in Emax'.
    injection Emin' as <-. injection Emax' as <-.
    cbn zeta in Hfit. rewrite Hfit. clear Hfit.
    assert (Hpoly : polyfit2 tcfit x2fit = (a, (- (Qc_two * a * v))%Qc, (a * (v * v) + c0)%Qc)).
    { rewrite Hx2. rewrite <- (polyfit2_parabola a (- (Qc_two * a * v))%Qc (a * (v * v) + c0)%Qc tcfit Hdet).
      f_equal. apply map_ext. intros t. rewrite Qc_two_eq. ring. }
    rewrite Hpoly. cbn [fst snd].
    assert (Ha0 : a <> 0%Qc).
    { intros ->. eapply Qclt_not_eq; [exact Ha|reflexivity]. }
    assert (Hv : (- - (Qc_two * a * v) / (Qc_two * a))%Qc = v).
    { rewrite Qc_two_eq. field. split; [exact Ha0|]. intros H. discriminate H. }
    rewrite Hv.
    assert (E1 : Qcleb a 0 = false) by (apply Qcleb_nle; exact Ha).
    assert (E2 : Qcltb ((v + np.median tcfit) / Qc_two) tmin = false)
      by (apply Qcltb_nlt; exact Hlo).
    assert (E3 : Qcltb tmax ((v + np.median tcfit) / Qc_two) = false)
      by (apply Qcltb_nlt; exact Hhi).
    rewrite E1, E2, E3. reflexivity.
  - intros ->. rewrite Qc_two_eq. field. intros H. discriminate H.
Qed.

(** The theorem on the grid of [tc_parabola]. *)
Lemma parabola_grid_time :
  slide_transit sqrt_approx false tc_parabola chisq_parabola
  = Some (Some ((Q2Qc 3.3 + np.median tcfit_parabola) / Qc_two)%Qc,
          Some (sqrt_approx (1 / 1)%Qc)).
Proof.
  refine (proj1 (slide_time_on_exact_parabola sqrt_approx 1%Qc (Q2Qc 3.3) 0%Qc
            tc_parabola chisq_parabola tcfit_parabola
            (map (fun t => 1 * ((t - Q2Qc 3.3) * (t - Q2Qc 3.3)) + 0)%Qc tcfit_parabola)
            (Z2Qc 2) (Z2Qc 4) _ _ _ _ _ _ _ _ _)).
  - reflexivity.
  - vm_compute. reflexivity.
  - reflexivity.
  - reflexivity.
  - simpl. lia.
  - vm_compute. reflexivity.
  - vm_compute. reflexivity.
  - apply Qcleb_le. vm_compute. reflexivity.
  - apply Qcleb_le. vm_compute. reflexivity.
Defined.

(** The chi-squared curve [(t - 3.3)^2] is an exact parabola of
    vertex 3.3; the recovered time is 0.15 away from it. *)
Lemma slide_time_differs_from_vertex :
  exists tcfit x2fit t e,
    grab_points tc_parabola chisq_parabola 1 = Some (tcfit, x2fit) /\
    x2fit = map (fun t => 1 * ((t - Q2Qc 3.3) * (t - Q2Qc 3.3)) + 0)%Qc tcfit /\
    slide_transit sqrt_approx false tc_parabola chisq_parabola = Some (Some t, Some e) /\
    Qcabs (t - Q2Qc 3.3) = Q2Qc 0.15.
Proof.
  exists tcfit_parabola.
  exists (map (fun t => 1 * ((t - Q2Qc 3.3) * (t - Q2Qc 3.3)) + 0)%Qc tcfit_parabola).
  do 2 eexists.
  split; [vm_compute; reflexivity|].
  split; [reflexivity|].
  split; [vm_compute; reflexivity|].
  apply Qc_is_canon. vm_compute. reflexivity.
Qed.

(** ** The transits to refit *)

Lemma all_resolved_iff (slide_error : list (option Qc)) :
  forallb negb (map isnan slide_error) = true <-> ~ In None slide_error.
Proof.
  induction slide_error as [|e l IH]; simpl.
  - tauto.
  - rewrite andb_true_iff, IH. destruct e; simpl; split.
    + intros [_ H] [H'|H']; [discriminate|tauto].
    + intros H. split; [reflexivity|tauto].
    + intros [H _]. discriminate.
    + intros H. exfalso. apply H. left. reflexivity.
Qed.

Lemma assign_where_keeps {A} (a : list A) (cond : list bool) (values : list A) (i : nat) :
  cond !! i = Some false -> assign_where a cond values !! i = a !! i.
Proof.
  revert cond values i. induction a as [|x a IH]; intros cond values i H.
  - destruct cond as [|[] ?]; reflexivity.
  - destruct cond as [|b cond]; [discriminate|].
    destruct i as [|i].
    + simpl in H. injection H as ->. reflexivity.
    + simpl in H. destruct b; simpl.
      * destruct values; simpl; apply IH; exact H.
      * apply IH. exact H.
Qed.

(** After the flagging, a transit whose slide time or uncertainty was
    NaN has a NaN uncertainty and the time of the shape model. *)
Lemma flag_failed_unresolved (shape_tts : list Qc)
    (slide_tts slide_err : list (option Qc)) (i : nat) (s : Qc) (t e : option Qc) :
  shape_tts !! i = Some s -> slide_tts !! i = Some t -> slide_err !! i = Some e ->
  t = None \/ e = None ->
  (flag_failed shape_tts slide_tts slide_err).1 !! i = Some (Some s) /\
  (flag_failed shape_tts slide_tts slide_err).2 !! i = Some None.
Proof.
  intros Hs Ht He Hnan. unfold flag_failed. cbn [fst snd].
  assert (Hbad : zip_with orb
            (zip_with orb (map isnan slide_tts) (map isnan slide_err))
            (map (fun e0 => if nanmedian slide_err is Some m
                            then nan_gt e0 (Z2Qc 8 * m)%Qc else false)
                 slide_err) !! i = Some true).
  { change (map ?f ?l) with (f <$> l).
    rewrite !lookup_zip_with, !list_lookup_fmap, Ht, He. cbn.
    destruct Hnan as [-> | ->]; cbn; [reflexivity|].
    rewrite orb_true_r. reflexivity. }
  split.
  - rewrite lookup_zip_with, Hbad. cbn.
    rewrite lookup_zip_with, Ht. cbn. rewrite Hs. reflexivity.
  - rewrite lookup_zip_with, Hbad. cbn. rewrite He. reflexivity.
Qed.

Lemma select_In {A} (a : list A) (cond : list bool) (z : A) :
  In z (np.select a cond) <-> exists i, a !! i = Some z /\ cond !! i = Some true.
Proof.
  revert cond. induction a as [|x a IH]; intros cond.
  - simpl. split; [tauto|]. intros (i & H & _). destruct i; discriminate.
  - destruct cond as [|b cond].
    + simpl. split; [tauto|]. intros (i & _ & H). destruct i; discriminate.
    + cbn [np.select]. rewrite in_app_iff, IH. split.
      * intros [H|(i & H1 & H2)].
        -- destruct b; simpl in H; [|tauto]. destruct H as [->|[]].
           exists 0%nat. auto.
        -- exists (S i). auto.
      * intros ([|i] & H1 & H2); simpl in H1, H2.
        -- injection H1 as ->. injection H2 as ->. left. simpl. auto.
        -- right. eauto.
Qed.

Lemma count_insert_true (l : list bool) (b : nat) :
  l !! b = Some false ->
  length (List.filter id (<[b := true]> l)) = S (length (List.filter id l)).
Proof.
  revert b. induction l as [|x l IH]; intros b H; [destruct b; discriminate|].
  destruct b as [|b].
  - cbn in H. injection H as ->. reflexivity.
  - cbn in H. change (<[S b := true]> (x :: l)) with (x :: <[b := true]> l).
    cbn [List.filter]. destruct (id x); cbn [length]; rewrite (IH b H); reflexivity.
Qed.

Lemma count_all_resolved (slide_error : list (option Qc)) :
  ~ In None slide_error -> length (List.filter id (map isnan slide_error)) = 0%nat.
Proof.
  induction slide_error as [|e l IH]; intros H; [reflexivity|].
  destruct e as [q|]; [|exfalso; apply H; left; reflexivity].
  cbn. apply IH. intros Hin. apply H. right. exact Hin.
Qed.

Lemma resolved_lookup (slide_error : list (option Qc)) (i : nat) :
  ~ In None slide_error -> (i < length slide_error)%nat ->
  map isnan slide_error !! i = Some false.
Proof.
  intros H Hi. change (map ?f ?l) with (f <$> l). rewrite list_lookup_fmap.
  destruct (slide_error !! i) as [[q|]|] eqn:E.
  - reflexivity.
  - exfalso. apply H. apply list_elem_of_In. eapply list_elem_of_lookup_2, E.
  - apply lookup_ge_None in E. lia.
Qed.

(** C3 (amended): when the slide fit left at least one transit of
    the planet unresolved (a NaN uncertainty after the flagging), the
    transits that get a free time offset in the independent model are
    exactly the unresolved ones.  When every slide fit of the planet
    succeeded, two positions are drawn at random, with replacement,
    and the transits at these positions get a free offset instead:
    two transits, or one when the draws coincide; a planet with no
    transit has nothing to draw from, a [ValueError].  In every case
    the refit time replaces the slide time of no resolved transit. *)
Theorem refit_only_unresolved (transit_inds : list Z)
    (slide_tts slide_error map_tts : list (option Qc)) (entropy : nat * nat) :
  (In None slide_error ->
     refit_mask slide_error entropy = Some (map isnan slide_error) /\
     (forall z, In z (free_offset_transits transit_inds (map isnan slide_error)) <->
                exists i, transit_inds !! i = Some z /\ slide_error !! i = Some None)) /\
  (~ In None slide_error -> slide_error <> [] ->
     let r := randint2 (length slide_error) entropy in
     exists refit,
       refit_mask slide_error entropy = Some refit /\
       (r.1 < length slide_error)%nat /\ (r.2 < length slide_error)%nat /\
       (forall i, refit !! i = Some true <-> i = r.1 \/ i = r.2) /\
       length (List.filter id refit) = (if (r.1 =? r.2)%nat then 1 else 2)%nat /\
       (forall z, In z (free_offset_transits transit_inds refit) <->
                  exists i, transit_inds !! i = Some z /\ (i = r.1 \/ i = r.2))) /\
  (slide_error = [] -> refit_mask slide_error entropy = None) /\
  (forall i e, slide_error !! i = Some (Some e) ->
     merge_indep slide_tts slide_error map_tts !! i = slide_tts !! i).
Proof.
  split; [|split; [|split]].
  - intros Hin. split.
    + unfold refit_mask.
      destruct (forallb negb (map isnan slide_error)) eqn:E; [|reflexivity].
      apply all_resolved_iff in E. contradiction.
    + intros z. unfold free_offset_transits. rewrite select_In.
      change (map isnan slide_error) with (isnan <$> slide_error).
      split; intros (i & H1 & H2); exists i; (split; [exact H1|]).
      * rewrite list_lookup_fmap in H2.
        destruct (slide_error !! i) as [[e|]|]; simpl in H2; congruence.
      * rewrite list_lookup_fmap, H2. reflexivity.
  - intros Hres Hne r.
    assert (Hn : length slide_error <> 0%nat).
    { destruct slide_error; [congruence|discriminate]. }
    assert (H1 : (r.1 < length slide_error)%nat).
    { unfold r, randint2. cbn [fst]. apply Nat.mod_upper_bound, Hn. }
    assert (H2 : (r.2 < length slide_error)%nat).
    { unfold r, randint2. cbn [snd]. apply Nat.mod_upper_bound, Hn. }
    set (refit := <[r.2 := true]> (<[r.1 := true]> (map isnan slide_error))).
    assert (Hmask : forall i, refit !! i = Some true <-> i = r.1 \/ i = r.2).
    { intros i. unfold refit. rewrite !list_lookup_insert_Some.
      rewrite !length_insert, length_map. split.
      - intros [(<- & _)|(_ & [(<- & _)|(Ha & Hb)])]; [right|left|]; try reflexivity.
        exfalso. assert (Hi : (i < length slide_error)%nat).
        { apply lookup_lt_Some in Hb. rewrite length_map in Hb. exact Hb. }
        rewrite (resolved_lookup _ _ Hres Hi) in Hb. discriminate.
      - intros [->| ->].
        + destruct (Nat.eq_dec r.2 r.1) as [E|E].
          * left. rewrite E. auto.
          * right. split; [exact E|]. left. auto.
        + left. auto. }
    exists refit. split; [|split; [exact H1|split; [exact H2|split; [exact Hmask|split]]]].
    + unfold refit_mask.
      destruct (forallb negb (map isnan slide_error)) eqn:E.
      * rewrite length_map.
        destruct (Nat.eqb_spec (length slide_error) 0) as [E0|_]; [congruence|].
        reflexivity.
      * exfalso. assert (E' : forallb negb (map isnan slide_error) = true)
          by (apply all_resolved_iff; exact Hres). congruence.
    + unfold refit. destruct (Nat.eqb_spec r.1 r.2) as [E|E].
      * rewrite <- E, list_insert_insert_eq.
        rewrite count_insert_true by (apply resolved_lookup; assumption).
        rewrite count_all_resolved by exact Hres. reflexivity.
      * rewrite count_insert_true.
        -- rewrite count_insert_true by (apply resolved_lookup; assumption).
           rewrite count_all_resolved by exact Hres. reflexivity.
        -- rewrite list_lookup_insert_ne by exact E.
           apply resolved_lookup; assumption.
    + intros z. unfold free_offset_transits. rewrite select_In.
      split; intros (i & Hi & Hm); exists i; (split; [exact Hi|]); apply Hmask, Hm.
  - intros ->. reflexivity.
  - intros i e Hi. unfold merge_indep.
    destruct (existsb id (map isnan slide_error)); [|reflexivity].
    apply assign_where_keeps.
    change (map isnan slide_error) with (isnan <$> slide_error).
    rewrite list_lookup_fmap, Hi. reflexivity.
Qed.

(** The theorem on three transits: with the second unresolved, it
    alone is refit; with all three resolved and two draws that
    coincide, one transit is refit. *)
Lemma refit_one_of_three :
  refit_mask [Some (Z2Qc 1); None; Some (Z2Qc 1)] (0, 2)%nat
  = Some [false; true; false] /\
  exists refit,
    refit_mask [Some (Z2Qc 1); Some (Z2Qc 1); Some (Z2Qc 1)] (3, 3)%nat = Some refit /\
    length (List.filter id refit) = 1%nat.
Proof.
  split.
  - apply (refit_only_unresolved [0; 1; 2]
             [Some (Z2Qc 5); Some (Z2Qc 7); Some (Z2Qc 9)]
             [Some (Z2Qc 1); None; Some (Z2Qc 1)] [Some (Z2Qc 8)] (0, 2)%nat).
    simpl. tauto.
  - destruct (refit_only_unresolved [0; 1; 2]
                [Some (Z2Qc 5); Some (Z2Qc 7); Some (Z2Qc 9)]
                [Some (Z2Qc 1); Some (Z2Qc 1); Some (Z2Qc 1)] [] (3, 3)%nat)
      as (_ & H & _).
    destruct H as (refit & E & _ & _ & _ & Hc & _).
    + simpl. intros [H|[H|[H|[]]]]; discriminate H.
    + discriminate.
    + exists refit. split; [exact E|exact Hc].
Defined.

(** When every slide fit succeeded, the transits drawn are refit. *)
Lemma refit_of_resolved_transits :
  ~ (forall (slide_error : list (option Qc)) (entropy : nat * nat) (refit : list bool),
       refit_mask slide_error entropy = Some refit ->
       forall i, refit !! i = Some true <-> slide_error !! i = Some None).
Proof.
  intros H.
  specialize (H [Some (Z2Qc 1); Some (Z2Qc 1); Some (Z2Qc 1)] (0, 2)%nat
                [true; false; true] eq_refl 0%nat).
  simpl in H. destruct H as [H _]. specialize (H eq_refl). discriminate H.
Qed.

(** ** [np.argmin] finds the first least value *)

Lemma score_ltb_irrefl s : score_ltb s s = false.
Proof.
  destruct s as [| |q]; simpl; try reflexivity.
  apply Qcltb_nlt. apply Qcle_refl.
Qed.

Lemma score_ltb_below s least x :
  score_ltb s least = true -> score_ltb x least = false -> score_ltb x s = false.
Proof.
  destruct s as [| |p], least as [| |q], x as [| |r]; simpl; try congruence.
  rewrite Qcltb_lt, !Qcltb_nlt. intros H1 H2.
  apply Qclt_le_weak. eapply Qclt_le_trans; eassumption.
Qed.

Lemma score_ltb_above s least x :
  score_ltb s least = true -> score_ltb x least = false -> score_ltb s x = true.
Proof.
  destruct s as [| |p], least as [| |q], x as [| |r]; simpl; try congruence.
  rewrite !Qcltb_lt, Qcltb_nlt. intros H1 H2.
  eapply Qclt_le_trans; eassumption.
Qed.

Lemma argmin_from_spec (done rest : list score) (best : nat) (least : score) :
  done !! best = Some least ->
  (forall j x, done !! j = Some x -> score_ltb x least = false) ->
  (forall j x, (j < best)%nat -> done !! j = Some x -> score_ltb least x = true) ->
  let k := argmin_from best least (length done) rest in
  exists m, (done ++ rest) !! k = Some m /\
    (forall j x, (done ++ rest) !! j = Some x -> score_ltb x m = false) /\
    (forall j x, (j < k)%nat -> (done ++ rest) !! j = Some x -> score_ltb m x = true).
Proof.
  revert done best least. induction rest as [|s rest IH]; intros done best least Hb H1 H2.
  - simpl. rewrite app_nil_r. exists least. auto.
  - cbn [argmin_from].
    replace (done ++ s :: rest) with ((done ++ [s]) ++ rest)
      by (rewrite <- app_assoc; reflexivity).
    replace (S (length done)) with (length (done ++ [s]))
      by (rewrite length_app; simpl; lia).
    destruct (score_ltb s least) eqn:E.
    + apply IH.
      * rewrite lookup_app_r by lia. rewrite Nat.sub_diag. reflexivity.
      * intros j x Hj. apply lookup_app_Some in Hj.
        destruct Hj as [Hj|[_ Hj]].
        -- eapply score_ltb_below; [exact E|]. eapply H1; exact Hj.
        -- destruct (j - length done)%nat; simpl in Hj; [|destruct n; discriminate].
           injection Hj as <-. apply score_ltb_irrefl.
      * intros j x Hlt Hj. rewrite lookup_app_l in Hj by exact Hlt.
        eapply score_ltb_above; [exact E|]. eapply H1; exact Hj.
    + apply IH.
      * rewrite lookup_app_l; [exact Hb|]. eapply lookup_lt_Some; exact Hb.
      * intros j x Hj. apply lookup_app_Some in Hj.
        destruct Hj as [Hj|[_ Hj]].
        -- eapply H1; exact Hj.
        -- destruct (j - length done)%nat; simpl in Hj; [|destruct n; discriminate].
           injection Hj as <-. exact E.
      * intros j x Hlt Hj.
        assert (Hbl : (best < length done)%nat) by (eapply lookup_lt_Some; exact Hb).
        rewrite lookup_app_l in Hj by lia. eapply H2; eassumption.
Qed.

Lemma argmin_spec (l : list score) :
  l <> [] ->
  exists m, l !! argmin l = Some m /\
    (forall j x, l !! j = Some x -> score_ltb x m = false) /\
    (forall j x, (j < argmin l)%nat -> l !! j = Some x -> score_ltb m x = true).
Proof.
  destruct l as [|s rest]; [congruence|]. intros _.
  apply (argmin_from_spec [s] rest 0 s).
  - reflexivity.
  - intros [|j] x Hj; simpl in Hj; [|destruct j; discriminate].
    injection Hj as <-. apply score_ltb_irrefl.
  - intros j x Hj. lia.
Qed.

Lemma Z2Qc_mult (x y : Z) : Z2Qc (x * y) = (Z2Qc x * Z2Qc y)%Qc.
Proof.
  apply Qc_is_canon. unfold Z2Qc, Qcmult, Q2Qc, this.
  rewrite !Qred_correct, inject_Z_mult. reflexivity.
Qed.

Lemma count_selected {A} (a : list A) (cond : list bool) :
  length a = length cond ->
  length (List.filter id cond) = length (np.select a cond).
Proof.
  revert cond. induction a as [|x a IH]; intros [|b cond] H; try discriminate; [reflexivity|].
  simpl in H. injection H as H. cbn [List.filter np.select id].
  destruct b; cbn [length app]; rewrite (IH cond H); reflexivity.
Qed.

Lemma inlier_count_pos (bad : list bool) :
  In false bad -> length (List.filter id (map negb bad)) <> 0%nat.
Proof.
  intros H. assert (Hin : In true (List.filter id (map negb bad))).
  { apply filter_In. split; [|reflexivity].
    apply in_map_iff. exists false. auto. }
  destruct (List.filter id (map negb bad)); [destruct Hin|simpl; lia].
Qed.

Lemma free_parameters_by_model (q : Z) :
  -1 <= q -> free_parameters q = spec_free_parameters (model_of_polyorder q).
Proof.
  intros H. unfold free_parameters, model_of_polyorder.
  destruct (Z.eqb_spec q (-1)) as [->|H1]; [reflexivity|].
  destruct (Z.eqb_spec q 0) as [->|H0]; [reflexivity|].
  destruct (Z.leb_spec q 0); [lia|]. reflexivity.
Qed.

Lemma polyorders_lookup (maxp : Z) (i : nat) :
  (i < Z.to_nat (maxp + 2))%nat -> polyorders maxp !! i = Some (Z.of_nat i - 1).
Proof.
  intros H. unfold polyorders.
  change (map ?f ?l) with (f <$> l).
  rewrite list_lookup_fmap, lookup_seq_lt by exact H. reflexivity.
Qed.

Lemma polyorders_length (maxp : Z) : length (polyorders maxp) = Z.to_nat (maxp + 2).
Proof. unfold polyorders. rewrite length_map, length_seq. reflexivity. Qed.

Section ModelSelectionProperties.
Variable ln : Qc -> Qc.
Variable fit : Z -> list Qc * list bool.
Variable n : nat.

Lemma aiclist_lookup (maxp q : Z) :
  -1 <= q <= maxp ->
  aiclist ln fit n maxp !! Z.to_nat (q + 1) = Some (aic ln n (fit q).1 (fit q).2 q).
Proof.
  intros H. unfold aiclist.
  change (map ?f ?l) with (f <$> l).
  rewrite list_lookup_fmap, polyorders_lookup by lia.
  simpl. replace (Z.of_nat (Z.to_nat (q + 1)) - 1) with q by lia. reflexivity.
Qed.

Lemma aic_by_spec (q : Z) :
  -1 <= q ->
  length (fit q).1 = length (fit q).2 ->
  In false (fit q).2 ->
  let inliers := np.select (fit q).1 (map negb (fit q).2) in
  qsum (map (fun r => r * r)%Qc inliers) <> 0%Qc ->
  aic ln n (fit q).1 (fit q).2 q
  = Fin (spec_aic ln n inliers (model_of_polyorder q)).
Proof.
  intros Hq Hlen Hin inliers Hssr. unfold aic, spec_aic.
  fold inliers.
  destruct (Nat.eqb_spec (length (List.filter id (map negb (fit q).2))) 0) as [E|_].
  { exfalso. exact (inlier_count_pos _ Hin E). }
  destruct (Qceqb _ 0) eqn:E0.
  { apply Qceqb_eq in E0. contradiction. }
  rewrite (count_selected (fit q).1 (map negb (fit q).2))
    by (rewrite length_map; exact Hlen).
  fold inliers. rewrite Z2Qc_mult, <- free_parameters_by_model by exact Hq.
  reflexivity.
Qed.

End ModelSelectionProperties.

Lemma no_inlier_count (bad : list bool) :
  Forall (fun b => b = true) bad -> length (List.filter id (map negb bad)) = 0%nat.
Proof.
  intros H. induction H as [|b bad -> _ IH]; [reflexivity|exact IH].
Qed.

(** C6 (amended): the number of free parameters is 3 for the
    Matern-3/2 and sinusoid models and [polyorder + 1] for a
    polynomial, and the selected [polyorder] is one of the candidates
    [-1 .. max_polyorder].  When every candidate has [n] residuals and
    flags and at least one inlier, the AIC of a candidate with a
    non-zero sum of squares is [n log(sum of squared inlier residuals
    / inlier count) + 2k], it is minus infinity for a zero sum of
    squares, the logarithm of zero, and the selected candidate is the
    first of least AIC: no candidate has a lower AIC and every earlier
    candidate has a higher one.  When a candidate has no inlier, its
    AIC is the NaN of [0/0] and the selected candidate is the first
    whose AIC is NaN, whatever the AIC of the others. *)
Theorem select_polyorder_minimises_aic (ln : Qc -> Qc)
    (fit : Z -> list Qc * list bool) (n : nat) (maxp : Z) :
  -1 <= maxp ->
  let score q := aic ln n (fit q).1 (fit q).2 q in
  let p := select_polyorder ln fit n maxp in
  -1 <= p <= maxp /\
  (forall q, -1 <= q <= maxp ->
     free_parameters q = spec_free_parameters (model_of_polyorder q)) /\
  ((forall q, -1 <= q <= maxp ->
      length (fit q).1 = n /\ length (fit q).2 = n /\ In false (fit q).2) ->
   (forall q, -1 <= q <= maxp ->
      let inliers := np.select (fit q).1 (map negb (fit q).2) in
      (qsum (map (fun r => r * r)%Qc inliers) <> 0%Qc ->
       score q = Fin (spec_aic ln n inliers (model_of_polyorder q))) /\
      (qsum (map (fun r => r * r)%Qc inliers) = 0%Qc -> score q = NegInf)) /\
   (forall q a b, -1 <= q <= maxp ->
      score p = Fin a -> score q = Fin b -> (a <= b)%Qc) /\
   (forall q a, -1 <= q <= maxp -> score p = Fin a -> score q <> NegInf) /\
   (forall q a b, -1 <= q < p ->
      score p = Fin a -> score q = Fin b -> (a < b)%Qc) /\
   (forall q, -1 <= q < p -> score p = NegInf -> score q <> NegInf)) /\
  (forall q0, -1 <= q0 <= maxp -> Forall (fun b => b = true) (fit q0).2 ->
     score q0 = NaN /\ score p = NaN /\
     forall q, -1 <= q < p -> score q <> NaN).
Proof.
  intros Hmax score p.
  assert (Hlen : length (aiclist ln fit n maxp) = Z.to_nat (maxp + 2)).
  { unfold aiclist. rewrite length_map. apply polyorders_length. }
  assert (Hne : aiclist ln fit n maxp <> []).
  { intros E. rewrite E in Hlen. simpl in Hlen. lia. }
  destruct (argmin_spec _ Hne) as (m & Hk & Hmin & Hfirst).
  set (k := argmin (aiclist ln fit n maxp)) in *.
  assert (Hkl : (k < Z.to_nat (maxp + 2))%nat).
  { rewrite <- Hlen. eapply lookup_lt_Some. exact Hk. }
  assert (Hp : p = Z.of_nat k - 1) by reflexivity.
  assert (Hrange : -1 <= p <= maxp) by lia.
  assert (Hm : m = score p).
  { pose proof (aiclist_lookup ln fit n maxp p Hrange) as H.
    replace (Z.to_nat (p + 1)) with k in H by lia.
    rewrite Hk in H. injection H as ->. reflexivity. }
  subst m.
  assert (Hleast : forall q, -1 <= q <= maxp -> score_ltb (score q) (score p) = false).
  { intros q Hq. eapply Hmin. apply (aiclist_lookup ln fit n maxp q Hq). }
  assert (Hearlier : forall q, -1 <= q < p -> score_ltb (score p) (score q) = true).
  { intros q Hq. apply (Hfirst (Z.to_nat (q + 1))); [lia|].
    apply (aiclist_lookup ln fit n maxp q). lia. }
  split; [exact Hrange|]. split; [|split].
  - intros q Hq. apply free_parameters_by_model. lia.
  - intros Hfit. split; [|split; [|split; [|split]]].
    + intros q Hq inliers. destruct (Hfit q Hq) as (Hl1 & Hl2 & Hin). split.
      * intros Hssr. apply aic_by_spec; [lia|congruence|exact Hin|exact Hssr].
      * intros Hssr. unfold score, aic. fold inliers. rewrite Hssr.
        destruct (Nat.eqb_spec (length (List.filter id (map negb (fit q).2))) 0) as [E|_].
        { exfalso. exact (inlier_count_pos _ Hin E). }
        change (Qceqb 0 0) with true. cbv iota.
        destruct (Nat.eqb_spec n 0) as [E|_]; [|reflexivity].
        exfalso. rewrite E in Hl2. destruct (fit q).2; [destruct Hin|discriminate].
    + intros q a b Hq Ea Eb. specialize (Hleast q Hq). rewrite Ea, Eb in Hleast.
      cbn in Hleast. apply Qcltb_nlt in Hleast. exact Hleast.
    + intros q a Hq Ea Eq. specialize (Hleast q Hq). rewrite Ea, Eq in Hleast.
      discriminate Hleast.
    + intros q a b Hq Ea Eb. specialize (Hearlier q Hq). rewrite Ea, Eb in Hearlier.
      cbn in Hearlier. apply Qcltb_lt in Hearlier. exact Hearlier.
    + intros q Hq Ep Eq. specialize (Hearlier q Hq). rewrite Ep, Eq in Hearlier.
      discriminate Hearlier.
  - intros q0 Hq0 Hbad.
    assert (E0 : score q0 = NaN).
    { unfold score, aic. rewrite (no_inlier_count _ Hbad). reflexivity. }
    assert (Ep : score p = NaN).
    { specialize (Hleast q0 Hq0). rewrite E0 in Hleast.
      destruct (score p); [reflexivity|discriminate|discriminate]. }
    split; [exact E0|]. split; [exact Ep|].
    intros q Hq Eq. specialize (Hearlier q Hq). rewrite Ep, Eq in Hearlier.
    discriminate Hearlier.
Qed.

(** The theorem on three candidates with three inliers each. *)
Lemma example_selection_in_range :
  -1 <= select_polyorder ln_approx fit_example 4 1 <= 1 /\
  (forall q a b, -1 <= q <= 1 ->
     aic ln_approx 4
       (fit_example (select_polyorder ln_approx fit_example 4 1)).1
       (fit_example (select_polyorder ln_approx fit_example 4 1)).2
       (select_polyorder ln_approx fit_example 4 1) = Fin a ->
     aic ln_approx 4 (fit_example q).1 (fit_example q).2 q = Fin b ->
     (a <= b)%Qc).
Proof.
  destruct (select_polyorder_minimises_aic ln_approx fit_example 4 1)
    as (Hrange & _ & Hregular & _); [lia|].
  split; [exact Hrange|].
  destruct Hregular as (_ & Hleast & _); [|exact Hleast].
  intros q Hq.
  assert (E : q = -1 \/ q = 0 \/ q = 1) by lia.
  destruct E as [-> | [-> | ->]];
    (split; [reflexivity|split; [reflexivity|simpl; tauto]]).
Defined.

(** With the sinusoid candidate left without an inlier, it is the
    one selected, although the two other candidates have an AIC and
    it has none: the selected candidate does not minimise the AIC. *)
Lemma selection_of_nan_candidate :
  ~ (forall (ln : Qc -> Qc) (fit : Z -> list Qc * list bool) (n : nat) (maxp : Z),
       -1 <= maxp ->
       (forall q, -1 <= q <= maxp ->
          length (fit q).1 = n /\ length (fit q).2 = n) ->
       let score q := aic ln n (fit q).1 (fit q).2 q in
       let p := select_polyorder ln fit n maxp in
       forall q b, -1 <= q <= maxp -> score q = Fin b ->
         exists a, score p = Fin a /\ (a <= b)%Qc).
Proof.
  intros H.
  assert (Hfit : forall q, -1 <= q <= 1 ->
            length (fit_no_inlier q).1 = 4%nat /\ length (fit_no_inlier q).2 = 4%nat).
  { intros q Hq. assert (E : q = -1 \/ q = 0 \/ q = 1) by lia.
    destruct E as [-> | [-> | ->]]; split; reflexivity. }
  specialize (H ln_approx fit_no_inlier 4%nat 1 ltac:(lia) Hfit).
  cbv zeta in H.
  assert (Ep : select_polyorder ln_approx fit_no_inlier 4 1 = 0)
    by (vm_compute; reflexivity).
  rewrite Ep in H.
  destruct (aic ln_approx 4 (fit_no_inlier 1).1 (fit_no_inlier 1).2 1)
    as [| |b] eqn:E1.
  - vm_compute in E1. discriminate E1.
  - vm_compute in E1. discriminate E1.
  - destruct (H 1 b ltac:(lia) E1) as (a & Ea & _).
    vm_compute in Ea. discriminate Ea.
Qed.

(** ** The detrender changes the flux and the error only *)

Ltac run_M H :=
  unfold mbind, M_bind, mret, M_ret, lift, read_lc, write_lc, raise in H;
  cbn beta iota delta [lc_data warnings fst snd] in H.

(** C10: when [flatten_with_gp] returns, the periodogram has answered
    a period for the light curve it was given and the Gaussian-process
    fit has answered one trend for that light curve, that period and
    the segments found; the flux and the error of the light curve are
    divided, element by element, by this trend; its time, cadence
    numbers, quarter, channel and mask, the other light curves and the
    warnings are unchanged; the light curve returned is the one given,
    and with [return_trend] the trend returned is this trend. *)
Theorem flatten_with_gp_frame
    (lomb_scargle_peak : LiteCurve -> Qc -> exn + Qc)
    (gp_trend : LiteCurve -> Qc -> Qc -> list Z -> list Z -> string -> bool
                -> exn + list Qc)
    (lc : nat) (break_tolerance : Z) (min_period : Qc) (kterm : string)
    (correct_ramp return_trend : bool) (w w' : world)
    (r : nat * option (list Qc)) :
  flatten_with_gp lomb_scargle_peak gp_trend lc break_tolerance min_period
    kterm correct_ramp return_trend w = (inr r, w') ->
  exists l peak_per full_trend,
    lc_data w !! lc = Some l /\
    lomb_scargle_peak l min_period = inr peak_per /\
    (let gaps := decr_last (identify_gaps l break_tolerance (Z2Qc 5)) in
     gp_trend l peak_per min_period
       (segment_labels (length (time l)) gaps)
       (segment_labels (length (np.select (time l) (map negb (mask l))))
          (unmasked_gaps l gaps))
       kterm correct_ramp = inr full_trend) /\
    length full_trend = length (flux l) /\
    length full_trend = length (error l) /\
    lc_data w' =
      <[lc := mkLiteCurve (time l)
                (zip_with Qcdiv (flux l) full_trend)
                (zip_with Qcdiv (error l) full_trend)
                (cadno l) (quarter l) (channel l) (mask l)]> (lc_data w) /\
    warnings w' = warnings w /\
    r = (lc, if return_trend then Some full_trend else None).
Proof.
  intros H. unfold flatten_with_gp in H. run_M H.
  destruct (lc_data w !! lc) as [l|] eqn:El; [|discriminate].
  destruct (lomb_scargle_peak l min_period) as [e|peak_per] eqn:Ep; [discriminate|].
  destruct (String.eqb kterm "RotationTerm" || String.eqb kterm "SHOTerm");
    [|discriminate].
  destruct (gp_trend l peak_per min_period _ _ kterm correct_ramp)
    as [e|full_trend] eqn:Eg; [discriminate|].
  unfold idiv in H.
  destruct (Nat.eqb_spec (length (flux l)) (length full_trend)) as [Ef|]; [|discriminate].
  assert (Hlt : (lc < length (lc_data w))%nat) by (eapply lookup_lt_Some; exact El).
  rewrite list_lookup_insert_eq in H by exact Hlt.
  cbn [error with_flux] in H.
  destruct (Nat.eqb_spec (length (error l)) (length full_trend)) as [Ee|]; [|discriminate].
  injection H as <- <-.
  exists l, peak_per, full_trend. cbn [lc_data warnings].
  rewrite list_insert_insert_eq.
  split; [reflexivity|]. split; [exact Ep|]. split; [exact Eg|].
  repeat split; auto.
Qed.

(** The theorem on [lc_flat] with a trend of 2: the flux 1 becomes
    1/2. *)
Lemma flat_curve_flattened :
  exists (l : LiteCurve) (peak_per : Qc) (full_trend : list Qc),
    lc_data world_flat !! 0%nat = Some l /\
    lomb_one l 1%Qc = inr peak_per /\
    gp_two l peak_per 1%Qc
      (segment_labels (length (time l)) (decr_last (identify_gaps l 1 (Z2Qc 5))))
      (segment_labels (length (np.select (time l) (map negb (mask l))))
         (unmasked_gaps l (decr_last (identify_gaps l 1 (Z2Qc 5)))))
      "SHOTerm" false = inr full_trend /\
    length full_trend = length (flux l) /\
    length full_trend = length (error l).
Proof.
  edestruct (flatten_with_gp_frame lomb_one gp_two 0%nat 1 1%Qc "SHOTerm"
               false true world_flat) as (l & peak_per & full_trend & H1 & H2 & H3 & H4 & H5 & _).
  { vm_compute. reflexivity. }
  exists l, peak_per, full_trend. auto.
Defined.

(** ** The fallback ladder *)

Lemma for_each_raises {A} (before after : list A) (x : A) (body : A -> M unit)
    (w w1 w2 : world) (e : exn) :
  for_each before body w = (inr tt, w1) ->
  body x w1 = (inl e, w2) ->
  for_each (before ++ x :: after) body w = (inl e, w2).
Proof.
  revert w. induction before as [|y before IH]; intros w Hb Hx.
  - simpl in Hb. injection Hb as ->.
    cbn [app for_each]. unfold mbind, M_bind. rewrite Hx. reflexivity.
  - cbn [app for_each] in *. unfold mbind, M_bind in *.
    destruct (body y w) as [[e'|[]] w']; [discriminate|].
    apply IH; assumption.
Qed.

Section Ladder.
Variable lomb_scargle_peak : LiteCurve -> Qc -> exn + Qc.
Variable gp_trend :
  LiteCurve -> Qc -> Qc -> list Z -> list Z -> string -> bool -> exn + list Qc.
Variables (lcd : nat) (break_tolerance : Z) (min_period : Qc).

Let attempt (kterm : string) (correct_ramp : bool) : M (nat * option (list Qc)) :=
  flatten_with_gp lomb_scargle_peak gp_trend lcd break_tolerance min_period
    kterm correct_ramp false.

Let warned (msg : string) (w : world) : world :=
  mkWorld (lc_data w) (warnings w ++ [msg]).

Lemma detrend_ladder_tree (w : world) :
  detrend_ladder lomb_scargle_peak gp_trend lcd break_tolerance min_period w =
  match attempt "RotationTerm" true w with
  | (inr lc, w1) => (inr lc, w1)
  | (inl _, w1) =>
      match attempt "RotationTerm" false (warned warning_no_ramp w1) with
      | (inr lc, w2) => (inr lc, w2)
      | (inl _, w2) => attempt "SHOTerm" false (warned warning_SHOTerm w2)
      end
  end.
Proof.
  unfold detrend_ladder, try_except, attempt, warned, mbind, M_bind, warn.
  destruct (flatten_with_gp _ _ lcd _ _ "RotationTerm" true false w) as [[e1|v1] w1];
    [|reflexivity].
  destruct (flatten_with_gp _ _ lcd _ _ "RotationTerm" false false _) as [[e2|v2] w2];
    reflexivity.
Qed.

End Ladder.

(** C5: when the detrending with the RotationTerm kernel and the ramp
    returns, its result is the result of the ladder; when it raises,
    a warning is issued and the detrending is tried with the
    RotationTerm kernel and no ramp; when that raises too, a second
    warning is issued and the result of the ladder is that of the
    detrending with the SHOTerm kernel and no ramp: if this third
    attempt raises, the ladder raises its error, and so does the pass
    over [lc_data], which stops at this light curve. *)
Theorem detrend_ladder_spec
    (lomb_scargle_peak : LiteCurve -> Qc -> exn + Qc)
    (gp_trend : LiteCurve -> Qc -> Qc -> list Z -> list Z -> string -> bool
                -> exn + list Qc)
    (lcd : nat) (break_tolerance : Z) (min_period : Qc) (w : world) :
  let attempt (kterm : string) (correct_ramp : bool) :=
    flatten_with_gp lomb_scargle_peak gp_trend lcd break_tolerance min_period
      kterm correct_ramp false in
  let ladder :=
    detrend_ladder lomb_scargle_peak gp_trend lcd break_tolerance min_period in
  let warned (msg : string) (w : world) := mkWorld (lc_data w) (warnings w ++ [msg]) in
  (forall lc w1, attempt "RotationTerm"%string true w = (inr lc, w1) ->
     ladder w = (inr lc, w1)) /\
  (forall e1 w1, attempt "RotationTerm"%string true w = (inl e1, w1) ->
     (forall lc w2,
        attempt "RotationTerm"%string false (warned warning_no_ramp w1) = (inr lc, w2) ->
        ladder w = (inr lc, w2)) /\
     (forall e2 w2,
        attempt "RotationTerm"%string false (warned warning_no_ramp w1) = (inl e2, w2) ->
        ladder w = attempt "SHOTerm"%string false (warned warning_SHOTerm w2) /\
        (forall e3 w3,
           attempt "SHOTerm"%string false (warned warning_SHOTerm w2) = (inl e3, w3) ->
           ladder w = (inl e3, w3) /\
           (forall planets w0 w_masked,
              (lcd < length (lc_data w0))%nat ->
              for_each (seq 0 lcd)
                (fun i =>
                   _ ← set_transit_mask planets i;
                   _ ← detrend_ladder lomb_scargle_peak gp_trend i
                         break_tolerance min_period;
                   mret tt) w0 = (inr tt, w_masked) ->
              set_transit_mask planets lcd w_masked = (inr tt, w) ->
              detrend_2nd_pass lomb_scargle_peak gp_trend planets
                break_tolerance min_period w0 = (inl e3, w3))))).
Proof.
  intros attempt ladder warned.
  pose proof (detrend_ladder_tree lomb_scargle_peak gp_trend lcd
                break_tolerance min_period w) as T.
  cbv beta zeta in T. subst attempt ladder warned. cbv beta.
  split.
  - intros lc w1 H1. rewrite T, H1. reflexivity.
  - intros e1 w1 H1. rewrite H1 in T. split.
    + intros lc w2 H2. rewrite H2 in T. exact T.
    + intros e2 w2 H2. rewrite H2 in T.
      split; [exact T|].
      intros e3 w3 H3. rewrite H3 in T.
      split; [exact T|].
      intros planets w0 w_masked Hlt Hbefore Hmask.
      unfold detrend_2nd_pass.
      replace (seq 0 (length (lc_data w0)))
        with (seq 0 lcd ++ lcd :: seq (S lcd) (length (lc_data w0) - S lcd)).
      * eapply for_each_raises; [exact Hbefore|].
        unfold mbind, M_bind. rewrite Hmask, T. reflexivity.
      * change (lcd :: seq (S lcd) (length (lc_data w0) - S lcd))
          with (seq (0 + lcd) (S (length (lc_data w0) - S lcd))).
        rewrite <- seq_app. f_equal. lia.
Qed.

(** The theorem on a detrender that fails in every configuration. *)
Lemma failing_detrender_propagates :
  detrend_ladder lomb_one gp_failing 0 1 1%Qc world_flat
  = (inl (SolverError 3), mkWorld [lc_flat] [warning_no_ramp; warning_SHOTerm]).
Proof.
  destruct (detrend_ladder_spec lomb_one gp_failing 0%nat 1 1%Qc world_flat)
    as [_ H].
  destruct (H (SolverError 1) world_flat ltac:(vm_compute; reflexivity)) as [_ H2].
  destruct (H2 (SolverError 2) (mkWorld [lc_flat] [warning_no_ramp])
              ltac:(vm_compute; reflexivity)) as [_ H3].
  destruct (H3 (SolverError 3) (mkWorld [lc_flat] [warning_no_ramp; warning_SHOTerm])
              ltac:(vm_compute; reflexivity)) as [H4 _].
  exact H4.
Defined.

(** * Properties of more of the pipeline *)

From Stdlib Require Import Lqa.

(** ** Stitching light curves *)

Lemma fold_hstack_fields (rest : list LiteCurve) (first : LiteCurve) :
  let combo := fold_left hstack_litecurve rest first in
  time combo = time first ++ concat (map time rest) /\
  flux combo = flux first ++ concat (map flux rest) /\
  error combo = error first ++ concat (map error rest) /\
  cadno combo = cadno first ++ concat (map cadno rest) /\
  quarter combo = quarter first ++ concat (map quarter rest) /\
  channel combo = channel first ++ concat (map channel rest) /\
  mask combo = mask first ++ concat (map mask rest).
Proof.
  revert first. induction rest as [|lc rest IH]; intros first; cbn [fold_left map concat].
  - rewrite !app_nil_r. repeat split.
  - destruct (IH (hstack_litecurve first lc)) as (H1 & H2 & H3 & H4 & H5 & H6 & H7).
    cbv zeta. rewrite H1, H2, H3, H4, H5, H6, H7. cbn [hstack_litecurve time flux error cadno quarter channel mask].
    rewrite <- !app_assoc. repeat split.
Qed.

Lemma fold_hstack_aligned (rest : list LiteCurve) (first : LiteCurve) :
  aligned first -> Forall aligned rest ->
  aligned (fold_left hstack_litecurve rest first).
Proof.
  revert first. induction rest as [|lc rest IH]; intros first Hf Hr; cbn [fold_left].
  - exact Hf.
  - apply List.Forall_cons_iff in Hr. destruct Hr as [Hlc Hr].
    apply IH; [|exact Hr].
    destruct Hf as (F1 & F2 & F3 & F4 & F5 & F6).
    destruct Hlc as (L1 & L2 & L3 & L4 & L5 & L6).
    unfold aligned, hstack_litecurve. cbn [time flux error cadno quarter channel mask].
    rewrite !length_app. repeat split; lia.
Qed.

(** X1: a non-empty list of light curves is stitched into one light
    curve whose seven arrays are the arrays of the pieces joined in
    order; when the arrays of every piece have one length, so have
    the arrays of the result.  An empty list is an [IndexError]. *)
Theorem stitch_joins (litecurves : list LiteCurve) :
  litecurves <> [] ->
  exists combo,
    stitch litecurves = Some combo /\
    time combo = concat (map time litecurves) /\
    flux combo = concat (map flux litecurves) /\
    error combo = concat (map error litecurves) /\
    cadno combo = concat (map cadno litecurves) /\
    quarter combo = concat (map quarter litecurves) /\
    channel combo = concat (map channel litecurves) /\
    mask combo = concat (map mask litecurves) /\
    (Forall aligned litecurves -> aligned combo) /\
    stitch [] = None.
Proof.
  intros Hne. destruct litecurves as [|first rest]; [congruence|].
  exists (fold_left hstack_litecurve rest first).
  destruct (fold_hstack_fields rest first) as (H1 & H2 & H3 & H4 & H5 & H6 & H7).
  cbn [map concat stitch].
  repeat (split; [assumption || reflexivity|]).
  split; [|reflexivity].
  intros Ha. apply List.Forall_cons_iff in Ha. destruct Ha as [Hf Hr].
  apply fold_hstack_aligned; assumption.
Qed.

(** The theorem on two copies of [lc_flat]. *)
Lemma stitch_two_flat :
  exists combo, stitch [lc_flat; lc_flat] = Some combo /\
                cadno combo = [10; 11; 12; 10; 11; 12].
Proof.
  destruct (stitch_joins [lc_flat; lc_flat]) as (combo & H & _ & _ & _ & Hc & _).
  - discriminate.
  - exists combo. split; [exact H|exact Hc].
Defined.

(** ** More on the transit mask *)

Lemma bool_list_eq (l1 l2 : list bool) :
  length l1 = length l2 ->
  (forall i, l1 !! i = Some true <-> l2 !! i = Some true) ->
  l1 = l2.
Proof.
  intros Hlen H. apply list_eq. intros i.
  destruct (l1 !! i) as [b1|] eqn:E1, (l2 !! i) as [b2|] eqn:E2.
  - specialize (H i). rewrite E1, E2 in H.
    destruct b1, b2; try reflexivity.
    + destruct H as [H _]. specialize (H eq_refl). discriminate.
    + destruct H as [_ H]. specialize (H eq_refl). discriminate.
  - apply lookup_lt_Some in E1. apply lookup_ge_None in E2. lia.
  - apply lookup_ge_None in E1. apply lookup_lt_Some in E2. lia.
  - reflexivity.
Qed.

Lemma transitmask_lookup (time tts : list Qc) (masksize : Qc) :
  time <> [] ->
  exists tmin tmax transitmask,
    np.min time = Some tmin /\ np.max time = Some tmax /\
    make_transitmask time tts masksize = Some transitmask /\
    length transitmask = length time /\
    (forall i, transitmask !! i = Some true <->
       exists t t0, time !! i = Some t /\ In t0 tts /\ (tmin <= t0)%Qc /\
                    (t0 <= tmax)%Qc /\ (Qcabs (t - t0) < masksize)%Qc).
Proof.
  intros Hne. unfold make_transitmask.
  destruct (np.min time) as [tmin|] eqn:Emin; [|destruct time; [congruence|discriminate]].
  destruct (np.max time) as [tmax|] eqn:Emax; [|destruct time; [congruence|discriminate]].
  exists tmin, tmax. eexists. cbn [mbind option_bind].
  split; [reflexivity|]. split; [reflexivity|]. split; [reflexivity|].
  destruct (fold_neartransit time masksize
              (List.filter (fun t => Qcleb tmin t && Qcleb t tmax) tts)
              (replicate (length time) false)) as [Hl Hc].
  { apply length_replicate. }
  split; [exact Hl|]. intros i.
  destruct (time !! i) as [t|] eqn:Et.
  - rewrite (Hc i t Et). split.
    + intros [H|(t0 & Hin & H)].
      * apply lookup_replicate in H. destruct H; discriminate.
      * apply filter_In in Hin. destruct Hin as [Hin Hb].
        apply andb_true_iff in Hb. destruct Hb as [H1 H2].
        apply Qcleb_le in H1, H2. exists t, t0. auto.
    + intros (t' & t0 & Ht' & Hin & H1 & H2 & H). injection Ht' as <-.
      right. exists t0. split; [|exact H].
      apply filter_In. split; [exact Hin|]. apply andb_true_iff.
      split; apply Qcleb_le; assumption.
  - split.
    + intros H. apply lookup_lt_Some in H. apply lookup_ge_None in Et. lia.
    + intros (t & t0 & Ht & _). discriminate.
Qed.

(** X2: the mask of two sets of transit times together is the
    elementwise disjunction of their masks. *)
Theorem transitmask_union (time tts1 tts2 : list Qc) (masksize : Qc) :
  time <> [] ->
  exists m1 m2,
    make_transitmask time tts1 masksize = Some m1 /\
    make_transitmask time tts2 masksize = Some m2 /\
    make_transitmask time (tts1 ++ tts2) masksize = Some (zip_with orb m1 m2).
Proof.
  intros Hne.
  destruct (transitmask_lookup time tts1 masksize Hne)
    as (tmin & tmax & m1 & Emin & Emax & E1 & L1 & C1).
  destruct (transitmask_lookup time tts2 masksize Hne)
    as (tmin2 & tmax2 & m2 & Emin2 & Emax2 & E2 & L2 & C2).
  destruct (transitmask_lookup time (tts1 ++ tts2) masksize Hne)
    as (tmin3 & tmax3 & m & Emin3 & Emax3 & E & L & C).
  rewrite Emin in Emin2, Emin3. rewrite Emax in Emax2, Emax3.
  injection Emin2 as <-. injection Emin3 as <-.
  injection Emax2 as <-. injection Emax3 as <-.
  exists m1, m2. split; [exact E1|]. split; [exact E2|]. rewrite E. f_equal.
  apply bool_list_eq.
  - rewrite length_zip_with. lia.
  - intros i. rewrite C, lookup_zip_with. split.
    + intros (t & t0 & Ht & Hin & H).
      assert (Hi : (i < length time)%nat) by (eapply lookup_lt_Some; exact Ht).
      destruct (lookup_lt_is_Some_2 m1 i ltac:(lia)) as [b1 Hb1].
      destruct (lookup_lt_is_Some_2 m2 i ltac:(lia)) as [b2 Hb2].
      rewrite Hb1, Hb2. cbn. f_equal.
      apply in_app_iff in Hin. destruct Hin as [Hin|Hin].
      * assert (Hb : m1 !! i = Some true) by (apply C1; eauto 8).
        rewrite Hb1 in Hb. injection Hb as ->. reflexivity.
      * assert (Hb : m2 !! i = Some true) by (apply C2; eauto 8).
        rewrite Hb2 in Hb. injection Hb as ->. apply orb_true_r.
    + intros H. destruct (m1 !! i) as [b1|] eqn:Hb1; [|discriminate].
      destruct (m2 !! i) as [b2|] eqn:Hb2; [|discriminate].
      cbn in H. injection H as H. apply orb_true_iff in H.
      destruct H as [-> | ->].
      * apply C1 in Hb1. destruct Hb1 as (t & t0 & Ht & Hin & H).
        exists t, t0. split; [exact Ht|]. split; [|exact H].
        apply in_app_iff. auto.
      * apply C2 in Hb2. destruct Hb2 as (t & t0 & Ht & Hin & H).
        exists t, t0. split; [exact Ht|]. split; [|exact H].
        apply in_app_iff. auto.
Qed.

(** The theorem on the example of the masker and a second transit. *)
Lemma transitmask_union_example :
  exists m1 m2,
    make_transitmask ex_time [Q2Qc 5] (Q2Qc 0.5) = Some m1 /\
    make_transitmask ex_time [Q2Qc 5.5] (Q2Qc 0.5) = Some m2 /\
    make_transitmask ex_time ([Q2Qc 5] ++ [Q2Qc 5.5]) (Q2Qc 0.5)
    = Some (zip_with orb m1 m2).
Proof. apply (transitmask_union ex_time [Q2Qc 5] [Q2Qc 5.5] (Q2Qc 0.5)). discriminate. Defined.

(** X3: a wider mask size masks every cadence that a narrower one
    masks. *)
Theorem transitmask_monotone (time tts : list Qc) (masksize masksize' : Qc)
    (m m' : list bool) (i : nat) :
  (masksize <= masksize')%Qc ->
  make_transitmask time tts masksize = Some m ->
  make_transitmask time tts masksize' = Some m' ->
  m !! i = Some true -> m' !! i = Some true.
Proof.
  intros Hle E E' Hi.
  assert (Hne : time <> []).
  { intros ->. discriminate E. }
  destruct (transitmask_lookup time tts masksize Hne)
    as (tmin & tmax & m1 & Emin & Emax & E1 & _ & C1).
  destruct (transitmask_lookup time tts masksize' Hne)
    as (tmin2 & tmax2 & m2 & Emin2 & Emax2 & E2 & _ & C2).
  rewrite E in E1. injection E1 as <-. rewrite E' in E2. injection E2 as <-.
  rewrite Emin in Emin2. injection Emin2 as <-.
  rewrite Emax in Emax2. injection Emax2 as <-.
  apply C2. apply C1 in Hi. destruct Hi as (t & t0 & Ht & Hin & H1 & H2 & H).
  exists t, t0. repeat (split; [assumption|]).
  eapply Qclt_le_trans; eassumption.
Qed.

(** The theorem on the example of the masker, widened from 0.5 to 0.7. *)
Lemma transitmask_monotone_example :
  [true; true; true; true] !! 1%nat = Some true.
Proof.
  apply (transitmask_monotone ex_time [Q2Qc 5] (Q2Qc 0.5) (Q2Qc 0.7)
           [false; true; true; false] [true; true; true; true] 1).
  - apply Qcleb_le. vm_compute. reflexivity.
  - vm_compute. reflexivity.
  - vm_compute. reflexivity.
  - reflexivity.
Defined.

(** X4: transit times before the first or after the last cadence
    mask nothing, however close they are to that cadence. *)
Theorem transitmask_outside_range (time tts : list Qc) (masksize tmin tmax : Qc) :
  np.min time = Some tmin ->
  np.max time = Some tmax ->
  Forall (fun t0 => (t0 < tmin)%Qc \/ (tmax < t0)%Qc) tts ->
  make_transitmask time tts masksize = Some (replicate (length time) false).
Proof.
  intros Emin Emax Hout.
  assert (Hne : time <> []).
  { intros ->. discriminate Emin. }
  destruct (transitmask_lookup time tts masksize Hne)
    as (tmin' & tmax' & m & Emin' & Emax' & E & L & C).
  rewrite Emin in Emin'. injection Emin' as <-.
  rewrite Emax in Emax'. injection Emax' as <-.
  rewrite E. f_equal. apply bool_list_eq.
  - rewrite length_replicate. exact L.
  - intros i. rewrite C. split.
    + intros (t & t0 & Ht & Hin & H1 & H2 & _).
      rewrite List.Forall_forall in Hout. destruct (Hout t0 Hin) as [H|H].
      * exfalso. eapply Qclt_not_le; eassumption.
      * exfalso. eapply Qclt_not_le; eassumption.
    + intros H. apply lookup_replicate in H. destruct H; discriminate.
Qed.

(** A transit at 4.3 is 0.1 before the first cadence 4.4 of
    [ex_time]; with a mask size of 0.5 no cadence is masked. *)
Lemma transitmask_before_first_cadence :
  make_transitmask ex_time tts_before (Q2Qc 0.5) = Some [false; false; false; false].
Proof.
  apply (transitmask_outside_range ex_time tts_before (Q2Qc 0.5) (Q2Qc 4.4) (Q2Qc 5.6)).
  - vm_compute. reflexivity.
  - vm_compute. reflexivity.
  - constructor; [|constructor]. left. apply Qcltb_lt. vm_compute. reflexivity.
Defined.

(** ** More on the boundaries of [identify_gaps] *)

Lemma where_from_bounds (i : Z) (cond : list bool) (x : Z) :
  In x (np.where_from i cond) -> i <= x < i + Z.of_nat (length cond).
Proof.
  revert i. induction cond as [|b cond IH]; intros i H; cbn [np.where_from] in H.
  - destruct H.
  - apply in_app_iff in H. cbn [length]. destruct H as [H|H].
    + destruct b; [|destruct H]. destruct H as [<-|[]]. lia.
    + apply IH in H. lia.
Qed.

Lemma where_from_cond (i : Z) (cond : list bool) (x : Z) :
  In x (np.where_from i cond) -> cond !! Z.to_nat (x - i) = Some true.
Proof.
  revert i. induction cond as [|b cond IH]; intros i H; cbn [np.where_from] in H.
  - destruct H.
  - apply in_app_iff in H. destruct H as [H|H].
    + destruct b; [|destruct H]. destruct H as [<-|[]].
      rewrite Z.sub_diag. reflexivity.
    + pose proof (where_from_bounds _ _ _ H) as Hb.
      apply IH in H.
      replace (Z.to_nat (x - i)) with (S (Z.to_nat (x - (i + 1)))) by lia.
      exact H.
Qed.

Lemma insert_unique_In (x y : Z) (l : list Z) :
  In y (np.insert_unique x l) <-> y = x \/ In y l.
Proof.
  induction l as [|z l IH]; cbn [np.insert_unique].
  - simpl. intuition.
  - destruct (Z.ltb_spec x z); [simpl; intuition|].
    destruct (Z.eqb_spec x z) as [->|Hne]; [simpl; intuition|].
    simpl. rewrite IH. intuition.
Qed.

Lemma insert_unique_sorted (x : Z) (l : list Z) :
  StronglySorted Z.lt l -> StronglySorted Z.lt (np.insert_unique x l).
Proof.
  intros H. induction H as [|z l Hs IH Hz]; cbn [np.insert_unique].
  - repeat constructor.
  - destruct (Z.ltb_spec x z).
    + constructor; [constructor; assumption|].
      constructor; [assumption|].
      eapply List.Forall_impl; [|exact Hz]. intros a Ha. simpl in Ha. lia.
    + destruct (Z.eqb_spec x z) as [->|Hne]; [constructor; assumption|].
      constructor; [exact IH|].
      apply List.Forall_forall. intros a Ha. apply insert_unique_In in Ha.
      destruct Ha as [->|Ha]; [lia|].
      rewrite List.Forall_forall in Hz. apply Hz, Ha.
Qed.

Lemma unique_In (y : Z) (l : list Z) : In y (np.unique l) <-> In y l.
Proof.
  induction l as [|x l IH]; [reflexivity|].
  unfold np.unique in *. cbn [foldr]. rewrite insert_unique_In, IH. simpl. intuition.
Qed.

Lemma unique_sorted (l : list Z) : StronglySorted Z.lt (np.unique l).
Proof.
  induction l as [|x l IH]; [constructor|].
  unfold np.unique in *. cbn [foldr]. apply insert_unique_sorted, IH.
Qed.

Lemma sort_Z_sorted (l : list Z) : StronglySorted Z.lt l -> np.sort_Z l = l.
Proof.
  intros H. induction H as [|x l Hs IH Hx]; [reflexivity|].
  unfold np.sort_Z in *. cbn [foldr]. rewrite IH.
  destruct l as [|y l]; [reflexivity|]. cbn [np.insert_sorted_Z].
  apply List.Forall_cons_iff in Hx. destruct Hx as [Hxy _].
  destruct (Z.leb_spec x y); [reflexivity|lia].
Qed.

Lemma sorted_last (l : list Z) (x : Z) :
  StronglySorted Z.lt l -> In x l -> (forall y, In y l -> y <= x) ->
  last l = Some x.
Proof.
  intros H. induction H as [|z l Hs IH Hz]; intros Hin Hmax; [destruct Hin|].
  destruct l as [|y l].
  - destruct Hin as [->|[]]. reflexivity.
  - change (last (z :: y :: l)) with (last (y :: l)). apply IH.
    + destruct Hin as [<-|Hin]; [|exact Hin]. exfalso.
      apply List.Forall_cons_iff in Hz. destruct Hz as [Hzy _].
      specialize (Hmax y ltac:(simpl; auto)). lia.
    + intros a Ha. apply Hmax. right. exact Ha.
Qed.

Lemma select_Forall {A} (P : A -> Prop) (a : list A) (cond : list bool) :
  Forall P a -> Forall P (np.select a cond).
Proof.
  intros H. revert cond. induction H as [|x a Hx _ IH]; intros [|b cond];
    cbn [np.select]; try constructor.
  destruct b; cbn [app]; [constructor; [exact Hx|]|]; apply IH.
Qed.

Lemma select_sorted (a : list Z) (cond : list bool) :
  StronglySorted Z.lt a -> StronglySorted Z.lt (np.select a cond).
Proof.
  intros H. revert cond. induction H as [|x a Hs IH Hx]; intros [|b cond];
    cbn [np.select]; try constructor.
  destruct b; cbn [app].
  - constructor; [apply IH|apply select_Forall, Hx].
  - apply IH.
Qed.

Lemma select_subset {A} (a : list A) (cond : list bool) (x : A) :
  In x (np.select a cond) -> In x a.
Proof.
  revert cond. induction a as [|y a IH]; intros [|b cond] H; cbn [np.select] in H;
    try destruct H.
  apply in_app_iff in H. destruct H as [H|H].
  - destruct b; [|destruct H]. destruct H as [<-|[]]. left. reflexivity.
  - right. eapply IH. exact H.
Qed.

Lemma select_snoc {A} (a : list A) (c : list bool) (x : A) (b : bool) :
  length a = length c ->
  np.select (a ++ [x]) (c ++ [b]) = np.select a c ++ (if b then [x] else []).
Proof.
  revert c. induction a as [|y a IH]; intros [|d c] H; try discriminate.
  - cbn. rewrite app_nil_r. reflexivity.
  - cbn [app np.select]. simpl in H. injection H as H.
    rewrite (IH c H), app_assoc. reflexivity.
Qed.

Lemma last_snoc_inv {A} (l : list A) (x : A) :
  last l = Some x -> exists l', l = l' ++ [x].
Proof.
  intros H. destruct (last_Some l x) as [Hl _]. apply Hl in H. exact H.
Qed.

Lemma merge_close_last (gaps : list Z) (bt x : Z) :
  last gaps = Some x -> last (merge_close gaps bt) = Some x.
Proof.
  intros Hlast. destruct (last_snoc_inv _ _ Hlast) as [g ->].
  unfold merge_close.
  set (bad := false :: map (fun d => d <? bt) (np.diff_Z (g ++ [x]))).
  assert (Hlen : length bad = S (length g)).
  { unfold bad. cbn [length]. rewrite length_map, length_diff_Z, length_app.
    simpl. lia. }
  assert (Hkeep : exists c, length c = length g /\
            (if last bad is Some true
             then set_from_end 2 true (set_from_end 1 false bad) else bad)
            = c ++ [false]).
  { destruct (last bad) as [b|] eqn:Eb.
    2:{ apply last_None in Eb. rewrite Eb in Hlen. discriminate. }
    destruct (last_snoc_inv _ _ Eb) as [c Hc].
    assert (Hc' : length c = length g).
    { rewrite Hc, length_app in Hlen. simpl in Hlen. lia. }
    destruct b.
    - unfold set_from_end. rewrite Hc.
      rewrite length_app. cbn [length].
      replace (length c + 1 - 1)%nat with (length c + 0)%nat by lia.
      rewrite insert_app_r. cbn [insert list_insert].
      rewrite length_app. cbn [length].
      destruct c as [|c0 c] using rev_ind.
      + exfalso. unfold bad in Hc. discriminate Hc.
      + rewrite length_app. cbn [length].
        exists (<[(length c + 1 + 1 - 2)%nat := true]> (c ++ [c0])). split.
        * rewrite length_insert. exact Hc'.
        * rewrite <- insert_app_l; [reflexivity|].
          rewrite length_app. simpl. lia.
    - exists c. split; [exact Hc'|exact Hc]. }
  destruct Hkeep as (c & Hc & ->).
  change (map negb (c ++ [false])) with (negb <$> (c ++ [false])).
  rewrite fmap_app. cbn [fmap list_fmap negb].
  rewrite select_snoc by (rewrite length_fmap; lia).
  apply last_snoc.
Qed.

Lemma breaks_length (lc : LiteCurve) :
  length (breaks lc) = Nat.max 1 (length (cadno lc)).
Proof. unfold breaks. cbn [length]. rewrite length_diff_Z. lia. Qed.

Lemma break_locs_In (lc : LiteCurve) (bt g : Z) :
  In g (break_locs lc bt) ->
  g = 0 \/ g = Z.of_nat (length (breaks lc)) + 1 \/
  (0 <= g < Z.of_nat (length (breaks lc)) /\
   exists d, breaks lc !! Z.to_nat g = Some d /\ bt < d).
Proof.
  unfold break_locs, np.where_. intros H.
  apply in_app_iff in H. destruct H as [[<-|[]]|H]; [left; reflexivity|].
  apply in_app_iff in H. destruct H as [H|[<-|[]]]; [|right; left; reflexivity].
  right. right. pose proof (where_from_bounds _ _ _ H) as Hb.
  rewrite length_map in Hb. split; [lia|].
  apply where_from_cond in H. rewrite Z.sub_0_r in H.
  change (map ?f ?l) with (f <$> l) in H. rewrite list_lookup_fmap in H.
  destruct (breaks lc !! Z.to_nat g) as [d|]; [|discriminate].
  exists d. split; [reflexivity|]. cbn in H. injection H as H. lia.
Qed.

Lemma gaps_before_merge_last (lc : LiteCurve) (bt : Z) :
  last (np.sort_Z (np.unique (break_locs lc bt)))
  = Some (Z.of_nat (length (breaks lc)) + 1).
Proof.
  rewrite sort_Z_sorted by apply unique_sorted.
  apply sorted_last; [apply unique_sorted| |].
  - apply unique_In. unfold break_locs. rewrite !in_app_iff. right. right.
    left. reflexivity.
  - intros y Hy. apply (proj1 (unique_In _ _)) in Hy. apply break_locs_In in Hy.
    destruct Hy as [->|[->|[Hy _]]]; lia.
Qed.

(** X5: whatever the light curve and the tolerances, the boundaries
    that [identify_gaps] returns are strictly increasing, the last one
    is [N + 1] for a curve of [N] cadences (2 for an empty curve), so
    the result is never empty, and every boundary is 0, [N + 1] or a
    position whose cadence difference exceeds [break_tolerance]. *)
Theorem identify_gaps_boundaries (lc : LiteCurve) (break_tolerance : Z)
    (jump_tolerance : Qc) :
  let gaps := identify_gaps lc break_tolerance jump_tolerance in
  let N := Z.of_nat (Nat.max 1 (length (cadno lc))) in
  StronglySorted Z.lt gaps /\
  last gaps = Some (N + 1) /\
  forall g, In g gaps ->
    g = 0 \/ g = N + 1 \/
    (0 <= g < N /\
     exists d, breaks lc !! Z.to_nat g = Some d /\ break_tolerance < d).
Proof.
  cbv zeta. rewrite identify_gaps_breaks_only, <- breaks_length.
  split; [|split].
  - unfold merge_close. apply select_sorted.
    rewrite sort_Z_sorted by apply unique_sorted. apply unique_sorted.
  - apply merge_close_last, gaps_before_merge_last.
  - intros g Hg. unfold merge_close in Hg. apply select_subset in Hg.
    rewrite sort_Z_sorted in Hg by apply unique_sorted.
    apply (proj1 (unique_In _ _)) in Hg. apply break_locs_In, Hg.
Qed.

Lemma unique_of_sorted (l : list Z) : StronglySorted Z.lt l -> np.unique l = l.
Proof.
  intros H. induction H as [|x l Hs IH Hx]; [reflexivity|].
  unfold np.unique in *. cbn [foldr]. rewrite IH.
  destruct l as [|y l]; [reflexivity|]. cbn [np.insert_unique].
  apply List.Forall_cons_iff in Hx. destruct Hx as [Hxy _].
  destruct (Z.ltb_spec x y); [reflexivity|lia].
Qed.

Lemma merge_close_three (k n bt : Z) :
  merge_close [0; k; n] bt =
  if (bt <=? k) && (bt <=? n - k) then [0; k; n] else [0; n].
Proof.
  unfold merge_close, np.diff_Z. cbn [drop removelast zip_with map last].
  rewrite Z.sub_0_r.
  destruct (Z.ltb_spec (n - k) bt), (Z.leb_spec bt (n - k)); try lia;
    destruct (Z.ltb_spec k bt), (Z.leb_spec bt k); try lia; reflexivity.
Qed.

Lemma wrap64_small (d : Z) : - 2 ^ 63 <= d < 2 ^ 63 -> wrap64 d = d.
Proof.
  intros H. unfold wrap64. rewrite Z.mod_small by lia. lia.
Qed.

Lemma diff_Z_no_wrap (a : list Z) :
  Forall (fun c => 0 <= c < 2 ^ 63) a -> map wrap64 (np.diff_Z a) = np.diff_Z a.
Proof.
  intros H. unfold np.diff_Z.
  assert (H1 : Forall (fun c => 0 <= c < 2 ^ 63) (drop 1 a)).
  { apply Forall_drop. apply Forall_forall. intros x Hx.
    rewrite List.Forall_forall in H. apply H. apply list_elem_of_In, Hx. }
  assert (H2 : Forall (fun c => 0 <= c < 2 ^ 63) (removelast a)).
  { apply Forall_forall. intros x Hx. rewrite List.Forall_forall in H.
    apply H. apply list_elem_of_In in Hx. clear -Hx.
    induction a as [|y [|z a] IH]; [destruct Hx|destruct Hx|].
    cbn [removelast] in Hx. destruct Hx as [<-|Hx]; [left; reflexivity|].
    right. apply IH, Hx. }
  revert H1 H2. generalize (drop 1 a) (removelast a). intros u v Hu.
  revert v. induction Hu as [|x u Hx _ IH]; intros v Hv; [reflexivity|].
  destruct Hv as [|y v Hy Hv]; [reflexivity|].
  cbn [zip_with map]. rewrite (IH v Hv), wrap64_small by lia. reflexivity.
Qed.

(** X6: take a curve whose cadence numbers are 64-bit integers, none
    negative, so that their differences, which numpy takes modulo
    [2^64], are the exact ones.  When one difference is above
    [break_tolerance], before position [k > 0], the curve is cut at
    [k] only when both pieces, [k] and [N + 1 - k], are at least
    [break_tolerance] long; otherwise the boundaries are those of a
    curve without a gap. *)
Theorem identify_gaps_single_gap (lc : LiteCurve) (break_tolerance : Z)
    (jump_tolerance : Qc) (k : Z) :
  let N := Z.of_nat (length (cadno lc)) in
  Forall (fun c => 0 <= c < 2 ^ 63) (cadno lc) ->
  0 < k ->
  np.where_ (map (fun b => break_tolerance <? b) (breaks lc)) = [k] ->
  map wrap64 (np.diff_Z (cadno lc)) = np.diff_Z (cadno lc) /\
  identify_gaps lc break_tolerance jump_tolerance =
  (if (break_tolerance <=? k) && (break_tolerance <=? N + 1 - k)
   then [0; k; N + 1] else [0; N + 1]).
Proof.
  intros N Hrange Hk Hw. split; [apply diff_Z_no_wrap, Hrange|].
  assert (Hb : 0 <= k < 0 + Z.of_nat (length (breaks lc))).
  { pose proof (where_from_bounds 0 (map (fun b => break_tolerance <? b) (breaks lc)) k) as Hb.
    rewrite length_map in Hb. apply Hb. unfold np.where_ in Hw. rewrite Hw.
    left. reflexivity. }
  assert (HN : Z.of_nat (length (breaks lc)) = N).
  { rewrite breaks_length in *. unfold N. lia. }
  rewrite identify_gaps_breaks_only. unfold break_locs. rewrite Hw, HN.
  cbn [app].
  assert (Hs : StronglySorted Z.lt [0; k; N + 1]).
  { repeat constructor; lia. }
  rewrite (unique_of_sorted _ Hs), (sort_Z_sorted _ Hs).
  apply merge_close_three.
Qed.

(** The theorem on [lc_gap], whose gap lies before position 6: with a
    tolerance of 5 the curve is cut there. *)
Lemma gap_curve_boundaries :
  map wrap64 (np.diff_Z (cadno lc_gap)) = np.diff_Z (cadno lc_gap) /\
  identify_gaps lc_gap 5 (Z2Qc 5) = [0; 6; 13].
Proof.
  apply (identify_gaps_single_gap lc_gap 5 (Z2Qc 5) 6).
  - repeat constructor; lia.
  - lia.
  - reflexivity.
Defined.

(** X7: a curve without a gap that is shorter than the tolerance
    ([N + 1 < break_tolerance]) loses its first boundary: the result is
    [[N + 1]] alone, [flatten_with_gp] then counts no segment and
    every cadence keeps the label 0. *)
Theorem identify_gaps_below_tolerance (lc : LiteCurve) (break_tolerance : Z)
    (jump_tolerance : Qc) :
  let N := Z.of_nat (length (cadno lc)) in
  let gaps := decr_last (identify_gaps lc break_tolerance jump_tolerance) in
  cadno lc <> [] ->
  no_gap_exceeds lc break_tolerance = true ->
  N + 1 < break_tolerance ->
  identify_gaps lc break_tolerance jump_tolerance = [N + 1] /\
  gaps = [N] /\
  (length gaps - 1)%nat = 0%nat /\
  segment_labels (length (time lc)) gaps = replicate (length (time lc)) 0.
Proof.
  intros N gaps Hne Hgap Hbt.
  assert (HN : 1 <= N).
  { unfold N. destruct (cadno lc); [congruence|]. cbn [length]. lia. }
  assert (E : identify_gaps lc break_tolerance jump_tolerance = [N + 1]).
  { rewrite identify_gaps_breaks_only. unfold break_locs, breaks, np.where_.
    cbn [map np.where_from length].
    rewrite (where_from_diffs _ _ _ Hgap), app_nil_r, length_diff_Z.
    replace (Z.of_nat (S (length (cadno lc) - 1)) + 1) with (N + 1)
      by (unfold N; lia).
    assert (Hpos : 0 < N + 1) by lia.
    destruct (Z.ltb_spec break_tolerance 1); [lia|]. cbn [app].
    rewrite (unique_two _ Hpos), (sort_Z_two _ Hpos).
    unfold merge_close, np.diff_Z. cbn [drop removelast zip_with map last].
    rewrite Z.sub_0_r. destruct (Z.ltb_spec (N + 1) break_tolerance); [|lia].
    reflexivity. }
  assert (G : gaps = [N]).
  { unfold gaps. rewrite E. unfold decr_last, set_from_end.
    cbn [last length Nat.sub]. cbn [insert list_insert]. f_equal. lia. }
  split; [exact E|]. split; [exact G|]. rewrite G. split; reflexivity.
Qed.

(** The theorem on [lc_flat] (three cadences) with a tolerance of 10. *)
Lemma flat_curve_too_short :
  identify_gaps lc_flat 10 (Z2Qc 5) = [4] /\
  decr_last (identify_gaps lc_flat 10 (Z2Qc 5)) = [3] /\
  (length (decr_last (identify_gaps lc_flat 10 (Z2Qc 5))) - 1)%nat = 0%nat /\
  segment_labels 3 (decr_last (identify_gaps lc_flat 10 (Z2Qc 5))) = [0; 0; 0].
Proof.
  apply (identify_gaps_below_tolerance lc_flat 10 (Z2Qc 5)).
  - discriminate.
  - reflexivity.
  - reflexivity.
Defined.

(** ** The segment labels of [flatten_with_gp] *)

Lemma assign_slice_lookup (lo hi v : Z) (seg : list Z) (j : nat) :
  assign_slice lo hi v seg !! j =
  (fun x => if (lo <=? Z.of_nat j) && (Z.of_nat j <? hi) then v else x) <$> seg !! j.
Proof. unfold assign_slice. apply list_lookup_imap. Qed.

Lemma fold_labels_lookup (gaps : list Z) (idx : list nat) (seg : list Z)
    (j : nat) (x : Z) :
  seg !! j = Some x ->
  fold_left
    (fun seg i => assign_slice (nth i gaps 0) (nth (S i) gaps 0) (Z.of_nat i) seg)
    idx seg !! j
  = Some (fold_left
            (fun x i => if (nth i gaps 0 <=? Z.of_nat j) && (Z.of_nat j <? nth (S i) gaps 0)
                        then Z.of_nat i else x)
            idx x).
Proof.
  revert seg x. induction idx as [|i idx IH]; intros seg x H; cbn [fold_left].
  - exact H.
  - apply IH. rewrite assign_slice_lookup, H. reflexivity.
Qed.

Lemma sorted_nth_le (l : list Z) :
  StronglySorted Z.lt l ->
  forall a b, (a <= b < length l)%nat -> nth a l 0 <= nth b l 0.
Proof.
  intros H. induction H as [|x l Hs IH Hx]; intros a b Hab.
  - simpl in Hab. lia.
  - destruct a as [|a], b as [|b]; cbn [nth]; try lia.
    + rewrite List.Forall_forall in Hx.
      assert (Hin : In (nth b l 0) l) by (apply nth_In; simpl in Hab; lia).
      specialize (Hx _ Hin). lia.
    + apply IH. simpl in Hab. lia.
Qed.

Lemma fold_labels_inside (gaps : list Z) (j i m : nat) (x : Z) :
  StronglySorted Z.lt gaps ->
  (i < m)%nat -> (m < length gaps)%nat ->
  nth i gaps 0 <= Z.of_nat j < nth (S i) gaps 0 ->
  fold_left
    (fun x i => if (nth i gaps 0 <=? Z.of_nat j) && (Z.of_nat j <? nth (S i) gaps 0)
                then Z.of_nat i else x)
    (seq 0 m) x = Z.of_nat i.
Proof.
  intros Hs Him Hm Hr. induction m as [|m IH]; [lia|].
  rewrite seq_S, fold_left_app. cbn [fold_left Nat.add].
  destruct (Nat.eq_dec i m) as [<-|Hne].
  - destruct (Z.leb_spec (nth i gaps 0) (Z.of_nat j)); [|lia].
    destruct (Z.ltb_spec (Z.of_nat j) (nth (S i) gaps 0)); [|lia]. reflexivity.
  - rewrite IH by lia.
    pose proof (sorted_nth_le gaps Hs (S i) m ltac:(lia)) as Hle.
    destruct (Z.leb_spec (nth m gaps 0) (Z.of_nat j)); [lia|]. reflexivity.
Qed.

Lemma fold_labels_outside (gaps : list Z) (j m : nat) (x : Z) :
  (forall i, (i < m)%nat ->
     ~ (nth i gaps 0 <= Z.of_nat j < nth (S i) gaps 0)) ->
  fold_left
    (fun x i => if (nth i gaps 0 <=? Z.of_nat j) && (Z.of_nat j <? nth (S i) gaps 0)
                then Z.of_nat i else x)
    (seq 0 m) x = x.
Proof.
  intros H. induction m as [|m IH]; [reflexivity|].
  rewrite seq_S, fold_left_app. cbn [fold_left Nat.add].
  rewrite IH by (intros i Hi; apply H; lia).
  specialize (H m ltac:(lia)).
  destruct (Z.leb_spec (nth m gaps 0) (Z.of_nat j)); [|reflexivity].
  destruct (Z.ltb_spec (Z.of_nat j) (nth (S m) gaps 0)); [lia|reflexivity].
Qed.

(** X8: for strictly increasing boundaries, none negative, the
    cadence [j] of a curve of [n] cadences gets the number [i] of the
    segment that holds it, [gaps[i] <= j < gaps[i+1]]; a cadence that
    no segment holds keeps the label 0 of the first segment. *)
Theorem segment_labels_spec (n : nat) (gaps : list Z) (j : nat) :
  StronglySorted Z.lt gaps ->
  Forall (fun g => 0 <= g) gaps ->
  (j < n)%nat ->
  (forall i, (S i < length gaps)%nat ->
     nth i gaps 0 <= Z.of_nat j < nth (S i) gaps 0 ->
     segment_labels n gaps !! j = Some (Z.of_nat i)) /\
  ((forall i, (S i < length gaps)%nat ->
      ~ (nth i gaps 0 <= Z.of_nat j < nth (S i) gaps 0)) ->
   segment_labels n gaps !! j = Some 0).
Proof.
  intros Hs _ Hj.
  assert (H0 : replicate n 0 !! j = Some 0).
  { apply lookup_replicate_2. exact Hj. }
  unfold segment_labels. rewrite (fold_labels_lookup gaps _ _ j 0 H0).
  split.
  - intros i Hi Hr. f_equal. apply fold_labels_inside; try assumption; lia.
  - intros Hout. f_equal. apply fold_labels_outside.
    intros i Hi. apply Hout. lia.
Qed.

(** The theorem on the boundaries of [lc_gap] as [flatten_with_gp]
    uses them, [[0; 6; 12]]: cadence 7 lies in segment 1. *)
Lemma gap_curve_labels :
  segment_labels 12 (decr_last (identify_gaps lc_gap 5 (Z2Qc 5))) !! 7%nat = Some 1.
Proof.
  refine (proj1 (segment_labels_spec 12 (decr_last (identify_gaps lc_gap 5 (Z2Qc 5))) 7 _ _ _) 1%nat _ _).
  - change (StronglySorted Z.lt [0; 6; 12]). repeat constructor; lia.
  - change (Forall (fun g => 0 <= g) [0; 6; 12]). repeat constructor; lia.
  - lia.
  - vm_compute. lia.
  - change (6 <= 7 < 12). lia.
Defined.

(** ** A failed detrending changes nothing *)

Section Outcome.
Variable lomb_scargle_peak : LiteCurve -> Qc -> exn + Qc.
Variable gp_trend :
  LiteCurve -> Qc -> Qc -> list Z -> list Z -> string -> bool -> exn + list Qc.

Lemma flatten_outcome (lc : nat) (break_tolerance : Z) (min_period : Qc)
    (kterm : string) (correct_ramp return_trend : bool) (w : world) :
  (forall l, lc_data w !! lc = Some l -> length (flux l) = length (error l)) ->
  (exists e,
     flatten_with_gp lomb_scargle_peak gp_trend lc break_tolerance min_period
       kterm correct_ramp return_trend w = (inl e, w)) \/
  (exists l peak_per full_trend,
     lc_data w !! lc = Some l /\
     lomb_scargle_peak l min_period = inr peak_per /\
     (let gaps := decr_last (identify_gaps l break_tolerance (Z2Qc 5)) in
      gp_trend l peak_per min_period
        (segment_labels (length (time l)) gaps)
        (segment_labels (length (np.select (time l) (map negb (mask l))))
           (unmasked_gaps l gaps))
        kterm correct_ramp = inr full_trend) /\
     length full_trend = length (flux l) /\
     flatten_with_gp lomb_scargle_peak gp_trend lc break_tolerance min_period
       kterm correct_ramp return_trend w
     = (inr (lc, if return_trend then Some full_trend else None),
        mkWorld
          (<[lc := mkLiteCurve (time l)
                     (zip_with Qcdiv (flux l) full_trend)
                     (zip_with Qcdiv (error l) full_trend)
                     (cadno l) (quarter l) (channel l) (mask l)]> (lc_data w))
          (warnings w))).
Proof.
  intros Hlen. unfold flatten_with_gp.
  unfold mbind, M_bind, mret, M_ret, lift, read_lc, write_lc, raise.
  cbn beta iota delta [lc_data warnings fst snd].
  destruct (lc_data w !! lc) as [l|] eqn:El; [|left; eexists; reflexivity].
  specialize (Hlen l eq_refl).
  destruct (lomb_scargle_peak l min_period) as [e|peak_per] eqn:Ep;
    [left; eexists; reflexivity|].
  destruct (String.eqb kterm "RotationTerm" || String.eqb kterm "SHOTerm");
    [|left; eexists; reflexivity].
  destruct (gp_trend l peak_per min_period _ _ kterm correct_ramp)
    as [e|full_trend] eqn:Eg; [left; eexists; reflexivity|].
  unfold idiv.
  destruct (Nat.eqb_spec (length (flux l)) (length full_trend)) as [Ef|Ef];
    [|left; eexists; reflexivity].
  assert (Hlt : (lc < length (lc_data w))%nat) by (eapply lookup_lt_Some; exact El).
  rewrite list_lookup_insert_eq by exact Hlt.
  cbn [error with_flux].
  destruct (Nat.eqb_spec (length (error l)) (length full_trend)) as [Ee|Ee];
    [|exfalso; lia].
  right. exists l, peak_per, full_trend. cbn [lc_data warnings].
  rewrite list_insert_insert_eq.
  split; [reflexivity|]. split; [exact Ep|]. split; [exact Eg|].
  split; [lia|]. reflexivity.
Qed.

End Outcome.

(** X9: a call of [flatten_with_gp] that raises leaves the light
    curves and the warnings as they were, provided the flux and the
    error of the light curve have one length (the flux is divided
    before the error is). *)
Theorem flatten_with_gp_failure_atomic
    (lomb_scargle_peak : LiteCurve -> Qc -> exn + Qc)
    (gp_trend : LiteCurve -> Qc -> Qc -> list Z -> list Z -> string -> bool
                -> exn + list Qc)
    (lc : nat) (break_tolerance : Z) (min_period : Qc) (kterm : string)
    (correct_ramp return_trend : bool) (w w' : world) (e : exn) :
  (forall l, lc_data w !! lc = Some l -> length (flux l) = length (error l)) ->
  flatten_with_gp lomb_scargle_peak gp_trend lc break_tolerance min_period
    kterm correct_ramp return_trend w = (inl e, w') ->
  w' = w.
Proof.
  intros Hlen H.
  destruct (flatten_outcome lomb_scargle_peak gp_trend lc break_tolerance
              min_period kterm correct_ramp return_trend w Hlen)
    as [(e' & E)|(l & peak_per & full_trend & _ & _ & _ & _ & E)];
    rewrite E in H; [|discriminate].
  injection H as _ <-. reflexivity.
Qed.

(** The theorem on [lc_flat] and a detrender that fails. *)
Lemma failed_flatten_keeps_flat_world :
  mkWorld [lc_flat] [] = world_flat.
Proof.
  apply (flatten_with_gp_failure_atomic lomb_one gp_failing 0%nat 1 1%Qc
           "SHOTerm" false false world_flat (mkWorld [lc_flat] []) (SolverError 3)).
  - intros l Hl. vm_compute in Hl. injection Hl as <-. reflexivity.
  - vm_compute. reflexivity.
Defined.

(** X10: on a light curve whose flux and error have one length, the
    ladder either raises, and then the light curves are as they were
    and both warnings were issued, or returns the light curve with
    its flux and its error divided by one trend: the trend that the
    Gaussian-process fit answered for the light curve as it was
    given, with the RotationTerm kernel and the ramp after no
    warning, with the RotationTerm kernel and no ramp after the first
    warning, with the SHOTerm kernel and no ramp after both. *)
Theorem detrend_ladder_outcome
    (lomb_scargle_peak : LiteCurve -> Qc -> exn + Qc)
    (gp_trend : LiteCurve -> Qc -> Qc -> list Z -> list Z -> string -> bool
                -> exn + list Qc)
    (lcd : nat) (break_tolerance : Z) (min_period : Qc) (w : world) :
  (forall l, lc_data w !! lcd = Some l -> length (flux l) = length (error l)) ->
  (exists e,
     detrend_ladder lomb_scargle_peak gp_trend lcd break_tolerance min_period w
     = (inl e, mkWorld (lc_data w)
                 (warnings w ++ [warning_no_ramp; warning_SHOTerm]))) \/
  (exists l peak_per full_trend ws kterm correct_ramp,
     lc_data w !! lcd = Some l /\
     lomb_scargle_peak l min_period = inr peak_per /\
     (let gaps := decr_last (identify_gaps l break_tolerance (Z2Qc 5)) in
      gp_trend l peak_per min_period
        (segment_labels (length (time l)) gaps)
        (segment_labels (length (np.select (time l) (map negb (mask l))))
           (unmasked_gaps l gaps))
        kterm correct_ramp = inr full_trend) /\
     length full_trend = length (flux l) /\
     ((ws = [] /\ kterm = "RotationTerm"%string /\ correct_ramp = true) \/
      (ws = [warning_no_ramp] /\ kterm = "RotationTerm"%string /\
       correct_ramp = false) \/
      (ws = [warning_no_ramp; warning_SHOTerm] /\ kterm = "SHOTerm"%string /\
       correct_ramp = false)) /\
     detrend_ladder lomb_scargle_peak gp_trend lcd break_tolerance min_period w
     = (inr (lcd, None),
        mkWorld
          (<[lcd := mkLiteCurve (time l)
                      (zip_with Qcdiv (flux l) full_trend)
                      (zip_with Qcdiv (error l) full_trend)
                      (cadno l) (quarter l) (channel l) (mask l)]> (lc_data w))
          (warnings w ++ ws))).
Proof.
  intros Hlen.
  rewrite detrend_ladder_tree.
  destruct (flatten_outcome lomb_scargle_peak gp_trend lcd break_tolerance
              min_period "RotationTerm" true false w Hlen)
    as [(e1 & E1)|(l & pp & full_trend & El & Ep & Eg & Ht & E1)]; rewrite E1.
  2:{ right. exists l, pp, full_trend, [], "RotationTerm"%string, true.
      rewrite app_nil_r. auto 10. }
  set (w1 := mkWorld (lc_data w) (warnings w ++ [warning_no_ramp])).
  destruct (flatten_outcome lomb_scargle_peak gp_trend lcd break_tolerance
              min_period "RotationTerm" false false w1 Hlen)
    as [(e2 & E2)|(l & pp & full_trend & El & Ep & Eg & Ht & E2)]; rewrite E2.
  2:{ right. exists l, pp, full_trend, [warning_no_ramp], "RotationTerm"%string, false.
      auto 10. }
  set (w2 := mkWorld (lc_data w1) (warnings w1 ++ [warning_SHOTerm])).
  destruct (flatten_outcome lomb_scargle_peak gp_trend lcd break_tolerance
              min_period "SHOTerm" false false w2 Hlen)
    as [(e3 & E3)|(l & pp & full_trend & El & Ep & Eg & Ht & E3)]; rewrite E3.
  - left. exists e3. unfold w2, w1. cbn [lc_data warnings].
    rewrite <- app_assoc. reflexivity.
  - right.
    exists l, pp, full_trend, [warning_no_ramp; warning_SHOTerm], "SHOTerm"%string, false.
    unfold w2, w1. cbn [lc_data warnings]. rewrite <- app_assoc.
    split; [exact El|]. split; [exact Ep|]. split; [exact Eg|].
    split; [exact Ht|]. split; [auto 10|reflexivity].
Qed.

(** The theorem on [lc_flat] and a detrender that fails with the
    ramp only. *)
Lemma ladder_without_ramp :
  (exists e,
     detrend_ladder lomb_one gp_no_ramp 0 1 1%Qc world_flat
     = (inl e, mkWorld (lc_data world_flat)
                 (warnings world_flat ++ [warning_no_ramp; warning_SHOTerm]))) \/
  (exists l peak_per full_trend ws kterm correct_ramp,
     lc_data world_flat !! 0%nat = Some l /\
     lomb_one l 1%Qc = inr peak_per /\
     (let gaps := decr_last (identify_gaps l 1 (Z2Qc 5)) in
      gp_no_ramp l peak_per 1%Qc
        (segment_labels (length (time l)) gaps)
        (segment_labels (length (np.select (time l) (map negb (mask l))))
           (unmasked_gaps l gaps))
        kterm correct_ramp = inr full_trend) /\
     length full_trend = length (flux l) /\
     ((ws = [] /\ kterm = "RotationTerm"%string /\ correct_ramp = true) \/
      (ws = [warning_no_ramp] /\ kterm = "RotationTerm"%string /\
       correct_ramp = false) \/
      (ws = [warning_no_ramp; warning_SHOTerm] /\ kterm = "SHOTerm"%string /\
       correct_ramp = false)) /\
     detrend_ladder lomb_one gp_no_ramp 0 1 1%Qc world_flat
     = (inr (0%nat, None),
        mkWorld
          (<[0%nat := mkLiteCurve (time l)
                      (zip_with Qcdiv (flux l) full_trend)
                      (zip_with Qcdiv (error l) full_trend)
                      (cadno l) (quarter l) (channel l) (mask l)]>
             (lc_data world_flat))
          (warnings world_flat ++ ws))).
Proof.
  apply (detrend_ladder_outcome lomb_one gp_no_ramp 0%nat 1 1%Qc world_flat).
  intros l Hl. vm_compute in Hl. injection Hl as <-. reflexivity.
Defined.

(** ** What the second pass keeps *)

Lemma same_cadences_refl (l : LiteCurve) : same_cadences l l.
Proof. repeat split. Qed.

Lemma same_cadences_all (l : list LiteCurve) : Forall2 same_cadences l l.
Proof.
  apply Forall2_same_length_lookup. split; [reflexivity|].
  intros i x y Hx Hy. rewrite Hx in Hy. injection Hy as <-.
  apply same_cadences_refl.
Qed.

Lemma frame_refl (w : world) : frame w w.
Proof.
  split; [apply same_cadences_all|].
  exists []. rewrite app_nil_r. reflexivity.
Qed.

Lemma frame_trans (w1 w2 w3 : world) : frame w1 w2 -> frame w2 w3 -> frame w1 w3.
Proof.
  intros [F1 (ws1 & E1)] [F2 (ws2 & E2)]. split.
  - apply Forall2_same_length_lookup.
    pose proof (Forall2_length _ _ _ F1) as L1.
    pose proof (Forall2_length _ _ _ F2) as L2.
    split; [congruence|]. intros i x z Hx Hz.
    destruct (lc_data w2 !! i) as [y|] eqn:Hy.
    + pose proof (Forall2_lookup_lr _ _ _ _ _ _ F1 Hx Hy) as (A1 & A2 & A3 & A4).
      pose proof (Forall2_lookup_lr _ _ _ _ _ _ F2 Hy Hz) as (B1 & B2 & B3 & B4).
      repeat split; congruence.
    + apply lookup_ge_None in Hy. apply lookup_lt_Some in Hx. lia.
  - exists (ws1 ++ ws2). rewrite E2, E1, app_assoc. reflexivity.
Qed.

Lemma frame_warn (w : world) (msg : string) :
  frame w (mkWorld (lc_data w) (warnings w ++ [msg])).
Proof.
  split; [apply same_cadences_all|]. exists [msg]. reflexivity.
Qed.

Lemma frame_insert (w : world) (i : nat) (l l' : LiteCurve) :
  lc_data w !! i = Some l -> same_cadences l l' ->
  frame w (mkWorld (<[i := l']> (lc_data w)) (warnings w)).
Proof.
  intros Hl Hs. split; cbn [lc_data warnings].
  - rewrite <- (list_insert_id (lc_data w) i l Hl) at 1.
    apply Forall2_insert; [apply same_cadences_all|exact Hs].
  - exists []. rewrite app_nil_r. reflexivity.
Qed.

Lemma for_each_frame {A} (items : list A) (body : A -> M unit) :
  (forall x w r w', body x w = (r, w') -> frame w w') ->
  forall w r w', for_each items body w = (r, w') -> frame w w'.
Proof.
  intros Hbody. induction items as [|x items IH]; intros w r w' H.
  - cbn in H. injection H as _ <-. apply frame_refl.
  - cbn [for_each] in H. unfold mbind, M_bind in H.
    destruct (body x w) as [[e|[]] w1] eqn:E.
    + injection H as _ <-. eapply Hbody, E.
    + eapply frame_trans; [eapply Hbody, E|eapply IH, H].
Qed.

Section Pass.
Variable lomb_scargle_peak : LiteCurve -> Qc -> exn + Qc.
Variable gp_trend :
  LiteCurve -> Qc -> Qc -> list Z -> list Z -> string -> bool -> exn + list Qc.

Lemma flatten_frame (lc : nat) (break_tolerance : Z) (min_period : Qc)
    (kterm : string) (correct_ramp return_trend : bool) (w w' : world)
    (r : exn + nat * option (list Qc)) :
  flatten_with_gp lomb_scargle_peak gp_trend lc break_tolerance min_period
    kterm correct_ramp return_trend w = (r, w') ->
  frame w w'.
Proof.
  intros H. unfold flatten_with_gp in H. run_M H.
  destruct (lc_data w !! lc) as [l|] eqn:El;
    [|injection H as _ <-; apply frame_refl].
  destruct (lomb_scargle_peak l min_period) as [e|peak_per];
    [injection H as _ <-; apply frame_refl|].
  destruct (String.eqb kterm "RotationTerm" || String.eqb kterm "SHOTerm");
    [|injection H as _ <-; apply frame_refl].
  destruct (gp_trend l peak_per min_period _ _ kterm correct_ramp)
    as [e|full_trend]; [injection H as _ <-; apply frame_refl|].
  destruct (idiv (flux l) full_trend) as [e|f];
    [injection H as _ <-; apply frame_refl|].
  assert (Hlt : (lc < length (lc_data w))%nat) by (eapply lookup_lt_Some; exact El).
  rewrite list_lookup_insert_eq in H by exact Hlt.
  cbn [error with_flux] in H.
  destruct (idiv (error l) full_trend) as [e|e'].
  - injection H as _ <-. eapply frame_insert; [exact El|]. repeat split.
  - injection H as _ <-. cbn [lc_data warnings].
    rewrite list_insert_insert_eq.
    eapply frame_insert; [exact El|]. repeat split.
Qed.

Lemma ladder_frame (lcd : nat) (break_tolerance : Z) (min_period : Qc)
    (w w' : world) (r : exn + nat * option (list Qc)) :
  detrend_ladder lomb_scargle_peak gp_trend lcd break_tolerance min_period w
  = (r, w') ->
  frame w w'.
Proof.
  intros H. rewrite detrend_ladder_tree in H.
  destruct (flatten_with_gp _ _ lcd _ _ "RotationTerm" true false w)
    as [[e1|v1] w1] eqn:E1.
  2:{ injection H as _ <-. eapply flatten_frame, E1. }
  apply flatten_frame in E1.
  destruct (flatten_with_gp _ _ lcd _ _ "RotationTerm" false false _)
    as [[e2|v2] w2] eqn:E2.
  2:{ injection H as _ <-. apply flatten_frame in E2.
      eapply frame_trans; [exact E1|].
      eapply frame_trans; [apply frame_warn|exact E2]. }
  apply flatten_frame in E2. apply flatten_frame in H.
  eapply frame_trans; [exact E1|].
  eapply frame_trans; [apply frame_warn|].
  eapply frame_trans; [exact E2|].
  eapply frame_trans; [apply frame_warn|exact H].
Qed.

End Pass.

Lemma add_planet_mask_frame (lcd : nat) (pb : Planet * Qc) (w w' : world)
    (r : exn + unit) :
  add_planet_mask lcd pb w = (r, w') -> frame w w'.
Proof.
  intros H. unfold add_planet_mask in H. run_M H.
  destruct (lc_data w !! lcd) as [l|] eqn:El;
    [|injection H as _ <-; apply frame_refl].
  destruct (make_transitmask _ _ _) as [m|].
  - injection H as _ <-. eapply frame_insert; [exact El|]. repeat split.
  - injection H as _ <-. apply frame_refl.
Qed.

Lemma set_transit_mask_frame (planets : list (Planet * Qc)) (lcd : nat)
    (w w' : world) (r : exn + unit) :
  set_transit_mask planets lcd w = (r, w') -> frame w w'.
Proof.
  intros H. unfold set_transit_mask in H. run_M H.
  destruct (lc_data w !! lcd) as [l|] eqn:El;
    [|injection H as _ <-; apply frame_refl].
  eapply frame_trans; [|eapply for_each_frame; [|exact H]].
  - eapply frame_insert; [exact El|]. repeat split.
  - intros x w0 r0 w0'. apply add_planet_mask_frame.
Qed.

(** X11: however the second detrending pass ends, with a result or
    with an exception, it leaves as many light curves as it found,
    each with the time, the cadence numbers, the quarter and the
    channel it had, and it only adds warnings to those issued
    before. *)
Theorem detrend_2nd_pass_frame
    (lomb_scargle_peak : LiteCurve -> Qc -> exn + Qc)
    (gp_trend : LiteCurve -> Qc -> Qc -> list Z -> list Z -> string -> bool
                -> exn + list Qc)
    (planets : list (Planet * Qc)) (break_tolerance : Z) (min_period : Qc)
    (w w' : world) (r : exn + unit) :
  detrend_2nd_pass lomb_scargle_peak gp_trend planets break_tolerance
    min_period w = (r, w') ->
  frame w w' /\ length (lc_data w') = length (lc_data w).
Proof.
  intros H.
  assert (F : frame w w').
  { unfold detrend_2nd_pass in H.
    eapply for_each_frame; [|exact H].
    intros lcd w0 r0 w0' H0. unfold mbind, M_bind in H0.
    destruct (set_transit_mask planets lcd w0) as [[e|[]] w1] eqn:E1.
    - injection H0 as _ <-. eapply set_transit_mask_frame, E1.
    - apply set_transit_mask_frame in E1.
      destruct (detrend_ladder _ _ lcd _ _ w1) as [[e|v] w2] eqn:E2.
      + injection H0 as _ <-. eapply frame_trans; [exact E1|].
        eapply ladder_frame, E2.
      + cbn in H0. injection H0 as _ <-. eapply frame_trans; [exact E1|].
        eapply ladder_frame, E2. }
  split; [exact F|]. destruct F as [F _].
  symmetry. eapply Forall2_length, F.
Qed.

(** The theorem on [lc_flat], one planet and a detrender that fails:
    the pass raises and the curve keeps its cadences. *)
Lemma failed_pass_frame :
  frame world_flat
    (mkWorld [with_mask lc_flat [false; true; false]]
       [warning_no_ramp; warning_SHOTerm]) /\
  length [with_mask lc_flat [false; true; false]] = length (lc_data world_flat).
Proof.
  apply (detrend_2nd_pass_frame lomb_one gp_failing [planet_at_11] 1 1%Qc
           world_flat
           (mkWorld [with_mask lc_flat [false; true; false]]
              [warning_no_ramp; warning_SHOTerm])
           (inl (SolverError 3))).
  vm_compute. reflexivity.
Defined.

(** ** The transit mask of the second pass *)

Lemma orb_lookup (a b : list bool) (i : nat) :
  length a = length b ->
  zip_with orb a b !! i = Some true <-> a !! i = Some true \/ b !! i = Some true.
Proof.
  intros Hlen. rewrite lookup_zip_with.
  destruct (a !! i) as [x|] eqn:Ea, (b !! i) as [y|] eqn:Eb; cbn.
  - destruct x, y; cbn; intuition congruence.
  - apply lookup_lt_Some in Ea. apply lookup_ge_None in Eb. lia.
  - apply lookup_ge_None in Ea. apply lookup_lt_Some in Eb. lia.
  - intuition congruence.
Qed.

Lemma with_mask_twice (l : LiteCurve) (m m' : list bool) :
  with_mask (with_mask l m) m' = with_mask l m'.
Proof. reflexivity. Qed.

Lemma add_masks_run (lcd : nat) (planets : list (Planet * Qc)) :
  forall (w : world) (l : LiteCurve),
  lc_data w !! lcd = Some l ->
  time l <> [] ->
  length (mask l) = length (time l) ->
  exists m,
    for_each planets (add_planet_mask lcd) w
    = (inr tt, mkWorld (<[lcd := with_mask l m]> (lc_data w)) (warnings w)) /\
    length m = length (time l) /\
    forall i, m !! i = Some true <->
      mask l !! i = Some true \/
      exists pb mp, In pb planets /\
        make_transitmask (time l) (tts pb.1) (masksize_2nd_pass pb.1 pb.2) = Some mp /\
        mp !! i = Some true.
Proof.
  induction planets as [|pb planets IH]; intros w l Hl Hne Hlen.
  - exists (mask l). split; [|split; [exact Hlen|]].
    + cbn [for_each]. unfold mret, M_ret. f_equal.
      replace (with_mask l (mask l)) with l by (destruct l; reflexivity).
      rewrite (list_insert_id _ _ _ Hl). destruct w; reflexivity.
    + intros i. split; [auto|]. intros [H|(pb & mp & [] & _)]. exact H.
  - destruct (transitmask_lookup (time l) (tts pb.1) (masksize_2nd_pass pb.1 pb.2) Hne)
      as (tmin & tmax & mp & _ & _ & Emp & Lmp & _).
    set (l1 := with_mask l (zip_with orb (mask l) mp)).
    set (w1 := mkWorld (<[lcd := l1]> (lc_data w)) (warnings w)).
    assert (Hlt : (lcd < length (lc_data w))%nat) by (eapply lookup_lt_Some; exact Hl).
    assert (Hl1 : lc_data w1 !! lcd = Some l1).
    { unfold w1. cbn [lc_data]. apply list_lookup_insert_eq. exact Hlt. }
    assert (Hlen1 : length (mask l1) = length (time l1)).
    { unfold l1. cbn [with_mask mask time]. rewrite length_zip_with. lia. }
    destruct (IH w1 l1 Hl1 Hne Hlen1) as (m & Hrun & Hm & Hiff).
    exists m. split; [|split; [exact Hm|]].
    + cbn [for_each]. unfold mbind, M_bind.
      assert (E1 : add_planet_mask lcd pb w = (inr tt, w1)).
      { unfold add_planet_mask, mbind, M_bind, read_lc, write_lc.
        rewrite Hl, Emp. reflexivity. }
      rewrite E1, Hrun. unfold w1, l1. cbn [lc_data warnings].
      rewrite list_insert_insert_eq, with_mask_twice. reflexivity.
    + intros i. rewrite Hiff. unfold l1. cbn [with_mask mask time].
      rewrite orb_lookup by lia. split.
      * intros [[H|H]|(pb' & mp' & Hin & E' & H)].
        -- left. exact H.
        -- right. exists pb, mp. split; [left; reflexivity|]. auto.
        -- right. exists pb', mp'. split; [right; exact Hin|]. auto.
      * intros [H|(pb' & mp' & [<-|Hin] & E' & H)].
        -- left. left. exact H.
        -- left. right. rewrite Emp in E'. injection E' as <-. exact H.
        -- right. exists pb', mp'. auto.
Qed.

(** X12: the transit mask that the second pass gives a light curve
    with one cadence or more does not depend on the mask it had: a
    cadence is masked exactly when it lies closer than the mask size
    of some planet to one of the transit times of that planet that
    fall between the first and the last time of the curve.  The other
    arrays, the other curves and the warnings are unchanged. *)
Theorem set_transit_mask_spec (planets : list (Planet * Qc)) (lcd : nat)
    (w : world) (l : LiteCurve) :
  lc_data w !! lcd = Some l ->
  time l <> [] ->
  exists tmin tmax m,
    np.min (time l) = Some tmin /\ np.max (time l) = Some tmax /\
    set_transit_mask planets lcd w
    = (inr tt, mkWorld (<[lcd := with_mask l m]> (lc_data w)) (warnings w)) /\
    length m = length (time l) /\
    forall i, m !! i = Some true <->
      exists pb t t0,
        In pb planets /\ time l !! i = Some t /\ In t0 (tts pb.1) /\
        (tmin <= t0)%Qc /\ (t0 <= tmax)%Qc /\
        (Qcabs (t - t0) < masksize_2nd_pass pb.1 pb.2)%Qc.
Proof.
  intros Hl Hne.
  destruct (transitmask_lookup (time l) [] 0%Qc Hne)
    as (tmin & tmax & _ & Emin & Emax & _).
  exists tmin, tmax.
  set (l0 := with_mask l (replicate (length (time l)) false)).
  set (w0 := mkWorld (<[lcd := l0]> (lc_data w)) (warnings w)).
  assert (Hlt : (lcd < length (lc_data w))%nat) by (eapply lookup_lt_Some; exact Hl).
  assert (Hl0 : lc_data w0 !! lcd = Some l0).
  { unfold w0. cbn [lc_data]. apply list_lookup_insert_eq. exact Hlt. }
  assert (Hlen0 : length (mask l0) = length (time l0)).
  { unfold l0. cbn [with_mask mask time]. apply length_replicate. }
  destruct (add_masks_run lcd planets w0 l0 Hl0 Hne Hlen0) as (m & Hrun & Hm & Hiff).
  exists m. split; [exact Emin|]. split; [exact Emax|].
  split; [|split; [exact Hm|]].
  - unfold set_transit_mask, mbind, M_bind, read_lc, write_lc.
    rewrite Hl. cbn [lc_data warnings]. fold l0. fold w0. rewrite Hrun.
    unfold w0, l0. cbn [lc_data warnings].
    rewrite list_insert_insert_eq, with_mask_twice. reflexivity.
  - intros i. rewrite Hiff. unfold l0. cbn [with_mask mask time]. split.
    + intros [H|(pb & mp & Hin & E & H)].
      * apply lookup_replicate in H. destruct H as [H _]. discriminate H.
      * destruct (transitmask_lookup (time l) (tts pb.1)
                    (masksize_2nd_pass pb.1 pb.2) Hne)
          as (tmin' & tmax' & mp' & Emin' & Emax' & E' & _ & C).
        rewrite Emin in Emin'. injection Emin' as <-.
        rewrite Emax in Emax'. injection Emax' as <-.
        rewrite E in E'. injection E' as <-.
        apply C in H. destruct H as (t & t0 & H1 & H2 & H3 & H4 & H5).
        exists pb, t, t0. auto 7.
    + intros (pb & t & t0 & Hin & H1 & H2 & H3 & H4 & H5). right.
      destruct (transitmask_lookup (time l) (tts pb.1)
                  (masksize_2nd_pass pb.1 pb.2) Hne)
        as (tmin' & tmax' & mp' & Emin' & Emax' & E' & _ & C).
      rewrite Emin in Emin'. injection Emin' as <-.
      rewrite Emax in Emax'. injection Emax' as <-.
      exists pb, mp'. split; [exact Hin|]. split; [exact E'|].
      apply C. exists t, t0. auto 7.
Qed.

(** The theorem on [lc_flat] and the planet with a transit at 11. *)
Lemma flat_curve_transit_mask :
  exists tmin tmax m,
    np.min (time lc_flat) = Some tmin /\ np.max (time lc_flat) = Some tmax /\
    set_transit_mask [planet_at_11] 0 world_flat
    = (inr tt, mkWorld (<[0%nat := with_mask lc_flat m]> (lc_data world_flat))
                 (warnings world_flat)) /\
    length m = length (time lc_flat) /\
    forall i, m !! i = Some true <->
      exists pb t t0,
        In pb [planet_at_11] /\ time lc_flat !! i = Some t /\ In t0 (tts pb.1) /\
        (tmin <= t0)%Qc /\ (t0 <= tmax)%Qc /\
        (Qcabs (t - t0) < masksize_2nd_pass pb.1 pb.2)%Qc.
Proof.
  apply (set_transit_mask_spec [planet_at_11] 0%nat world_flat lc_flat).
  - reflexivity.
  - discriminate.
Defined.

(** ** The flagging of failed slide fits *)

Lemma nanmedian_some (a : list (option Qc)) (i : nat) (e : Qc) :
  a !! i = Some (Some e) -> exists m, nanmedian a = Some m.
Proof.
  intros H. unfold nanmedian, np.nanable_median.
  destruct (omap id a) as [|x l] eqn:E; [|eexists; reflexivity].
  exfalso. revert i H. induction a as [|y a IH]; intros i H; [destruct i; discriminate|].
  cbn in E. destruct y as [q|]; cbn in E; [discriminate|].
  destruct i as [|i]; [discriminate|]. eapply IH; [exact E|exact H].
Qed.

(** X13: after the flagging of the slide fits of a planet, no transit
    time is NaN; a transit that keeps an uncertainty keeps its slide
    time too, and that uncertainty is at most eight times the median
    of the uncertainties found by the slide fit. *)
Theorem flag_failed_spec (shape_tts : list Qc)
    (slide_tts slide_err : list (option Qc)) :
  length slide_tts = length shape_tts ->
  length slide_err = length shape_tts ->
  let r := flag_failed shape_tts slide_tts slide_err in
  length r.1 = length shape_tts /\ length r.2 = length shape_tts /\
  (forall i, (i < length shape_tts)%nat -> exists t, r.1 !! i = Some (Some t)) /\
  (forall i e, r.2 !! i = Some (Some e) ->
     slide_err !! i = Some (Some e) /\ r.1 !! i = slide_tts !! i /\
     exists m, nanmedian slide_err = Some m /\ (e <= Z2Qc 8 * m)%Qc).
Proof.
  intros Ht He r. unfold r, flag_failed. cbn [fst snd].
  set (thr := fun e : option Qc =>
                if nanmedian slide_err is Some m
                then nan_gt e (Z2Qc 8 * m)%Qc else false).
  set (bad := zip_with orb (zip_with orb (map isnan slide_tts) (map isnan slide_err))
                (map thr slide_err)).
  assert (Lbad : length bad = length shape_tts).
  { unfold bad. rewrite !length_zip_with, !length_map. lia. }
  assert (Hbad : forall i b, bad !! i = Some b ->
            exists t e, slide_tts !! i = Some t /\ slide_err !! i = Some e /\
                        b = isnan t || isnan e || thr e).
  { intros i b Hb. unfold bad in Hb.
    change (map ?f ?l) with (f <$> l) in Hb.
    rewrite !lookup_zip_with, !list_lookup_fmap in Hb.
    destruct (slide_tts !! i) as [t|]; [|discriminate].
    destruct (slide_err !! i) as [e|]; [|discriminate].
    cbn in Hb. injection Hb as <-. exists t, e. auto. }
  split; [|split; [|split]].
  - rewrite length_zip_with, length_zip. lia.
  - rewrite length_zip_with. lia.
  - intros i Hi.
    destruct (lookup_lt_is_Some_2 bad i ltac:(lia)) as [b Hb].
    destruct (lookup_lt_is_Some_2 shape_tts i Hi) as [s Hs].
    destruct (Hbad i b Hb) as (t & e & Et & Ee & ->).
    rewrite lookup_zip_with, Hb. cbn. rewrite lookup_zip_with, Et. cbn.
    rewrite Hs. cbn. destruct t as [q|]; cbn.
    + destruct (isnan e || thr e); eexists; reflexivity.
    + eexists; reflexivity.
  - intros i e Hi. rewrite lookup_zip_with in Hi.
    destruct (bad !! i) as [b|] eqn:Hb; [|discriminate].
    destruct (Hbad i b Hb) as (t & e0 & Et & Ee & ->).
    rewrite Ee in Hi. cbn in Hi.
    destruct (isnan t || isnan e0 || thr e0) eqn:Eb; [discriminate|].
    injection Hi as ->.
    apply orb_false_iff in Eb. destruct Eb as [Eb Ethr].
    apply orb_false_iff in Eb. destruct Eb as [Etn _].
    split; [exact Ee|]. split.
    + rewrite lookup_zip_with, Hb. cbn.
      rewrite lookup_zip_with, Et. cbn.
      assert (Hi' : (i < length shape_tts)%nat).
      { rewrite <- Lbad. eapply lookup_lt_Some, Hb. }
      destruct (lookup_lt_is_Some_2 shape_tts i Hi') as [s Hs]. rewrite Hs. cbn.
      reflexivity.
    + destruct (nanmedian_some slide_err i e Ee) as [m Hm].
      exists m. split; [exact Hm|]. unfold thr in Ethr. rewrite Hm in Ethr.
      cbn in Ethr. apply Qcltb_nlt in Ethr. exact Ethr.
Qed.

(** The theorem on four transits: the third takes the shape time,
    the fourth loses its uncertainty of 100. *)
Lemma flagging_of_four :
  let r := flag_failed shape_four slide_four error_four in
  length r.1 = length shape_four /\ length r.2 = length shape_four /\
  (forall i, (i < length shape_four)%nat -> exists t, r.1 !! i = Some (Some t)) /\
  (forall i e, r.2 !! i = Some (Some e) ->
     error_four !! i = Some (Some e) /\ r.1 !! i = slide_four !! i /\
     exists m, nanmedian error_four = Some m /\ (e <= Z2Qc 8 * m)%Qc).
Proof.
  apply (flag_failed_spec shape_four slide_four error_four); reflexivity.
Defined.

(** ** The refit times in the merged series *)

Lemma assign_select {A} (a : list A) (cond : list bool) (values : list A) :
  length a = length cond ->
  length values = length (np.select a cond) ->
  np.select (assign_where a cond values) cond = values /\
  length (assign_where a cond values) = length a.
Proof.
  revert cond values. induction a as [|x a IH]; intros [|b cond] values Hl Hv;
    try discriminate.
  - cbn in Hv. destruct values; [|discriminate]. split; reflexivity.
  - simpl in Hl. injection Hl as Hl. cbn [np.select] in Hv. destruct b.
    + cbn [app length] in Hv. destruct values as [|v values]; [discriminate|].
      simpl in Hv. injection Hv as Hv.
      destruct (IH cond values Hl Hv) as [E L].
      cbn [assign_where np.select app length]. rewrite E, L. split; reflexivity.
    + cbn [app] in Hv. destruct (IH cond values Hl Hv) as [E L].
      cbn [assign_where np.select app length]. rewrite E, L. split; reflexivity.
Qed.

(** X14: when the independent model returns one time for every
    transit whose slide uncertainty is NaN, the merged series holds
    these times, in order, at those transits, and has the length of
    the slide series. *)
Theorem merge_indep_round_trip (slide_tts slide_error map_tts : list (option Qc)) :
  length slide_tts = length slide_error ->
  length map_tts = length (List.filter isnan slide_error) ->
  np.select (merge_indep slide_tts slide_error map_tts) (map isnan slide_error)
  = map_tts /\
  length (merge_indep slide_tts slide_error map_tts) = length slide_tts.
Proof.
  intros Hl Hv.
  assert (Hc : length (List.filter isnan slide_error)
               = length (np.select slide_tts (map isnan slide_error))).
  { clear Hv map_tts. revert slide_tts Hl.
    induction slide_error as [|e l IH]; intros [|t tts] Hl; try discriminate;
      [reflexivity|].
    simpl in Hl. injection Hl as Hl. cbn [List.filter map np.select].
    destruct (isnan e); cbn [length app]; rewrite (IH tts Hl); reflexivity. }
  unfold merge_indep.
  destruct (existsb id (map isnan slide_error)) eqn:E.
  - apply assign_select; [rewrite length_map; exact Hl|congruence].
  - split; [|reflexivity].
    assert (Hnone : np.select slide_tts (map isnan slide_error) = []).
    { clear Hv Hc. revert slide_tts Hl.
      induction slide_error as [|e l IH]; intros [|t tts] Hl; try discriminate;
        [reflexivity|].
      simpl in Hl. injection Hl as Hl. cbn [map existsb] in E.
      apply orb_false_iff in E. destruct E as [E1 E2]. unfold id in E1.
      cbn [map np.select]. rewrite E1. cbn [app]. apply IH; assumption. }
    rewrite Hnone. rewrite Hc, Hnone in Hv. destruct map_tts; [reflexivity|discriminate].
Qed.

(** The theorem on three transits, the second refit. *)
Lemma merged_second_transit :
  np.select (merge_indep slide_tts_gap slide_err_gap map_tts_gap)
    (map isnan slide_err_gap) = map_tts_gap /\
  length (merge_indep slide_tts_gap slide_err_gap map_tts_gap)
  = length slide_tts_gap.
Proof.
  apply (merge_indep_round_trip slide_tts_gap slide_err_gap map_tts_gap);
    reflexivity.
Defined.

(** ** The points retained by the slide fit *)

Lemma select_zip {A B} (a : list A) (b : list B) (cond : list bool) :
  length a = length b ->
  np.select (zip a b) cond = zip (np.select a cond) (np.select b cond) /\
  length (np.select a cond) = length (np.select b cond).
Proof.
  revert b cond. induction a as [|x a IH]; intros [|y b] [|c cond] H;
    try discriminate; try (split; reflexivity).
  simpl in H. injection H as H. destruct (IH b cond H) as [E L].
  cbn [zip zip_with np.select]. fold (zip a b). rewrite E.
  destruct c; cbn [app zip zip_with length]; rewrite L; split; reflexivity.
Qed.

Lemma retain_pairs (tc_vector chisq_vector : list Qc) (min_chisq : Qc) (d : Z) :
  length tc_vector = length chisq_vector ->
  let fit := retain_near_minimum tc_vector chisq_vector min_chisq d in
  length fit.1 = length fit.2 /\
  forall k t x, fit.1 !! k = Some t -> fit.2 !! k = Some x ->
    In (t, x) (zip tc_vector chisq_vector) /\ (x < min_chisq + Z2Qc d)%Qc.
Proof.
  intros Hl. unfold retain_near_minimum. cbv zeta.
  set (near := map (fun x => Qcltb x (min_chisq + Z2Qc d)%Qc) chisq_vector).
  set (keep := map negb _). cbn [fst snd].
  destruct (select_zip tc_vector chisq_vector near Hl) as [E1 L1].
  destruct (select_zip _ _ keep L1) as [E2 L2].
  split; [exact L2|]. intros k t x Ht Hx.
  assert (Hin : In (t, x) (zip (np.select (np.select tc_vector near) keep)
                              (np.select (np.select chisq_vector near) keep))).
  { apply list_elem_of_In. apply list_elem_of_lookup. exists k.
    rewrite lookup_zip_with, Ht. cbn. rewrite Hx. reflexivity. }
  rewrite <- E2 in Hin. apply select_subset in Hin. rewrite <- E1 in Hin.
  split; [eapply select_subset; exact Hin|].
  apply select_In in Hin. destruct Hin as (i & Hz & Hn).
  rewrite lookup_zip_with in Hz.
  destruct (tc_vector !! i) as [t'|]; [|discriminate]. cbn in Hz.
  destruct (chisq_vector !! i) as [x'|] eqn:Ex; [|discriminate].
  cbn in Hz. injection Hz as -> ->.
  unfold near in Hn. change (map ?f ?l) with (f <$> l) in Hn.
  rewrite list_lookup_fmap, Ex in Hn. cbn in Hn. injection Hn as Hn.
  apply Qcltb_lt. exact Hn.
Qed.

Lemma grab_points_threshold (tc_vector chisq_vector : list Qc) (delta_chisq : Z)
    (m : Qc) (fit : list Qc * list Qc) :
  delta_chisq <= 8 ->
  np.min chisq_vector = Some m ->
  grab_points tc_vector chisq_vector delta_chisq = Some fit ->
  exists d, delta_chisq + 1 <= d <= 9 /\
    fit = retain_near_minimum tc_vector chisq_vector m d /\
    ((length fit.2 < 3)%nat -> d = 9) /\
    forall d', delta_chisq + 1 <= d' < d ->
      (length (retain_near_minimum tc_vector chisq_vector m d').2 < 3)%nat.
Proof.
  revert m fit.
  funelim (grab_points tc_vector chisq_vector delta_chisq); intros m fit Hd Hm Hg.
  - rewrite Hm in Heq. discriminate.
  - rewrite Hm in Heq0. injection Heq0 as <-.
    destruct (Nat.leb_spec 3 (length (retain_near_minimum tc_vector chisq_vector m (delta_chisq + 1)).2)) as [H3|H3].
    + injection Hg as <-. exists (delta_chisq + 1).
      split; [lia|]. split; [reflexivity|]. split; [lia|]. intros d' Hd'. lia.
    + destruct (H m fit ltac:(lia) Hm Hg) as (d & Hr & Hf & H9 & Hlow).
      exists d. split; [lia|]. split; [exact Hf|]. split; [exact H9|].
      intros d' Hd'. destruct (Z.eq_dec d' (delta_chisq + 1)) as [->|Hne].
      * exact H3.
      * apply Hlow. lia.
  - rewrite Hm in Heq0. injection Heq0 as <-. injection Hg as <-.
    exists (delta_chisq + 1). split; [lia|]. split; [reflexivity|].
    split; [lia|]. intros d' Hd'. lia.
Qed.

Lemma Z2Qc_le (a b : Z) : a <= b -> (Z2Qc a <= Z2Qc b)%Qc.
Proof.
  intros H. unfold Qcle, Z2Qc, Q2Qc. cbn [this].
  rewrite !Qred_correct. rewrite <- Zle_Qle. exact H.
Qed.

(** X15: on a grid and a chi-squared curve of one length, not empty,
    the loop returns the points retained for one threshold [d]
    between 2 and 9: the first for which three points or more are
    retained, or 9 when there is none.  The times and the chi-squared
    values retained come in pairs of the grid, as many of each, and
    every chi-squared retained is less than the minimum plus 9. *)
Theorem grab_points_spec (tc_vector chisq_vector : list Qc) :
  chisq_vector <> [] ->
  length tc_vector = length chisq_vector ->
  exists m d tcfit x2fit,
    np.min chisq_vector = Some m /\ 2 <= d <= 9 /\
    grab_points tc_vector chisq_vector 1 = Some (tcfit, x2fit) /\
    (tcfit, x2fit) = retain_near_minimum tc_vector chisq_vector m d /\
    ((length x2fit < 3)%nat -> d = 9) /\
    (forall d', 2 <= d' < d ->
       (length (retain_near_minimum tc_vector chisq_vector m d').2 < 3)%nat) /\
    length tcfit = length x2fit /\
    forall k t x, tcfit !! k = Some t -> x2fit !! k = Some x ->
      In (t, x) (zip tc_vector chisq_vector) /\ (x < m + Z2Qc 9)%Qc.
Proof.
  intros Hne Hl.
  destruct (np.min chisq_vector) as [m|] eqn:Em;
    [|destruct chisq_vector; [congruence|discriminate]].
  destruct (grab_points_total tc_vector chisq_vector 1 Hne) as [[tcfit x2fit] Hg].
  destruct (grab_points_threshold tc_vector chisq_vector 1 m _ ltac:(lia) Em Hg)
    as (d & Hd & Hf & H9 & Hlow).
  exists m, d, tcfit, x2fit.
  split; [reflexivity|]. split; [lia|]. split; [exact Hg|]. split; [exact Hf|].
  split; [exact H9|]. split; [intros d' Hd'; apply Hlow; lia|].
  destruct (retain_pairs tc_vector chisq_vector m d Hl) as [L P].
  rewrite <- Hf in L, P. cbn [fst snd] in L, P.
  split; [exact L|]. intros k t x Ht Hx.
  destruct (P k t x Ht Hx) as [Hin Hlt]. split; [exact Hin|].
  eapply Qclt_le_trans; [exact Hlt|].
  apply Qcplus_le_compat; [apply Qcle_refl|].
  apply Z2Qc_le. lia.
Qed.

(** The theorem on the grid of seven points and its parabola. *)
Lemma parabola_points_retained :
  exists m d tcfit x2fit,
    np.min chisq_parabola = Some m /\ 2 <= d <= 9 /\
    grab_points tc_parabola chisq_parabola 1 = Some (tcfit, x2fit) /\
    (tcfit, x2fit) = retain_near_minimum tc_parabola chisq_parabola m d /\
    ((length x2fit < 3)%nat -> d = 9) /\
    (forall d', 2 <= d' < d ->
       (length (retain_near_minimum tc_parabola chisq_parabola m d').2 < 3)%nat) /\
    length tcfit = length x2fit /\
    forall k t x, tcfit !! k = Some t -> x2fit !! k = Some x ->
      In (t, x) (zip tc_parabola chisq_parabola) /\ (x < m + Z2Qc 9)%Qc.
Proof.
  apply (grab_points_spec tc_parabola chisq_parabola).
  - discriminate.
  - reflexivity.
Defined.

(** ** Epochs and linear ephemerides *)

Ltac qc2q :=
  unfold Qcle, Qclt, Qcminus, Qcopp, Qcplus, Qcmult, Z2Qc, Q2Qc in *;
  cbn [this] in *;
  repeat match goal with
  | H : context [Qred ?q] |- _ => rewrite (Qred_correct q) in H
  | |- context [Qred ?q] => rewrite (Qred_correct q)
  end.

Lemma floor_bounds (x : Qc) :
  (Z2Qc (Qfloor x) <= x)%Qc /\ (x < Z2Qc (Qfloor x) + 1)%Qc.
Proof.
  pose proof (Qfloor_le x) as H1. pose proof (Qlt_floor x) as H2.
  rewrite inject_Z_plus in H2. change (inject_Z 1) with 1%Q in H2.
  split; qc2q; set (f := inject_Z (Qfloor x)) in *; clearbody f; lra.
Qed.

Lemma ceiling_bounds (x : Qc) :
  (x <= Z2Qc (Qceiling x))%Qc /\ (Z2Qc (Qceiling x) - 1 < x)%Qc.
Proof.
  pose proof (Qle_ceiling x) as H1. pose proof (Qceiling_lt x) as H2.
  unfold Z.sub in H2. rewrite inject_Z_plus in H2.
  rewrite inject_Z_opp in H2. change (inject_Z 1) with 1%Q in H2.
  split; qc2q; set (f := inject_Z (Qceiling x)) in *; clearbody f; lra.
Qed.

Lemma Qc_div_mul (a p : Qc) : p <> 0%Qc -> (a / p * p)%Qc = a.
Proof. intros H. field. exact H. Qed.

Lemma Qc_pos_neq (p : Qc) : (0 < p)%Qc -> p <> 0%Qc.
Proof. intros H ->. exact (Qclt_not_eq _ _ H eq_refl). Qed.

Lemma floordiv_bounds (a p : Qc) :
  (0 < p)%Qc ->
  (floordiv a p * p <= a)%Qc /\ (a < (floordiv a p + 1) * p)%Qc.
Proof.
  intros Hp. unfold floordiv.
  destruct (floor_bounds (a / p)%Qc) as [H1 H2].
  pose proof (Qc_div_mul a p (Qc_pos_neq p Hp)) as E. split.
  - rewrite <- E at 2. apply Qcmult_le_compat_r; [exact H1|].
    apply Qclt_le_weak, Hp.
  - rewrite <- E at 1. apply Qcmult_lt_compat_r; [exact Hp|exact H2].
Qed.

Lemma Z2Qc_add (a b : Z) : Z2Qc (a + b) = (Z2Qc a + Z2Qc b)%Qc.
Proof.
  apply Qc_is_canon. unfold Z2Qc, Qcplus, Q2Qc. cbn [this].
  rewrite !Qred_correct. rewrite inject_Z_plus. reflexivity.
Qed.

Lemma Z2Qc_opp (a : Z) : Z2Qc (- a) = (- Z2Qc a)%Qc.
Proof.
  apply Qc_is_canon. unfold Z2Qc, Qcopp, Q2Qc. cbn [this].
  rewrite !Qred_correct. rewrite inject_Z_opp. reflexivity.
Qed.

Lemma Z2Qc_lt (a b : Z) : a < b -> (Z2Qc a < Z2Qc b)%Qc.
Proof.
  intros H. unfold Qclt, Z2Qc, Q2Qc. cbn [this].
  rewrite !Qred_correct. rewrite <- Zlt_Qlt. exact H.
Qed.

(** X16: for a positive period, the adjusted epoch lies between
    [TIME_START] and [TIME_START + period], both included, and
    differs from the epoch given by a whole number of periods. *)
Theorem adjust_epoch_range (TIME_START epoch period : Qc) :
  (0 < period)%Qc ->
  let e := adjust_epoch TIME_START epoch period in
  (TIME_START <= e)%Qc /\ (e <= TIME_START + period)%Qc /\
  exists k : Z, e = (epoch + Z2Qc k * period)%Qc.
Proof.
  intros Hp e. unfold e, adjust_epoch.
  destruct (Qcltb epoch TIME_START) eqn:E1.
  - apply Qcltb_lt in E1.
    destruct (floordiv_bounds (TIME_START - epoch) period Hp) as [H1 H2].
    set (q := floordiv (TIME_START - epoch) period) in *.
    assert (Hle : (epoch + (1 + q) * period <= TIME_START + period)%Qc).
    { clearbody q. qc2q. lra. }
    assert (Hge : (TIME_START <= epoch + (1 + q) * period)%Qc).
    { clearbody q. qc2q. lra. }
    destruct (Qcltb (TIME_START + period) (epoch + (1 + q) * period)) eqn:E2.
    + apply Qcltb_lt in E2. exfalso. exact (Qcle_not_lt _ _ Hle E2).
    + split; [exact Hge|]. split; [exact Hle|].
      exists (1 + Qfloor ((TIME_START - epoch) / period)%Qc).
      rewrite Z2Qc_add. reflexivity.
  - apply Qcltb_nlt in E1.
    destruct (Qcltb (TIME_START + period) epoch) eqn:E2.
    + destruct (floordiv_bounds (epoch - TIME_START) period Hp) as [H1 H2].
      set (q := floordiv (epoch - TIME_START) period) in *.
      split; [clearbody q; qc2q; lra|]. split; [clearbody q; qc2q; lra|].
      exists (- Qfloor ((epoch - TIME_START) / period)%Qc).
      rewrite Z2Qc_opp. unfold q, floordiv. ring.
    + apply Qcltb_nlt in E2. split; [exact E1|]. split; [exact E2|].
      exists 0. change (Z2Qc 0) with 0%Qc. ring.
Qed.

(** The theorem on an epoch of 3 before a start of 131.5, with a
    period of 10. *)
Lemma epoch_three_adjusted :
  let e := adjust_epoch (Q2Qc 131.5) (Z2Qc 3) (Z2Qc 10) in
  (Q2Qc 131.5 <= e)%Qc /\ (e <= Q2Qc 131.5 + Z2Qc 10)%Qc /\
  exists k : Z, e = (Z2Qc 3 + Z2Qc k * Z2Qc 10)%Qc.
Proof.
  apply (adjust_epoch_range (Q2Qc 131.5) (Z2Qc 3) (Z2Qc 10)).
  apply Qcltb_lt. vm_compute. reflexivity.
Defined.

Lemma round_of_integer (z : Z) : round_half_even (Z2Qc z) = z.
Proof.
  unfold round_half_even.
  assert (Hf : Qfloor (Z2Qc z) = z).
  { unfold Z2Qc, Q2Qc. cbn [this]. rewrite Qred_correct. apply Qfloor_Z. }
  rewrite Hf. replace (Z2Qc z - Z2Qc z)%Qc with 0%Qc by ring. reflexivity.
Qed.

Lemma arange_lookup (start stop step : Qc) (i : nat) (t : Qc) :
  arange start stop step !! i = Some t ->
  t = (start + Z2Qc (Z.of_nat i) * step)%Qc /\
  Z.of_nat i < Qceiling ((stop - start) / step)%Qc.
Proof.
  unfold arange. change (map ?f ?l) with (f <$> l).
  rewrite list_lookup_fmap. intros H.
  destruct (seq 0 _ !! i) as [j|] eqn:E; [|discriminate].
  apply lookup_seq in E. destruct E as [-> Hi]. cbn in H. injection H as <-.
  split; [reflexivity|]. lia.
Qed.

(** X17: for a positive period, the transit times of the linear
    ephemeris are the times [epoch + i * period], [i = 0, 1, ...],
    that lie before [TIME_END], all of them and no other, and their
    indexes count from 0 without a gap. *)
Theorem planet_tts_spec (epoch TIME_END period : Qc) :
  (0 < period)%Qc ->
  let tts := planet_tts epoch TIME_END period in
  let n := length tts in
  (forall i t, tts !! i = Some t ->
     t = (epoch + Z2Qc (Z.of_nat i) * period)%Qc /\
     (epoch <= t)%Qc /\ (t < TIME_END)%Qc) /\
  (TIME_END <= epoch + Z2Qc (Z.of_nat n) * period)%Qc /\
  planet_index epoch period tts = map Z.of_nat (seq 0 n).
Proof.
  intros Hp tts n.
  pose proof (Qc_div_mul (TIME_END - epoch) period (Qc_pos_neq _ Hp)) as E.
  destruct (ceiling_bounds ((TIME_END - epoch) / period)%Qc) as [C1 C2].
  set (x := ((TIME_END - epoch) / period)%Qc) in *.
  assert (Hn : n = Z.to_nat (Qceiling x)).
  { unfold n, tts, planet_tts, arange. rewrite length_map, length_seq. reflexivity. }
  split; [|split].
  - intros i t Ht. apply arange_lookup in Ht. destruct Ht as [-> Hi].
    fold x in Hi. split; [reflexivity|].
    assert (H0 : (0 <= Z2Qc (Z.of_nat i) * period)%Qc).
    { replace 0%Qc with (0 * period)%Qc by ring.
      apply Qcmult_le_compat_r; [|apply Qclt_le_weak, Hp].
      change 0%Qc with (Z2Qc 0). apply Z2Qc_le. lia. }
    assert (H1 : (Z2Qc (Z.of_nat i) * period < x * period)%Qc).
    { apply Qcmult_lt_compat_r; [exact Hp|].
      eapply Qcle_lt_trans; [|exact C2].
      replace (Z2Qc (Qceiling x) - 1)%Qc with (Z2Qc (Qceiling x + -1)).
      - apply Z2Qc_le. lia.
      - rewrite Z2Qc_add. reflexivity. }
    rewrite E in H1. set (y := (Z2Qc (Z.of_nat i) * period)%Qc) in *. clearbody y.
    split; qc2q; lra.
  - assert (H1 : (x * period <= Z2Qc (Z.of_nat n) * period)%Qc).
    { apply Qcmult_le_compat_r; [|apply Qclt_le_weak, Hp].
      eapply Qcle_trans; [exact C1|]. apply Z2Qc_le. lia. }
    rewrite E in H1. set (y := (Z2Qc (Z.of_nat n) * period)%Qc) in *. clearbody y.
    qc2q. lra.
  - unfold planet_index. fold n. unfold tts, planet_tts, arange.
    rewrite map_map. fold x. rewrite <- Hn. apply map_ext. intros i.
    replace ((epoch + Z2Qc (Z.of_nat i) * period - epoch) / period)%Qc
      with (Z2Qc (Z.of_nat i)) by (field; apply Qc_pos_neq, Hp).
    apply round_of_integer.
Qed.

(** The theorem on an epoch of 133, a period of 10 and data that
    end at 170.5: four transits. *)
Lemma ephemeris_of_four :
  let tts := planet_tts (Z2Qc 133) (Q2Qc 170.5) (Z2Qc 10) in
  let n := length tts in
  (forall i t, tts !! i = Some t ->
     t = (Z2Qc 133 + Z2Qc (Z.of_nat i) * Z2Qc 10)%Qc /\
     (Z2Qc 133 <= t)%Qc /\ (t < Q2Qc 170.5)%Qc) /\
  (Q2Qc 170.5 <= Z2Qc 133 + Z2Qc (Z.of_nat n) * Z2Qc 10)%Qc /\
  planet_index (Z2Qc 133) (Z2Qc 10) tts = map Z.of_nat (seq 0 n).
Proof.
  apply (planet_tts_spec (Z2Qc 133) (Q2Qc 170.5) (Z2Qc 10)).
  apply Qcltb_lt. vm_compute. reflexivity.
Defined.

(** ** Overlapping transits *)

Lemma div_lt_pos (a d c : Qc) :
  (0 < d)%Qc -> div_lt a d c = true <-> (a < c * d)%Qc.
Proof.
  intros Hd. unfold div_lt.
  destruct (Qceqb d 0) eqn:E0.
  { apply Qceqb_eq in E0. subst d. exfalso. exact (Qclt_not_eq _ _ Hd eq_refl). }
  pose proof (Qc_div_mul a d (Qc_pos_neq d Hd)) as E.
  rewrite Qcltb_lt. split; intros H.
  - rewrite <- E. apply Qcmult_lt_compat_r; assumption.
  - destruct (Qclt_le_dec (a / d) c) as [Hlt|Hle]; [exact Hlt|].
    exfalso. apply (Qcmult_le_compat_r _ _ d) in Hle; [|apply Qclt_le_weak, Hd].
    rewrite E in Hle. exact (Qcle_not_lt _ _ Hle H).
Qed.

Lemma add_overlap_length (dur_max : Qc) (own : list Qc) (overlap : list bool)
    (ttj : Qc) :
  length overlap = length own ->
  length (add_overlap dur_max own overlap ttj) = length own.
Proof.
  intros H. unfold add_overlap. rewrite length_zip_with, length_map. lia.
Qed.

Lemma fold_add_overlap (dur_max : Qc) (own : list Qc) (l : list Qc) :
  forall (overlap : list bool) (k : nat),
  length overlap = length own ->
  length (fold_left (add_overlap dur_max own) l overlap) = length own /\
  (fold_left (add_overlap dur_max own) l overlap !! k = Some true <->
   overlap !! k = Some true \/
   exists t ttj, own !! k = Some t /\ In ttj l /\
     div_lt (Qcabs (t - ttj)) dur_max (Q2Qc 1.5) = true).
Proof.
  induction l as [|u l IH]; intros overlap k Hlen; cbn [fold_left].
  - split; [exact Hlen|]. split; [auto|].
    intros [H|(t & ttj & _ & [] & _)]. exact H.
  - destruct (IH (add_overlap dur_max own overlap u) k
                (add_overlap_length _ _ _ _ Hlen)) as [L H].
    split; [exact L|]. rewrite H. unfold add_overlap at 1.
    rewrite orb_lookup by (rewrite length_map; exact Hlen).
    change (map ?f ?l) with (f <$> l). rewrite list_lookup_fmap. split.
    + intros [[Ho|Hn]|(t & ttj & Ht & Hin & Hd)].
      * left. exact Ho.
      * right. destruct (own !! k) as [t|]; [|discriminate].
        cbn in Hn. injection Hn as Hn. exists t, u. split; [reflexivity|].
        split; [left; reflexivity|exact Hn].
      * right. exists t, ttj. split; [exact Ht|]. split; [right; exact Hin|exact Hd].
    + intros [Ho|(t & ttj & Ht & [<-|Hin] & Hd)].
      * left. left. exact Ho.
      * left. right. rewrite Ht. cbn. rewrite Hd. reflexivity.
      * right. exists t, ttj. auto.
Qed.

Lemma fold_planets_overlap (tts_all : list (list Qc)) (dur_max : Qc) (i : nat)
    (js : list nat) :
  let own := nth i tts_all [] in
  forall (overlap : list bool) (k : nat),
  length overlap = length own ->
  length (fold_left
            (fun overlap j =>
               if (i =? j)%nat then overlap
               else fold_left (add_overlap dur_max own) (nth j tts_all []) overlap)
            js overlap) = length own /\
  (fold_left
     (fun overlap j =>
        if (i =? j)%nat then overlap
        else fold_left (add_overlap dur_max own) (nth j tts_all []) overlap)
     js overlap !! k = Some true <->
   overlap !! k = Some true \/
   exists j t ttj, In j js /\ j <> i /\ own !! k = Some t /\
     In ttj (nth j tts_all []) /\
     div_lt (Qcabs (t - ttj)) dur_max (Q2Qc 1.5) = true).
Proof.
  intros own. induction js as [|j js IH]; intros overlap k Hlen; cbn [fold_left].
  - split; [exact Hlen|]. split; [auto|].
    intros [H|(j & t & ttj & [] & _)]. exact H.
  - destruct (Nat.eqb_spec i j) as [<-|Hne].
    + destruct (IH overlap k Hlen) as [L H]. split; [exact L|]. rewrite H.
      split.
      * intros [Ho|(j & t & ttj & Hin & Hj & Hr)]; [left; exact Ho|].
        right. exists j, t, ttj. split; [right; exact Hin|]. auto.
      * intros [Ho|(j & t & ttj & [<-|Hin] & Hj & Hr)]; [left; exact Ho|congruence|].
        right. exists j, t, ttj. auto.
    + destruct (fold_add_overlap dur_max own (nth j tts_all []) overlap k Hlen)
        as [L1 H1].
      destruct (IH _ k L1) as [L H]. split; [exact L|]. rewrite H, H1. split.
      * intros [[Ho|(t & ttj & Ht & Hin & Hd)]|(j' & t & ttj & Hin & Hj & Hr)].
        -- left. exact Ho.
        -- right. exists j, t, ttj. split; [left; reflexivity|]. auto.
        -- right. exists j', t, ttj. split; [right; exact Hin|]. auto.
      * intros [Ho|(j' & t & ttj & [<-|Hin] & Hj & Ht & Hin' & Hd)].
        -- left. left. exact Ho.
        -- left. right. exists t, ttj. auto.
        -- right. exists j', t, ttj. auto.
Qed.

(** X18: for a positive [dur_max], transit [k] of planet [i] is
    flagged as overlapping exactly when a transit of another planet
    lies closer to it than [1.5 * dur_max]; two transits of
    different planets that flag one another are therefore both
    flagged. *)
Theorem overlap_flags_spec (tts_all : list (list Qc)) (dur_max : Qc) :
  (0 < dur_max)%Qc ->
  (forall i k,
     overlap_flags tts_all dur_max i !! k = Some true <->
     exists j t ttj,
       (j < length tts_all)%nat /\ j <> i /\
       nth i tts_all [] !! k = Some t /\ In ttj (nth j tts_all []) /\
       (Qcabs (t - ttj) < Q2Qc 1.5 * dur_max)%Qc) /\
  (forall i j k m t u,
     (i < length tts_all)%nat -> (j < length tts_all)%nat -> i <> j ->
     nth i tts_all [] !! k = Some t -> nth j tts_all [] !! m = Some u ->
     (Qcabs (t - u) < Q2Qc 1.5 * dur_max)%Qc ->
     overlap_flags tts_all dur_max i !! k = Some true /\
     overlap_flags tts_all dur_max j !! m = Some true).
Proof.
  intros Hd.
  assert (Hspec : forall i k,
     overlap_flags tts_all dur_max i !! k = Some true <->
     exists j t ttj,
       (j < length tts_all)%nat /\ j <> i /\
       nth i tts_all [] !! k = Some t /\ In ttj (nth j tts_all []) /\
       (Qcabs (t - ttj) < Q2Qc 1.5 * dur_max)%Qc).
  { intros i k. unfold overlap_flags.
    destruct (fold_planets_overlap tts_all dur_max i (seq 0 (length tts_all))
                (replicate (length (nth i tts_all [])) false) k
                (length_replicate _ _)) as [_ H].
    cbv zeta in H. rewrite H. split.
    - intros [Hr|(j & t & ttj & Hin & Hj & Ht & Hin' & Hn)].
      + apply lookup_replicate in Hr. destruct Hr as [Hr _]. discriminate Hr.
      + exists j, t, ttj. apply in_seq in Hin.
        split; [lia|]. split; [exact Hj|]. split; [exact Ht|]. split; [exact Hin'|].
        apply (div_lt_pos _ _ _ Hd). exact Hn.
    - intros (j & t & ttj & Hlt & Hj & Ht & Hin & Hn). right.
      exists j, t, ttj. split; [apply in_seq; lia|].
      split; [exact Hj|]. split; [exact Ht|]. split; [exact Hin|].
      apply (div_lt_pos _ _ _ Hd). exact Hn. }
  split; [exact Hspec|].
  intros i j k m t u Hi Hj Hne Ht Hu Hn. split; apply Hspec.
  - exists j, t, u. split; [exact Hj|]. split; [congruence|]. split; [exact Ht|].
    split; [|exact Hn]. apply list_elem_of_In. eapply list_elem_of_lookup_2, Hu.
  - exists i, u, t. split; [exact Hi|]. split; [exact Hne|]. split; [exact Hu|].
    split; [apply list_elem_of_In; eapply list_elem_of_lookup_2, Ht|].
    replace (u - t)%Qc with (- (t - u))%Qc by ring. rewrite Qcabs_opp. exact Hn.
Qed.

(** The theorem on two planets whose transits at 20 and 21 overlap,
    for a longest duration of 1. *)
Lemma transits_20_and_21_overlap :
  overlap_flags tts_two_planets 1%Qc 0 !! 1%nat = Some true /\
  overlap_flags tts_two_planets 1%Qc 1 !! 0%nat = Some true.
Proof.
  destruct (overlap_flags_spec tts_two_planets 1%Qc) as [_ H].
  - apply Qcltb_lt. vm_compute. reflexivity.
  - apply (H 0%nat 1%nat 1%nat 0%nat (Z2Qc 20) (Z2Qc 21)).
    + vm_compute. lia.
    + vm_compute. lia.
    + discriminate.
    + reflexivity.
    + reflexivity.
    + apply Qcltb_lt. vm_compute. reflexivity.
Defined.

(** ** Transit indexes *)

Lemma fold_min_Z (a : list Z) (x : Z) :
  let m := fold_left Z.min a x in
  In m (x :: a) /\ forall y, In y (x :: a) -> m <= y.
Proof.
  revert x. induction a as [|z a IH]; intros x; cbn [fold_left].
  - split; [left; reflexivity|]. intros y [<-|[]]. lia.
  - destruct (IH (Z.min x z)) as [Hin Hle]. cbv zeta in *. split.
    + destruct Hin as [Hin|Hin]; [|right; right; exact Hin].
      rewrite <- Hin. destruct (Z.min_spec x z) as [[_ ->]|[_ ->]];
        [left|right; left]; reflexivity.
    + intros y [<-|[<-|Hy]].
      * specialize (Hle (Z.min x z) ltac:(left; reflexivity)). lia.
      * specialize (Hle (Z.min x z) ltac:(left; reflexivity)). lia.
      * apply Hle. right. exact Hy.
Qed.

Lemma min_Z_spec (a : list Z) (m : Z) :
  min_Z a = Some m -> In m a /\ forall y, In y a -> m <= y.
Proof.
  destruct a as [|x a]; [discriminate|]. intros H. injection H as <-.
  apply fold_min_Z.
Qed.

Lemma min_Z_unique (a : list Z) (m : Z) :
  In m a -> (forall y, In y a -> m <= y) -> min_Z a = Some m.
Proof.
  intros Hin Hle. destruct a as [|x a]; [destruct Hin|].
  destruct (min_Z_spec (x :: a) _ eq_refl) as [Hin' Hle'].
  cbn [min_Z]. f_equal. specialize (Hle _ Hin'). specialize (Hle' _ Hin). lia.
Qed.

Lemma select_map {A B} (f : A -> B) (a : list A) (cond : list bool) :
  np.select (map f a) cond = map f (np.select a cond).
Proof.
  revert cond. induction a as [|x a IH]; intros [|b cond]; try reflexivity.
  cbn [map np.select]. rewrite IH, map_app. destruct b; reflexivity.
Qed.

(** X19: the transit indexes of a planet are the indexes of its
    transits of good quality, counted from the first of them: they
    hold a 0 and no negative number.  When no transit has good
    quality there is no minimum to take, a [ValueError]. *)
Theorem transit_inds_spec (index : list Z) (quality : list bool) :
  length index = length quality ->
  (transit_inds index quality = None <-> np.select index quality = []) /\
  (forall inds, transit_inds index quality = Some inds ->
     exists q0, min_Z (np.select index quality) = Some q0 /\
       inds = map (fun x => x - q0) (np.select index quality) /\
       In 0 inds /\ Forall (fun x => 0 <= x) inds).
Proof.
  intros _. unfold transit_inds.
  destruct (min_Z index) as [m|] eqn:Em; cbn [mbind option_bind].
  2:{ destruct index; [|discriminate]. split; [|discriminate].
      split; [|reflexivity]. intros _. destruct quality; reflexivity. }
  rewrite select_map.
  destruct (np.select index quality) as [|x l] eqn:Es.
  { split; [split; reflexivity|]. cbn. discriminate. }
  set (sel := x :: l) in *.
  assert (Hne : sel <> []) by discriminate. clearbody sel.
  destruct (min_Z sel) as [q0|] eqn:Eq; [|destruct sel; [congruence|discriminate]].
  destruct (min_Z_spec sel q0 Eq) as [Hin Hle].
  assert (Em' : min_Z (map (fun y => y - m) sel) = Some (q0 - m)).
  { apply min_Z_unique.
    - apply in_map_iff. exists q0. split; [reflexivity|exact Hin].
    - intros y Hy. apply in_map_iff in Hy. destruct Hy as (z & <- & Hz).
      specialize (Hle z Hz). lia. }
  rewrite Em'. cbn [option_bind].
  split; [split; [discriminate|congruence]|].
  intros inds H. injection H as <-. exists q0.
  split; [reflexivity|]. rewrite map_map.
  split; [apply map_ext; intros; lia|]. split.
  - apply in_map_iff. exists q0. split; [lia|exact Hin].
  - apply List.Forall_forall. intros y Hy. apply in_map_iff in Hy.
    destruct Hy as (z & <- & Hz). specialize (Hle z Hz). lia.
Qed.

(** The theorem on five transits, the first and the third of poor
    quality: the indexes 1, 3, 4 become 0, 2, 3. *)
Lemma indexes_from_second_transit :
  (transit_inds [0; 1; 2; 3; 4] [false; true; false; true; true] = None <->
   np.select [0; 1; 2; 3; 4] [false; true; false; true; true] = []) /\
  (forall inds,
     transit_inds [0; 1; 2; 3; 4] [false; true; false; true; true] = Some inds ->
     exists q0,
       min_Z (np.select [0; 1; 2; 3; 4] [false; true; false; true; true]) = Some q0 /\
       inds = map (fun x => x - q0)
                (np.select [0; 1; 2; 3; 4] [false; true; false; true; true]) /\
       In 0 inds /\ Forall (fun x => 0 <= x) inds).
Proof.
  apply (transit_inds_spec [0; 1; 2; 3; 4] [false; true; false; true; true]).
  reflexivity.
Defined.

(** ** The blend of the notch filters *)

Lemma linspace_length (start stop : Qc) (num : nat) :
  length (linspace start stop num) = num.
Proof.
  destruct num as [|[|n]]; [reflexivity|reflexivity|].
  unfold linspace. rewrite length_map, length_seq. reflexivity.
Qed.

Lemma linspace_lookup (num i : nat) :
  (2 <= num)%nat -> (i < num)%nat ->
  linspace 0 1 num !! i
  = Some (Z2Qc (Z.of_nat i) / Z2Qc (Z.of_nat (num - 1)))%Qc.
Proof.
  intros Hn Hi. destruct num as [|[|n]]; [lia|lia|].
  unfold linspace. change (map ?f ?l) with (f <$> l).
  rewrite list_lookup_fmap, lookup_seq_lt by exact Hi.
  cbn [fmap option_fmap option_map Nat.add]. f_equal.
  assert (Hd : Z2Qc (Z.of_nat (S (S n) - 1)) <> 0%Qc).
  { apply not_eq_sym, Qclt_not_eq. change 0%Qc with (Z2Qc 0).
    apply Z2Qc_lt. lia. }
  field. exact Hd.
Qed.

Lemma blend_ramp (x : list Qc) :
  (2 <= length x)%nat -> blend x (linspace 0 1 (length x)) = x.
Proof.
  intros Hn. apply list_eq. intros i. unfold blend.
  rewrite !lookup_zip_with.
  destruct (x !! i) as [v|] eqn:Ev; [|reflexivity].
  assert (Hi : (i < length x)%nat) by (eapply lookup_lt_Some; exact Ev).
  rewrite reverse_lookup by (rewrite linspace_length; exact Hi).
  rewrite linspace_length.
  rewrite !linspace_lookup by lia. cbn. f_equal.
  assert (Hd : Z2Qc (Z.of_nat (length x - 1)) <> 0%Qc).
  { apply not_eq_sym, Qclt_not_eq. change 0%Qc with (Z2Qc 0).
    apply Z2Qc_lt. lia. }
  replace (Z2Qc (Z.of_nat (length x - S i)))
    with (Z2Qc (Z.of_nat (length x - 1)) - Z2Qc (Z.of_nat i))%Qc.
  - field. exact Hd.
  - replace (Z.of_nat (length x - 1))
      with (Z.of_nat (length x - S i) + Z.of_nat i) by lia.
    rewrite Z2Qc_add. ring.
Qed.

Section RingingProperties.
Variable filtfilt_fwd : Qc -> list Qc -> option (list Qc).
Variable filtfilt_back : Qc -> list Qc -> option (list Qc).
Hypothesis filtfilt_length :
  forall f0 x y, filtfilt_fwd f0 x = Some y -> length y = length x.

Lemma notch_passes_forward (f_ramp fring : list Qc) :
  forall st st',
  notch_passes filtfilt_fwd filtfilt_back f_ramp fring st = Some st' ->
  forward_passes filtfilt_fwd fring st.1.1 = Some st'.1.1 /\
  length st'.1.1 = length st.1.1 /\
  (fring = [] -> st' = st) /\
  (fring <> [] -> st'.2 = Some (blend st'.1.1 f_ramp)).
Proof.
  induction fring as [|f0 rest IH]; intros st st' H; cbn [notch_passes] in H.
  - injection H as <-. cbn [forward_passes]. repeat split; congruence.
  - unfold notch_step in H.
    destruct (filtfilt_fwd f0 st.1.1) as [a|] eqn:Ea; [|discriminate].
    destruct (filtfilt_back f0 (reverse st.1.2)) as [b|]; [|discriminate].
    cbn in H. destruct (IH _ _ H) as (Hf & Hl & Hnil & Hcons).
    cbn [fst snd] in Hf, Hl. cbn [forward_passes]. rewrite Ea. cbn.
    split; [exact Hf|]. split; [rewrite Hl; eapply filtfilt_length, Ea|].
    split; [discriminate|]. intros _.
    destruct rest as [|f1 rest].
    + rewrite (Hnil eq_refl). reflexivity.
    + apply Hcons. discriminate.
Qed.

End RingingProperties.

(** X20: for a segment of two cadences or more and filters that
    keep the length of a series, the flux that the loop over the
    ringing frequencies returns is, in exact arithmetic, the output
    of the forward filters alone: the ramp and the reversed ramp add
    up to 1, and the series filtered backwards is not used.  With no
    ringing frequency the loop binds no filtered flux, a
    [NameError]. *)
Theorem notch_loop_forward_only
    (filtfilt_fwd filtfilt_back : Qc -> list Qc -> option (list Qc))
    (fring f_interp : list Qc) :
  (forall f0 x y, filtfilt_fwd f0 x = Some y -> length y = length x) ->
  (2 <= length f_interp)%nat ->
  (forall f_filt,
     notch_loop filtfilt_fwd filtfilt_back fring f_interp = inr f_filt ->
     forward_passes filtfilt_fwd fring f_interp = Some f_filt) /\
  notch_loop filtfilt_fwd filtfilt_back [] f_interp = inl UnboundName.
Proof.
  intros Hlen Hn. split; [|reflexivity].
  intros f_filt H. unfold notch_loop in H.
  destruct (notch_passes _ _ _ fring _) as [[[a b] o]|] eqn:E; [|discriminate].
  destruct o as [f|]; [|discriminate]. injection H as ->.
  destruct (notch_passes_forward filtfilt_fwd filtfilt_back Hlen _ _ _ _ E)
    as (Hf & Hl & Hnil & Hcons).
  cbn [fst snd] in *. rewrite Hf. f_equal.
  destruct fring as [|f0 rest].
  - specialize (Hnil eq_refl). discriminate Hnil.
  - specialize (Hcons ltac:(discriminate)). injection Hcons as ->.
    rewrite <- Hl. symmetry. apply blend_ramp. lia.
Qed.

(** The theorem on a segment of three cadences, a forward filter
    that halves and a backward filter that doubles. *)
Lemma ringing_loop_halves :
  (forall f_filt,
     notch_loop halve double [1%Qc] (map Z2Qc [2; 4; 6]) = inr f_filt ->
     forward_passes halve [1%Qc] (map Z2Qc [2; 4; 6]) = Some f_filt) /\
  notch_loop halve double [] (map Z2Qc [2; 4; 6]) = inl UnboundName.
Proof.
  apply (notch_loop_forward_only halve double [1%Qc] (map Z2Qc [2; 4; 6])).
  - intros f0 x y H. injection H as <-. apply length_map.
  - cbn. lia.
Defined.

(** ** Periodic signals shared by planets *)

Lemma closer_than_inverse_spec (fi fj : option Qc) (span : Qc) :
  closer_than_inverse fi fj span = true <->
  exists a b, fi = Some a /\ fj = Some b /\
    (span = 0%Qc \/ (Qcabs (a - b) < 1 / span)%Qc).
Proof.
  unfold closer_than_inverse. destruct fi as [a|], fj as [b|].
  - destruct (Qceqb span 0) eqn:E.
    + apply Qceqb_eq in E. split; [|reflexivity]. intros _. exists a, b. auto.
    + rewrite Qcltb_lt. split.
      * intros H. exists a, b. auto.
      * intros (a' & b' & Ha & Hb & [Hs|Hlt]).
        -- apply Qceqb_eq in Hs. congruence.
        -- injection Ha as <-. injection Hb as <-. exact Hlt.
  - split; [discriminate|]. intros (a' & b' & _ & Hb & _). discriminate.
  - split; [discriminate|]. intros (a' & b' & Ha & _). discriminate.
  - split; [discriminate|]. intros (a' & b' & Ha & _). discriminate.
Qed.

Lemma omc_entry_multi_spec (indep_freqs : list (option Qc)) (indep_faps : list Qc)
    (indep_ephemeris : list (list Qc)) (i : nat) :
  nth i indep_ephemeris [] <> [] ->
  exists tmin tmax entry,
    np.min (nth i indep_ephemeris []) = Some tmin /\
    np.max (nth i indep_ephemeris []) = Some tmax /\
    omc_entry_multi indep_freqs indep_faps indep_ephemeris i = Some entry /\
    (entry = NoSignal \/
     entry = Signal (nth i indep_freqs None) (nth i indep_faps 1%Qc)) /\
    (entry <> NoSignal <->
     (nth i indep_faps 1%Qc < Q2Qc 0.1)%Qc \/
     exists j a b, (i < j < length indep_freqs)%nat /\
       nth i indep_freqs None = Some a /\ nth j indep_freqs None = Some b /\
       ((tmax - tmin)%Qc = 0%Qc \/ (Qcabs (a - b) < 1 / (tmax - tmin))%Qc)).
Proof.
  intros Hne. unfold omc_entry_multi.
  destruct (np.min (nth i indep_ephemeris [])) as [tmin|] eqn:Emin;
    [|destruct (nth i indep_ephemeris []); [congruence|discriminate]].
  destruct (np.max (nth i indep_ephemeris [])) as [tmax|] eqn:Emax;
    [|destruct (nth i indep_ephemeris []); [congruence|discriminate]].
  exists tmin, tmax. cbn [mbind option_bind].
  destruct (Qcltb (nth i indep_faps 1%Qc) (Q2Qc 0.1)) eqn:Efap.
  - eexists. split; [reflexivity|]. split; [reflexivity|]. split; [reflexivity|].
    split; [right; reflexivity|]. split; [|discriminate].
    intros _. left. apply Qcltb_lt. exact Efap.
  - apply Qcltb_nlt in Efap.
    destruct (existsb _ _) eqn:Ex.
    + eexists. split; [reflexivity|]. split; [reflexivity|]. split; [reflexivity|].
      split; [right; reflexivity|]. split; [|discriminate].
      intros _. right. apply existsb_exists in Ex. destruct Ex as (j & Hj & Hc).
      apply in_seq in Hj. apply closer_than_inverse_spec in Hc.
      destruct Hc as (a & b & Ha & Hb & Hc). exists j, a, b.
      split; [lia|]. auto.
    + eexists. split; [reflexivity|]. split; [reflexivity|]. split; [reflexivity|].
      split; [left; reflexivity|]. split; [congruence|].
      intros [Hlt|(j & a & b & Hj & Ha & Hb & Hc)].
      * exfalso. exact (Qcle_not_lt _ _ Efap Hlt).
      * exfalso. assert (Hex : existsb
            (fun j => closer_than_inverse (nth i indep_freqs None)
                        (nth j indep_freqs None) (tmax - tmin))
            (seq (S i) (length indep_freqs - S i)) = true).
        { apply existsb_exists. exists j. split; [apply in_seq; lia|].
          apply closer_than_inverse_spec. exists a, b. auto. }
        congruence.
Qed.

(** X21: in a system of several planets whose ephemerides are not
    empty, every planet gets an entry, either none or its own
    frequency and false-alarm probability; a planet gets its
    frequency exactly when its false-alarm probability is below 0.1
    or its frequency is closer than the inverse of the extent of its
    ephemeris to that of a planet that comes after it.  The last
    planet has no planet after it: it gets its frequency only for a
    false-alarm probability below 0.1. *)
Theorem omc_freqs_spec (indep_freqs : list (option Qc)) (indep_faps : list Qc)
    (indep_ephemeris : list (list Qc)) :
  let NPL := length indep_freqs in
  (1 < NPL)%nat ->
  (forall i, (i < NPL)%nat -> nth i indep_ephemeris [] <> []) ->
  exists entries,
    omc_freqs indep_freqs indep_faps indep_ephemeris = Some entries /\
    length entries = NPL /\
    (forall i, (i < NPL)%nat ->
       exists tmin tmax entry,
         np.min (nth i indep_ephemeris []) = Some tmin /\
         np.max (nth i indep_ephemeris []) = Some tmax /\
         entries !! i = Some entry /\
         (entry = NoSignal \/
          entry = Signal (nth i indep_freqs None) (nth i indep_faps 1%Qc)) /\
         (entry <> NoSignal <->
          (nth i indep_faps 1%Qc < Q2Qc 0.1)%Qc \/
          exists j a b, (i < j < NPL)%nat /\
            nth i indep_freqs None = Some a /\ nth j indep_freqs None = Some b /\
            ((tmax - tmin)%Qc = 0%Qc \/ (Qcabs (a - b) < 1 / (tmax - tmin))%Qc))) /\
    (forall entry, entries !! (NPL - 1)%nat = Some entry ->
       entry <> NoSignal <-> (nth (NPL - 1) indep_faps 1%Qc < Q2Qc 0.1)%Qc).
Proof.
  intros NPL Hn Heph. unfold omc_freqs. fold NPL.
  destruct (Nat.eqb_spec NPL 1) as [E1|_]; [lia|].
  assert (Hsome : is_Some (mapM (omc_entry_multi indep_freqs indep_faps indep_ephemeris)
                             (seq 0 NPL))).
  { apply mapM_is_Some. apply Forall_forall. intros i Hi.
    apply list_elem_of_In, in_seq in Hi.
    destruct (omc_entry_multi_spec indep_freqs indep_faps indep_ephemeris i
                (Heph i ltac:(lia))) as (tmin & tmax & entry & _ & _ & E & _).
    cbn. rewrite E. eexists; reflexivity. }
  destruct Hsome as [entries Hm]. exists entries. split; [exact Hm|].
  apply mapM_Some in Hm.
  assert (Hlen : length entries = NPL).
  { apply Forall2_length in Hm. rewrite length_seq in Hm. lia. }
  assert (Hall : forall i, (i < NPL)%nat ->
       exists tmin tmax entry,
         np.min (nth i indep_ephemeris []) = Some tmin /\
         np.max (nth i indep_ephemeris []) = Some tmax /\
         entries !! i = Some entry /\
         (entry = NoSignal \/
          entry = Signal (nth i indep_freqs None) (nth i indep_faps 1%Qc)) /\
         (entry <> NoSignal <->
          (nth i indep_faps 1%Qc < Q2Qc 0.1)%Qc \/
          exists j a b, (i < j < NPL)%nat /\
            nth i indep_freqs None = Some a /\ nth j indep_freqs None = Some b /\
            ((tmax - tmin)%Qc = 0%Qc \/ (Qcabs (a - b) < 1 / (tmax - tmin))%Qc))).
  { intros i Hi.
    destruct (omc_entry_multi_spec indep_freqs indep_faps indep_ephemeris i
                (Heph i Hi)) as (tmin & tmax & entry & Emin & Emax & E & Hor & Hiff).
    exists tmin, tmax, entry. split; [exact Emin|]. split; [exact Emax|].
    split; [|split; [exact Hor|exact Hiff]].
    assert (Hs : seq 0 NPL !! i = Some i) by (apply lookup_seq; lia).
    destruct (Forall2_lookup_l _ _ _ _ _ Hm Hs) as (y & Hy & Ey).
    rewrite E in Ey. injection Ey as <-. exact Hy. }
  split; [exact Hlen|]. split; [exact Hall|].
  intros entry He.
  destruct (Hall (NPL - 1)%nat ltac:(lia))
    as (tmin & tmax & entry' & _ & _ & He' & _ & Hiff).
  rewrite He in He'. injection He' as <-. rewrite Hiff. split.
  - intros [H|(j & a & b & Hj & _)]; [exact H|lia].
  - intros H. left. exact H.
Qed.

(** The theorem on two planets with the same marginal frequency
    and a false-alarm probability of 0.5. *)
Lemma shared_frequency_of_pair :
  exists entries,
    omc_freqs freqs_pair faps_pair ephemeris_pair = Some entries /\
    (forall entry, entries !! 1%nat = Some entry ->
       entry <> NoSignal <-> (nth 1 faps_pair 1%Qc < Q2Qc 0.1)%Qc).
Proof.
  destruct (omc_freqs_spec freqs_pair faps_pair ephemeris_pair)
    as (entries & E & _ & _ & Hlast).
  - cbn. lia.
  - intros [|[|i]] Hi; [discriminate|discriminate|cbn in Hi; lia].
  - exists entries. split; [exact E|exact Hlast].
Defined.

(** ** Exposure settings of the shape model *)

Lemma quarters_good (all_dtype : list dtype) (q : nat) :
  In q (quarters all_dtype) ->
  exists d, all_dtype !! q = Some d /\ good_dtype d = true.
Proof.
  unfold quarters. intros H. apply select_In in H.
  destruct H as (i & Hi & Hc). apply lookup_seq in Hi. destruct Hi as [-> _].
  change (map ?f ?l) with (f <$> l) in Hc. rewrite list_lookup_fmap in Hc.
  change (0 + i)%nat with i in *.
  destruct (all_dtype !! i) as [d|]; [|discriminate].
  cbn in Hc. exists d. split; [reflexivity|congruence].
Qed.

(** X22: the shape model evaluates the [j]-th quarter with data, [q],
    with the oversampling factor and the exposure time stored for
    quarter [j], not for [q].  So when quarter 0 has no usable data,
    the first quarter with data is modelled with an oversampling
    factor of 0 and an exposure time of 0. *)
Theorem shape_settings_by_position (scit lcit : Qc) (all_dtype : list dtype) :
  length all_dtype = 18%nat ->
  (forall j q os te,
     shape_settings scit lcit all_dtype !! j = Some (q, os, te) ->
     (exists d, all_dtype !! q = Some d /\ good_dtype d = true) /\
     os = nth j (oversample all_dtype) 0 /\
     te = nth j (texp scit lcit all_dtype) 0%Qc) /\
  (forall d0, all_dtype !! 0%nat = Some d0 -> good_dtype d0 = false ->
     forall q os te,
       shape_settings scit lcit all_dtype !! 0%nat = Some (q, os, te) ->
       q <> 0%nat /\ os = 0 /\ te = 0%Qc).
Proof.
  intros Hlen.
  assert (Hpos : forall j q os te,
     shape_settings scit lcit all_dtype !! j = Some (q, os, te) ->
     (exists d, all_dtype !! q = Some d /\ good_dtype d = true) /\
     os = nth j (oversample all_dtype) 0 /\
     te = nth j (texp scit lcit all_dtype) 0%Qc).
  { intros j q os te H. unfold shape_settings in H.
    rewrite list_lookup_imap in H.
    destruct (quarters all_dtype !! j) as [q'|] eqn:Eq; [|discriminate].
    cbn in H. injection H as <- <- <-. split; [|split; reflexivity].
    apply quarters_good. apply list_elem_of_In. eapply list_elem_of_lookup_2, Eq. }
  split; [exact Hpos|].
  intros d0 Hd0 Hbad q os te H.
  destruct (Hpos 0%nat q os te H) as ((d & Hd & Hgood) & -> & ->).
  split; [|split].
  - intros ->. rewrite Hd0 in Hd. injection Hd as <-. congruence.
  - destruct all_dtype as [|d1 rest]; [discriminate|].
    cbn in Hd0. injection Hd0 as ->. cbn [oversample map nth].
    destruct d0; try reflexivity; discriminate.
  - destruct all_dtype as [|d1 rest]; [discriminate|].
    cbn in Hd0. injection Hd0 as ->. cbn [texp map nth].
    destruct d0; try reflexivity; discriminate.
Qed.

(** The theorem on data in quarter 1 alone, in long cadence: the
    quarter is modelled with the settings of quarter 0. *)
Lemma quarter_1_settings :
  shape_settings (Q2Qc 0.0007) (Q2Qc 0.02) dtype_quarter_1 !! 0%nat
    = Some (1%nat, 0, 0%Qc) /\
  (1 <> 0)%nat /\ 0 = 0 /\ 0%Qc = 0%Qc.
Proof.
  assert (E : shape_settings (Q2Qc 0.0007) (Q2Qc 0.02) dtype_quarter_1 !! 0%nat
              = Some (1%nat, 0, 0%Qc)) by reflexivity.
  split; [exact E|].
  destruct (shape_settings_by_position (Q2Qc 0.0007) (Q2Qc 0.02) dtype_quarter_1)
    as [_ H].
  - reflexivity.
  - apply (H dtype_none eq_refl eq_refl 1%nat 0 0%Qc E).
Defined.

(** ** The catalog checks *)

Lemma check_consistent_spec {A} (eqb : A -> A -> bool) (name : string)
    (a : list A) (v : A) :
  check_consistent eqb name a = inr v <->
  exists rest, a = v :: rest /\ Forall (fun k => eqb k v = true) a.
Proof.
  unfold check_consistent. destruct a as [|first rest].
  - split; [discriminate|]. intros (r & H & _). discriminate.
  - destruct (forallb (fun k => eqb k first) (first :: rest)) eqn:E.
    + split.
      * intros H. injection H as <-. exists rest. split; [reflexivity|].
        apply List.Forall_forall. rewrite forallb_forall in E. exact E.
      * intros (r & H & _). injection H as -> _. reflexivity.
    + split; [discriminate|]. intros (r & H & Hall). injection H as -> ->.
      rewrite List.Forall_forall, <- forallb_forall in Hall. congruence.
Qed.

(** X23: a catalog column of integers passes the consistency check
    exactly when it is not empty and all its values are the first
    one, which is the result; a column of floats passes exactly when
    moreover that value is not NaN, so a NaN limb-darkening
    coefficient is reported as an inconsistency even in a single row.
    A target with no row in the catalog ends in an [IndexError], not
    in the [ValueError] of the check. *)
Theorem catalog_checks (name : string) :
  (forall (a : list Z) (v : Z),
     check_consistent Z.eqb name a = inr v <->
     a <> [] /\ Forall (fun k => k = v) a) /\
  (forall (u : list (option Qc)) (v : option Qc),
     check_consistent float_eqb name u = inr v <->
     exists q, v = Some q /\ u <> [] /\ Forall (fun k => k = Some q) u) /\
  check_consistent Z.eqb name [] = inl IndexError /\
  check_consistent float_eqb name [] = inl IndexError.
Proof.
  split; [|split; [|split; reflexivity]].
  - intros a v. rewrite check_consistent_spec. split.
    + intros (rest & -> & H). split; [discriminate|].
      eapply List.Forall_impl; [|exact H]. intros k Hk. apply Z.eqb_eq, Hk.
    + intros [Hne H]. destruct a as [|x rest]; [congruence|].
      pose proof (proj1 (List.Forall_cons_iff _ _ _) H) as [-> _].
      exists rest. split; [reflexivity|].
      eapply List.Forall_impl; [|exact H]. intros k ->. apply Z.eqb_refl.
  - intros u v. rewrite check_consistent_spec. split.
    + intros (rest & -> & H).
      pose proof (proj1 (List.Forall_cons_iff _ _ _) H) as [Hv _].
      destruct v as [q|]; [|discriminate]. exists q.
      split; [reflexivity|]. split; [discriminate|].
      eapply List.Forall_impl; [|exact H]. intros k Hk. cbv beta in Hk.
      destruct k as [k|]; [|discriminate]. cbn in Hk.
      apply Qceqb_eq in Hk. congruence.
    + intros (q & -> & Hne & H). destruct u as [|x rest]; [congruence|].
      pose proof (proj1 (List.Forall_cons_iff _ _ _) H) as [-> _].
      exists rest. split; [reflexivity|].
      eapply List.Forall_impl; [|exact H]. intros k ->. cbn.
      apply Qceqb_eq. reflexivity.
Qed.

(** ** The impact parameter of a new planet *)

(** X24: when the square root of the depth lies between 0 and 1, the
    impact parameter given to a new planet is at most
    [1 - sqrt(depth)], and it is the impact parameter of the catalog
    when that one is. *)
Theorem initial_impact_bound (fsqrt : Qc -> Qc) (impact depth : Qc) :
  (0 <= fsqrt depth)%Qc -> (fsqrt depth <= 1)%Qc ->
  (initial_impact fsqrt impact depth <= 1 - fsqrt depth)%Qc /\
  ((impact <= 1 - fsqrt depth)%Qc -> initial_impact fsqrt impact depth = impact).
Proof.
  intros H0 H1. unfold initial_impact.
  set (s := fsqrt depth) in *. clearbody s.
  destruct (Qcltb (1 - s) impact) eqn:E.
  - apply Qcltb_lt in E. split.
    + assert (Ha : (0 <= 1 - s)%Qc) by (qc2q; lra).
      assert (Hb : (1 - s <= 1)%Qc) by (qc2q; lra).
      pose proof (Qcmult_le_compat_r _ _ (1 - s)%Qc Hb Ha) as H.
      rewrite Qcmult_1_l in H. exact H.
    + intros Hle. exfalso. exact (Qcle_not_lt _ _ Hle E).
  - apply Qcltb_nlt in E. split; [exact E|reflexivity].
Qed.

(** The theorem on a depth of 0.01, whose square root is 0.1, and a
    catalog impact parameter of 0.95. *)
Lemma impact_of_grazing_planet :
  (initial_impact (fun _ => Q2Qc 0.1) (Q2Qc 0.95) (Q2Qc 0.01) <= 1 - Q2Qc 0.1)%Qc /\
  ((Q2Qc 0.95 <= 1 - Q2Qc 0.1)%Qc ->
   initial_impact (fun _ => Q2Qc 0.1) (Q2Qc 0.95) (Q2Qc 0.01) = Q2Qc 0.95).
Proof.
  apply (initial_impact_bound (fun _ => Q2Qc 0.1) (Q2Qc 0.95) (Q2Qc 0.01)).
  - apply Qcleb_le. vm_compute. reflexivity.
  - apply Qcleb_le. vm_compute. reflexivity.
Defined.

(** ** The quarters of a collection *)

Lemma insert_by_key_perm {A} (x : Z * A) (l : list (Z * A)) :
  insert_by_key x l ≡ₚ x :: l.
Proof.
  induction l as [|y l IH]; cbn [insert_by_key]; [reflexivity|].
  destruct (x.1 <=? y.1); [reflexivity|].
  rewrite IH. apply Permutation_swap.
Qed.

Lemma sort_by_key_perm {A} (l : list (Z * A)) : sort_by_key l ≡ₚ l.
Proof.
  induction l as [|x l IH]; [reflexivity|].
  unfold sort_by_key in *. cbn [foldr].
  rewrite insert_by_key_perm, IH. reflexivity.
Qed.

Lemma insert_by_key_sorted {A} (x : Z * A) (l : list (Z * A)) :
  StronglySorted (fun a b => a.1 <= b.1) l ->
  StronglySorted (fun a b => a.1 <= b.1) (insert_by_key x l).
Proof.
  intros H. induction H as [|y l Hs IH Hy]; cbn [insert_by_key].
  - repeat constructor.
  - destruct (Z.leb_spec x.1 y.1).
    + constructor; [constructor; assumption|].
      constructor; [assumption|].
      eapply List.Forall_impl; [|exact Hy]. intros a Ha. cbv beta in Ha. lia.
    + constructor; [exact IH|].
      apply List.Forall_forall. intros a Ha.
      apply list_elem_of_In in Ha. rewrite insert_by_key_perm in Ha.
      apply list_elem_of_In in Ha. destruct Ha as [<-|Ha]; [lia|].
      rewrite List.Forall_forall in Hy. apply Hy, Ha.
Qed.

Lemma sort_by_key_sorted {A} (l : list (Z * A)) :
  StronglySorted (fun a b => a.1 <= b.1) (sort_by_key l).
Proof.
  induction l as [|x l IH]; [constructor|].
  unfold sort_by_key in *. cbn [foldr]. apply insert_by_key_sorted, IH.
Qed.

Lemma sorted_keys {A} (l : list (Z * A)) :
  StronglySorted (fun a b => a.1 <= b.1) l -> StronglySorted Z.le (map fst l).
Proof.
  intros H. induction H as [|x l Hs IH Hx]; cbn [map]; constructor; [exact IH|].
  apply List.Forall_forall. intros k Hk. apply in_map_iff in Hk.
  destruct Hk as (y & <- & Hy). rewrite List.Forall_forall in Hx. apply Hx, Hy.
Qed.

Lemma quarter_group_spec (lk_col : list LightCurve) (kic q : Z)
    (g : list LightCurve) :
  quarter_group lk_col kic q = Some g ->
  g ≡ₚ List.filter (fun lkc => (lk_quarter lkc =? q) && (lk_targetid lkc =? kic)) lk_col /\
  exists keys,
    Forall2 (fun lkc k => min_Z (lk_cadenceno lkc) = Some k) g keys /\
    StronglySorted Z.le keys.
Proof.
  unfold quarter_group.
  set (lkc_list := List.filter _ lk_col). intros H.
  destruct (mapM _ lkc_list) as [cadno|] eqn:Em; [|discriminate].
  cbn in H. injection H as <-. apply mapM_Some in Em.
  pose proof (Forall2_length _ _ _ Em) as Hlen.
  split.
  - rewrite sort_by_key_perm. rewrite snd_zip by lia. reflexivity.
  - exists (map fst (sort_by_key (zip cadno lkc_list))). split.
    + assert (Hall : Forall (fun p : Z * LightCurve => min_Z (lk_cadenceno p.2) = Some p.1)
                       (sort_by_key (zip cadno lkc_list))).
      { rewrite sort_by_key_perm. apply Forall_forall. intros [k lkc] Hin.
        apply list_elem_of_lookup in Hin. destruct Hin as [i Hi].
        apply lookup_zip_with_Some in Hi.
        destruct Hi as (k' & lkc' & Hp & Hk & Hl). injection Hp as -> ->.
        cbn. exact (Forall2_lookup_lr _ _ _ _ _ _ Em Hl Hk). }
      induction Hall as [|p l Hp _ IH]; cbn [map]; constructor; assumption.
    + apply sorted_keys, sort_by_key_sorted.
Qed.

(** X25: when [cleanup_lkfc] returns, it returns one light curve for
    every distinct quarter of the collection, in increasing order of
    the quarters; the light curve of a quarter is stitched from the
    light curves of that quarter and of the target, all of them and no
    other, in the order of their first cadence numbers. *)
Theorem cleanup_lkfc_spec (stitch_remove_nans : list LightCurve -> option LightCurve)
    (lk_collection : list LightCurve) (kic : Z) (out : list LightCurve) :
  cleanup_lkfc stitch_remove_nans lk_collection kic = Some out ->
  let qs := np.unique (map lk_quarter lk_collection) in
  StronglySorted Z.lt qs /\
  (forall q, In q qs <-> exists lkc, In lkc lk_collection /\ lk_quarter lkc = q) /\
  length out = length qs /\
  forall i q o, qs !! i = Some q -> out !! i = Some o ->
    exists g keys,
      stitch_remove_nans g = Some o /\
      g ≡ₚ List.filter (fun lkc => (lk_quarter lkc =? q) && (lk_targetid lkc =? kic))
             lk_collection /\
      Forall2 (fun lkc k => min_Z (lk_cadenceno lkc) = Some k) g keys /\
      StronglySorted Z.le keys.
Proof.
  intros H qs. unfold cleanup_lkfc in H. fold qs in H. apply mapM_Some in H.
  split; [apply unique_sorted|]. split; [|split].
  - intros q. unfold qs. rewrite unique_In, in_map_iff. split.
    + intros (lkc & E & Hin). exists lkc. auto.
    + intros (lkc & Hin & E). exists lkc. auto.
  - symmetry. eapply Forall2_length, H.
  - intros i q o Hq Ho.
    pose proof (Forall2_lookup_lr _ _ _ _ _ _ H Hq Ho) as E. cbv beta in E.
    destruct (quarter_group lk_collection kic q) as [g|] eqn:Eg; [|discriminate].
    cbn in E. destruct (quarter_group_spec _ _ _ _ Eg) as (Hp & keys & Hk & Hs).
    exists g, keys. auto.
Qed.

(** The theorem on three files of two quarters. *)
Lemma two_quarters_cleaned :
  let qs := np.unique (map lk_quarter files_of_two_quarters) in
  StronglySorted Z.lt qs /\
  (forall q, In q qs <->
     exists lkc, In lkc files_of_two_quarters /\ lk_quarter lkc = q) /\
  length [mkLightCurve 1 7 [100; 101]; mkLightCurve 2 7 [200; 201; 250; 251]]
  = length qs /\
  forall i q o, qs !! i = Some q ->
    [mkLightCurve 1 7 [100; 101]; mkLightCurve 2 7 [200; 201; 250; 251]] !! i = Some o ->
    exists g keys,
      stitch_cadences g = Some o /\
      g ≡ₚ List.filter (fun lkc => (lk_quarter lkc =? q) && (lk_targetid lkc =? 7))
             files_of_two_quarters /\
      Forall2 (fun lkc k => min_Z (lk_cadenceno lkc) = Some k) g keys /\
      StronglySorted Z.le keys.
Proof.
  apply (cleanup_lkfc_spec stitch_cadences files_of_two_quarters 7).
  reflexivity.
Defined.
